(** * The document content model of memos-cloudflare

    A shallow embedding of the note-text compiler of the front end:

    - [parseLineContent] and [convertContentToNodes]
      (frontend/src/api/client.ts), the API client's inline tokenizer and
      block scanner;
    - [parseMarkdownToNodes], [restoreNodesToMarkdown] and
      [extractTextFromChildren] (the markdown service client), the
      line-by-line block scanner and the node serializer;
    - [calculateMemoProperties] (frontend/src/api/client.ts), the
      regex-based property classifier.

    JavaScript strings are sequences of UTF-16 code units; the regular
    expressions of the source carry no [u] flag, so they too work on code
    units.  A string is therefore a [list N]; that a code unit is below
    65536 plays no part here.

    Each scanner is embedded twice: as a recursive function on the lines
    from the cursor on, which the properties are stated on, and as the
    loops of the source over the array and its index ([Cursor]), where a
    read past the end of the array throws, and so does a call that
    spreads more arguments than the engine takes.  The two are proved to
    agree wherever the loops return. *)

From Stdlib Require Import String Ascii NArith Arith Bool Lia List.
Import ListNotations.

(** ** JavaScript strings *)

Module Js.

(** A UTF-16 code unit, and a string. *)
Abbreviation char := N (only parsing).
Abbreviation str := (list N) (only parsing).

(** A string literal of the source, as code units. *)
Definition lit (s : string) : str :=
  map N_of_ascii (list_ascii_of_string s).

Definition chr (a : ascii) : char := N_of_ascii a.

Definition inRange (lo hi c : char) : bool := ((lo <=? c) && (c <=? hi))%N.
Arguments inRange (lo hi c)%_N_scope.

(** [\s] of a JavaScript regular expression, which is also the set that
    [String.prototype.trim] strips: WhiteSpace and LineTerminator. *)
Definition isSpace (c : char) : bool :=
  inRange 9 13 c || (c =? 32)%N || (c =? 160)%N || (c =? 5760)%N
  || inRange 8192 8202 c || (c =? 8232)%N || (c =? 8233)%N
  || (c =? 8239)%N || (c =? 8287)%N || (c =? 12288)%N || (c =? 65279)%N.

(** The characters that [.] does not match: the line terminators. *)
Definition isLineTerminator (c : char) : bool :=
  (c =? 10)%N || (c =? 13)%N || (c =? 8232)%N || (c =? 8233)%N.

Definition isDigit (c : char) : bool := inRange 48 57 c.

(** [\w] *)
Definition isWord (c : char) : bool :=
  inRange 97 122 c || inRange 65 90 c || isDigit c || (c =? 95)%N.

Definition isChar (a : ascii) (c : char) : bool := (c =? chr a)%N.

(** The longest prefix whose elements satisfy [p], and what follows it. *)
Fixpoint takeWhile {A : Type} (p : A -> bool) (s : list A) : list A :=
  match s with
  | c :: s' => if p c then c :: takeWhile p s' else []
  | [] => []
  end.

Fixpoint dropWhile {A : Type} (p : A -> bool) (s : list A) : list A :=
  match s with
  | c :: s' => if p c then dropWhile p s' else s
  | [] => []
  end.

Definition isEmpty (s : str) : bool :=
  match s with [] => true | _ => false end.

Definition trimStart (s : str) : str := dropWhile isSpace s.
Definition trimEnd (s : str) : str := rev (dropWhile isSpace (rev s)).
Definition trim (s : str) : str := trimEnd (trimStart s).

Fixpoint startsWith (p s : str) : bool :=
  match p, s with
  | [], _ => true
  | a :: p', c :: s' => (c =? a)%N && startsWith p' s'
  | _ :: _, [] => false
  end.

Definition endsWith (p s : str) : bool := startsWith (rev p) (rev s).

(** [s.substring(a, b)] for [a <= b], and [s.substring(a)]. *)
Definition substring (a b : nat) (s : str) : str := firstn (b - a) (skipn a s).
Definition substringFrom (a : nat) (s : str) : str := skipn a s.

(** [s.slice(1, -1)] *)
Definition slice1m1 (s : str) : str := removelast (tl s).

(** [s.split('\n')]: never the empty array. *)
Fixpoint split_nl (s : str) : list str :=
  match s with
  | [] => [[]]
  | c :: s' =>
      if (c =? 10)%N then [] :: split_nl s'
      else match split_nl s' with
           | l :: ls => (c :: l) :: ls
           | [] => [[c]]
           end
  end.

(** [parts.join(sep)] *)
Fixpoint join (sep : str) (parts : list str) : str :=
  match parts with
  | [] => []
  | [p] => p
  | p :: ps => p ++ sep ++ join sep ps
  end.

Definition join_nl : list str -> str := join [10%N].

(** [s.repeat(n)] *)
Fixpoint repeatStr (s : str) (n : nat) : str :=
  match n with
  | O => []
  | S k => s ++ repeatStr s k
  end.

(** *** Regular expressions

    A regular expression of the source is embedded as its matcher at one
    position: [m s = Some n] when the expression matches a prefix of [s],
    [n] being the length of the match the engine finds there (greedy
    quantifiers, backtracking resolved by hand for each expression). *)

Definition matcher := str -> option nat.

(** [re.test(s)] for an expression without the [g] flag: a match at some
    position, the end of the string included. *)
Fixpoint test (m : matcher) (s : str) : bool :=
  match m s with
  | Some _ => true
  | None => match s with
            | [] => false
            | _ :: s' => test m s'
            end
  end.

(** One match of a global scan: its [index] and its text [match[0]]. *)
Record rmatch := { m_index : nat; m_text : str }.

(** [while ((match = re.exec(s)) !== null)] for an expression with the [g]
    flag whose matches are never empty: the matches from left to right,
    each search resuming at the end of the previous match.  [skip] counts
    the characters of the last match still to be passed, [pos] is the index
    of the head of [s]. *)
Fixpoint execFrom (m : matcher) (skip pos : nat) (s : str) : list rmatch :=
  match s with
  | [] => []
  | _ :: s' =>
      match skip with
      | S k => execFrom m k (S pos) s'
      | O =>
          match m s with
          | Some n =>
              {| m_index := pos; m_text := firstn n s |}
                :: execFrom m (pred n) (S pos) s'
          | None => execFrom m 0 (S pos) s'
          end
      end
  end.

Definition execAll (m : matcher) (s : str) : list rmatch := execFrom m 0 0 s.

(** [s.split(re)] for an expression that is one capture group and never
    matches the empty string: the pieces between the matches, with the
    text of each match in between. *)
Fixpoint splitFrom (m : matcher) (piece : str) (skip : nat) (s : str)
  : list str :=
  match s with
  | [] => [piece]
  | c :: s' =>
      match skip with
      | S k => splitFrom m piece k s'
      | O =>
          match m s with
          | Some n => piece :: firstn n s :: splitFrom m [] (pred n) s'
          | None => splitFrom m (piece ++ [c]) 0 s'
          end
      end
  end.

Definition splitCapture (m : matcher) (s : str) : list str :=
  splitFrom m [] 0 s.

End Js.

Import Js.

(** ** The regular expressions of the source *)

Module Re.

(** The tag alphabet "[a-zA-Z0-9\u4e00-\u9fa5_-]". *)
Definition isTagChar (c : char) : bool :=
  inRange 97 122 c || inRange 65 90 c || isDigit c
  || inRange 19968 40869 c || (c =? 95)%N || (c =? 45)%N.

(** [tagRegex], "/#([a-zA-Z0-9\u4e00-\u9fa5_-]+)/": a [#] and the longest
    run of the tag alphabet, which must not be empty. *)
Definition tagRegex : matcher := fun s =>
  match s with
  | c :: r =>
      if isChar "#" c then
        match takeWhile isTagChar r with
        | [] => None
        | run => Some (S (length run))
        end
      else None
  | [] => None
  end.

(** [linkRegex], "/(https?:\/\/[^\s]+)/", also the expression of
    [hasLink]: a scheme and the longest run free of white space, which
    must not be empty.  After [http] the optional [s] is taken when
    present; giving it back never helps, [:] being no [s]. *)
Definition linkRegex : matcher := fun s =>
  let after (p : str) :=
    match takeWhile (fun c => negb (isSpace c)) (skipn (length p) s) with
    | [] => None
    | run => Some (length p + length run)
    end in
  if startsWith (lit "https://") s then after (lit "https://")
  else if startsWith (lit "http://") s then after (lit "http://")
  else None.

(** "/`([^`]+)`/" and "/(`[^`]+`)/": a backtick, the longest run free of
    backticks, which must not be empty, and a backtick. *)
Definition codeAt : matcher := fun s =>
  match s with
  | c :: r =>
      if isChar "`" c then
        match takeWhile (fun d => negb (isChar "`" d)) r with
        | [] => None
        | run =>
            match skipn (length run) r with
            | _ :: _ => Some (S (S (length run)))
            | [] => None
            end
        end
      else None
  | [] => None
  end.

(** The line expressions are written below with WS for their first group,
    [\s*] in parentheses, and REST for their final group, [.*] in
    parentheses.  REST is the rest up to the first line terminator. *)
Definition dotStar (s : str) : str :=
  takeWhile (fun c => negb (isLineTerminator c)) s.

(** "/^WS- \[([ xX])\] REST/", with its three groups. *)
Definition taskMatch (line : str) : option (str * char * str) :=
  let ws := takeWhile isSpace line in
  match skipn (length ws) line with
  | d :: sp :: lb :: box :: rb :: sp2 :: rest =>
      if isChar "-" d && isChar " " sp && isChar "[" lb
         && (isChar " " box || isChar "x" box || isChar "X" box)
         && isChar "]" rb && isChar " " sp2
      then Some (ws, box, dotStar rest)
      else None
  | _ => None
  end.

(** "/^WS- REST/" *)
Definition bulletMatch (line : str) : option (str * str) :=
  let ws := takeWhile isSpace line in
  match skipn (length ws) line with
  | d :: sp :: rest =>
      if isChar "-" d && isChar " " sp then Some (ws, dotStar rest) else None
  | _ => None
  end.

(** "/^WS(\d+)\. REST/" *)
Definition orderedMatch (line : str) : option (str * str * str) :=
  let ws := takeWhile isSpace line in
  let r := skipn (length ws) line in
  match takeWhile isDigit r with
  | [] => None
  | digits =>
      match skipn (length digits) r with
      | dot :: sp :: rest =>
          if isChar "." dot && isChar " " sp
          then Some (ws, digits, dotStar rest)
          else None
      | _ => None
      end
  end.

(** "/^(#{1,6}) REST/", and "/^#{1,6} REST/" which matches the same lines:
    a space can only follow the whole run of [#], so the run has one to
    six of them. *)
Definition headingMatch (line : str) : option (str * str) :=
  let hashes := takeWhile (isChar "#") line in
  if (1 <=? length hashes) && (length hashes <=? 6) then
    match skipn (length hashes) line with
    | sp :: rest => if isChar " " sp then Some (hashes, dotStar rest) else None
    | [] => None
    end
  else None.

(** A fixed string as an expression. *)
Definition litAt (p : str) : matcher := fun s =>
  if startsWith p s then Some (length p) else None.

(** "/- \[[ xX]\]/" *)
Definition checkboxAt : matcher := fun s =>
  match s with
  | d :: sp :: lb :: box :: rb :: _ =>
      if isChar "-" d && isChar " " sp && isChar "[" lb
         && (isChar " " box || isChar "x" box || isChar "X" box)
         && isChar "]" rb
      then Some 5 else None
  | _ => None
  end.

(** "/```|`/": the first alternative is tried first. *)
Definition backtickAt : matcher := fun s =>
  match litAt (lit "```") s with
  | Some n => Some n
  | None => litAt (lit "`") s
  end.

End Re.

Import Re.

(** ** Nodes

    The source builds nodes as objects with a [type] discriminant and one
    payload object named after the kind ([textNode], [tagNode],
    [paragraphNode], ...).  The constant [symbol: '-'] of the list items is
    left out. *)

#[local] Set Warnings "-register-all".

Inductive node :=
| TEXT (content : str)
| TAG (content : str)
| AUTO_LINK (url : str)
| CODE (content : str)
| LINE_BREAK
| PARAGRAPH (children : list node)
| HEADING (level : nat) (children : list node)
| CODE_BLOCK (language content : str)
| UNORDERED_LIST_ITEM (indent : nat) (children : list node)
| ORDERED_LIST_ITEM (number : str) (indent : nat) (children : list node)
| TASK_LIST_ITEM (indent : nat) (complete : bool) (children : list node).

(** ** The inline tokenizer: [parseLineContent] *)

Module Tokenizer.

Inductive mtype := tag | link.

(** An entry of the [matches] array. *)
Record lmatch := { type : mtype; start : nat; end_ : nat; content : str }.

(** The first loop: [content] is the group [match[1]], the text after [#]. *)
Definition tagMatches (line : str) : list lmatch :=
  map (fun m => {| type := tag; start := m_index m;
                   end_ := m_index m + length (m_text m);
                   content := tl (m_text m) |})
      (execAll tagRegex line).

(** The second loop: [content] is [match[0]]. *)
Definition linkMatches (line : str) : list lmatch :=
  map (fun m => {| type := link; start := m_index m;
                   end_ := m_index m + length (m_text m);
                   content := m_text m |})
      (execAll linkRegex line).

(** [matches.sort((a, b) => a.start - b.start)], a stable sort. *)
Fixpoint insertByStart (x : lmatch) (l : list lmatch) : list lmatch :=
  match l with
  | [] => [x]
  | y :: l' => if start x <? start y then x :: l else y :: insertByStart x l'
  end.

Definition sortByStart (l : list lmatch) : list lmatch :=
  fold_left (fun acc x => insertByStart x acc) l [].

Definition sortedMatches (line : str) : list lmatch :=
  sortByStart (tagMatches line ++ linkMatches line).

(** The body of [for (const match of matches)], on [children] and
    [lastIndex]. *)
Definition addMatch (line : str) (st : list node * nat) (m : lmatch)
  : list node * nat :=
  let (children, lastIndex) := st in
  let children :=
    if lastIndex <? start m then
      let textContent := substring lastIndex (start m) line in
      if isEmpty textContent then children else children ++ [TEXT textContent]
    else children in
  let children :=
    match type m with
    | tag => children ++ [TAG (content m)]
    | link => children ++ [AUTO_LINK (content m)]
    end in
  (children, end_ m).

Definition parseLineContent (line : str) : list node :=
  let (children, lastIndex) :=
    fold_left (addMatch line) (sortedMatches line) ([], 0) in
  let children :=
    if lastIndex <? length line then
      let textContent := substringFrom lastIndex line in
      if isEmpty textContent then children else children ++ [TEXT textContent]
    else children in
  match children with
  | [] => [TEXT line]
  | _ => children
  end.

End Tokenizer.

Import Tokenizer.

(** ** The block scanners *)

Definition fence : str := lit "```".

(** [line.trim().startsWith('```')] *)
Definition isFence (line : str) : bool := startsWith fence (trim line).

(** [line.trim() === ''] *)
Definition isBlank (line : str) : bool := isEmpty (trim line).

Module ApiClient.

(** [languageMatch[1]]: the expression is three backticks at the start and
    a group of word characters, any number of them, on the trimmed opening
    line; it always matches there. *)
Definition fenceLanguage (line : str) : str :=
  takeWhile isWord (skipn 3 (trim line)).

(** The loop over [paragraphLines]: each line tokenized, a [LINE_BREAK]
    after every line but the last. *)
Fixpoint paragraphChildren (paragraphLines : list str) : list node :=
  match paragraphLines with
  | [] => []
  | [line] => parseLineContent line
  | line :: more => parseLineContent line ++ LINE_BREAK :: paragraphChildren more
  end.

Definition paragraphNodes (paragraphLines : list str) : list node :=
  match paragraphLines with
  | [] => []
  | _ => match paragraphChildren paragraphLines with
         | [] => []
         | children => [PARAGRAPH children]
         end
  end.

(** [lines[i].trim() !== '' && !lines[i].trim().startsWith('```')]: a line
    the paragraph loop takes. *)
Definition isParagraphLine (l : str) : bool :=
  negb (isBlank l) && negb (isFence l).

(** [codeContent] after one more line of a code block. *)
Definition addCodeLine (codeContent line : str) : str :=
  (if isEmpty codeContent then codeContent else codeContent ++ [10%N]) ++ line.

(** The loops advance one cursor [i] over [lines]; each is written on the
    lines from the cursor on.  [outer] stands for the outer [while] loop
    resumed at the cursor the inner loop leaves. *)
Section InnerLoops.

Variable outer : list str -> list node.

(** [while (i < lines.length && !lines[i].trim().startsWith('```'))], then
    the closing fence is skipped when there is one and the node pushed. *)
Fixpoint codeBlockLoop (language codeContent : str) (ls : list str)
  : list node :=
  match ls with
  | l :: ls' =>
      if negb (isFence l)
      then codeBlockLoop language (addCodeLine codeContent l) ls'
      else CODE_BLOCK language codeContent :: outer ls'
  | [] => [CODE_BLOCK language codeContent]
  end.

(** [while (i < lines.length && ...)] over the paragraph lines: the line
    that stops the loop is left to the outer loop. *)
Fixpoint paragraphLoop (paragraphLines ls : list str) : list node :=
  match ls with
  | l :: ls' =>
      if isParagraphLine l
      then paragraphLoop (paragraphLines ++ [l]) ls'
      else paragraphNodes paragraphLines ++ outer ls
  | [] => paragraphNodes paragraphLines
  end.

End InnerLoops.

(** The [while (i < lines.length)] loop.  In the last branch the current
    line is neither blank nor a fence, so it is the first line the
    paragraph loop takes. *)
Fixpoint convertLines (lines : list str) : list node :=
  match lines with
  | [] => []
  | line :: rest =>
      if isFence line then
        codeBlockLoop convertLines (fenceLanguage line) [] rest
      else if isBlank line then convertLines rest
      else paragraphLoop convertLines [line] rest
  end.

Definition convertContentToNodes (content : str) : list node :=
  if isEmpty content || isBlank content then []
  else convertLines (split_nl content).

End ApiClient.

Import ApiClient.

Module MarkdownService.

(** [toLowerCase] on the second group of the task expression, which holds
    a space, [x] or [X]: only Latin capitals are mapped here. *)
Definition toLowerCase (c : char) : char :=
  if inRange 65 90 c then (c + 32)%N else c.

(** One part of [line.split] in the inline-code branch. *)
Definition codePart (part : str) : list node :=
  if startsWith (lit "`") part && endsWith (lit "`") part
  then [CODE (slice1m1 part)]
  else if negb (isEmpty (trim part)) then [TEXT part]
  else [].

(** The chain of tests that follows the code-block test in the loop body:
    the nodes pushed for one line. *)
Definition lineNodes (line : str) : list node :=
  match taskMatch line with
  | Some (ws, box, content) =>
      [TASK_LIST_ITEM (length ws / 2) (isChar "x" (toLowerCase box))
                      [TEXT content]]
  | None =>
  match bulletMatch line with
  | Some (ws, content) => [UNORDERED_LIST_ITEM (length ws / 2) [TEXT content]]
  | None =>
  match orderedMatch line with
  | Some (ws, digits, content) =>
      [ORDERED_LIST_ITEM digits (length ws / 2) [TEXT content]]
  | None =>
  match headingMatch line with
  | Some (hashes, content) => [HEADING (length hashes) [TEXT content]]
  | None =>
  if test codeAt line then
    match flat_map codePart (splitCapture codeAt line) with
    | [] => []
    | textChildren => [PARAGRAPH textChildren]
    end
  else if negb (isEmpty (trim line)) then [PARAGRAPH [TEXT line]]
  else [LINE_BREAK]
  end end end end.

(** The inner [while] loop of a code block, on the lines from the cursor
    on; [outer] is the [for] loop resumed after [continue] and its [i++],
    which pass the closing fence. *)
Fixpoint codeLinesLoop (outer : list str -> list node)
    (language : str) (codeLines ls : list str) : list node :=
  match ls with
  | l :: ls' =>
      if negb (isFence l)
      then codeLinesLoop outer language (codeLines ++ [l]) ls'
      else CODE_BLOCK language (join_nl codeLines) :: outer ls'
  | [] => [CODE_BLOCK language (join_nl codeLines)]
  end.

(** The [for] loop, on the lines from the cursor [i] on. *)
Fixpoint parseLines (lines : list str) : list node :=
  match lines with
  | [] => []
  | line :: rest =>
      if isFence line then
        codeLinesLoop parseLines (substringFrom 3 (trim line)) [] rest
      else lineNodes line ++ parseLines rest
  end.

Definition parseMarkdownToNodes (markdown : str) : list node :=
  parseLines (split_nl markdown).

(** [extractTextFromChildren]: what one child pushes on [textParts].  The
    default branch looks for [child.children] and [child.textNode]; the
    nodes of the other kinds carry neither. *)
Definition childText (child : node) : list str :=
  match child with
  | TEXT content => [content]
  | CODE content => [lit "`" ++ content ++ lit "`"]
  | _ => []
  end.

Definition extractTextFromChildren (children : list node) : str :=
  concat (flat_map childText children).

(** [restoreNodesToMarkdown]: what one node pushes on [lines].  The default
    branch pushes [node.textNode.content], which only a [TEXT] node has. *)
Definition nodeLines (n : node) : list str :=
  match n with
  | TASK_LIST_ITEM indent complete children =>
      [repeatStr (lit "  ") indent ++ lit "- "
         ++ (if complete then lit "[x]" else lit "[ ]") ++ lit " "
         ++ extractTextFromChildren children]
  | UNORDERED_LIST_ITEM indent children =>
      [repeatStr (lit "  ") indent ++ lit "- "
         ++ extractTextFromChildren children]
  | ORDERED_LIST_ITEM number indent children =>
      [repeatStr (lit "  ") indent ++ number ++ lit ". "
         ++ extractTextFromChildren children]
  | CODE_BLOCK language content => [fence ++ language; content; fence]
  | HEADING level children =>
      [repeatStr (lit "#") (if level =? 0 then 1 else level) ++ lit " "
         ++ extractTextFromChildren children]
  | PARAGRAPH children => [extractTextFromChildren children]
  | TEXT content => [content]
  | LINE_BREAK => [[]]
  | TAG _ | AUTO_LINK _ | CODE _ => []
  end.

Definition restoreNodesToMarkdown (nodes : list node) : str :=
  join_nl (flat_map nodeLines nodes).

End MarkdownService.

Import MarkdownService.

(** ** The property classifier: [calculateMemoProperties] *)

Record properties := {
  hasLink : bool;
  hasTaskList : bool;
  hasCode : bool;
  hasIncompleteTasks : bool
}.

Definition calculateMemoProperties (content : str) : properties :=
  {| hasLink := test linkRegex content;
     hasTaskList := test checkboxAt content;
     hasCode := test backtickAt content;
     hasIncompleteTasks := test (litAt (lit "- [ ]")) content |}.

(** ** The scanners as loops over a cursor

    The same two scanners with the array [lines] and the index [i] of the
    source, reading [lines[i]] as the engine does: past the end the read
    gives [undefined], and calling [trim] on it throws.  A call that
    spreads an array into its arguments, [children.push(...parsedChildren)],
    throws a RangeError when the array holds more elements than the engine
    takes as arguments of one call; that number, which the engine and its
    stack decide, is the parameter [argLimit].  Fuel bounds the number of
    tests of a loop condition. *)

Module Cursor.

Inductive outcome (A : Type) :=
| Returned (a : A)
| Thrown
| OutOfFuel.

Arguments Returned {A} a.
Arguments Thrown {A}.
Arguments OutOfFuel {A}.

Definition bind {A B} (c : outcome A) (k : A -> outcome B) : outcome B :=
  match c with
  | Returned a => k a
  | Thrown => Thrown
  | OutOfFuel => OutOfFuel
  end.

Notation "x <- c ;; k" := (bind c (fun x => k))
  (at level 61, c at next level, right associativity).
Notation "' pat <- c ;; k" := (bind c (fun x => match x with pat => k end))
  (at level 61, pat pattern, c at next level, right associativity).

(** [lines[i]], about to be dereferenced. *)
Definition readLine (lines : list str) (i : nat) : outcome str :=
  match nth_error lines i with
  | Some line => Returned line
  | None => Thrown
  end.

(** The code-block loop of [convertContentToNodes]: the cursor and
    [codeContent] it leaves. *)
Fixpoint codeBlockWhile (fuel : nat) (lines : list str) (i : nat)
    (codeContent : str) : outcome (nat * str) :=
  match fuel with
  | O => OutOfFuel
  | S fuel =>
      if i <? length lines then
        l <- readLine lines i ;;
        if negb (isFence l)
        then codeBlockWhile fuel lines (S i) (addCodeLine codeContent l)
        else Returned (i, codeContent)
      else Returned (i, codeContent)
  end.

(** The paragraph loop of [convertContentToNodes]. *)
Fixpoint paragraphWhile (fuel : nat) (lines : list str) (i : nat)
    (paragraphLines : list str) : outcome (nat * list str) :=
  match fuel with
  | O => OutOfFuel
  | S fuel =>
      if i <? length lines then
        l <- readLine lines i ;;
        if isParagraphLine l
        then paragraphWhile fuel lines (S i) (paragraphLines ++ [l])
        else Returned (i, paragraphLines)
      else Returned (i, paragraphLines)
  end.

Section Engine.

Variable argLimit : nat.

(** [children.push(...parsedChildren)] *)
Definition pushSpread (children parsedChildren : list node)
  : outcome (list node) :=
  if length parsedChildren <=? argLimit
  then Returned (children ++ parsedChildren)
  else Thrown.

(** The loop over [paragraphLines], from the line [j] on. *)
Fixpoint paragraphFor (paragraphLines : list str) (children : list node)
  : outcome (list node) :=
  match paragraphLines with
  | [] => Returned children
  | line :: more =>
      children <- pushSpread children (parseLineContent line) ;;
      paragraphFor more
        (match more with
         | [] => children
         | _ => children ++ [LINE_BREAK]
         end)
  end.

(** What follows the paragraph loop: the children are built and the
    paragraph is pushed. *)
Definition pushParagraph (nodes : list node) (paragraphLines : list str)
  : outcome (list node) :=
  match paragraphLines with
  | [] => Returned nodes
  | _ =>
      children <- paragraphFor paragraphLines [] ;;
      Returned (match children with
                | [] => nodes
                | _ => nodes ++ [PARAGRAPH children]
                end)
  end.

Fixpoint convertWhile (fuel : nat) (lines : list str) (i : nat)
    (nodes : list node) : outcome (list node) :=
  match fuel with
  | O => OutOfFuel
  | S fuel =>
      if i <? length lines then
        line <- readLine lines i ;;
        if isFence line then
          '(i, codeContent) <- codeBlockWhile fuel lines (S i) [] ;;
          let i := if i <? length lines then S i else i in
          convertWhile fuel lines i
            (nodes ++ [CODE_BLOCK (fenceLanguage line) codeContent])
        else if isBlank line then convertWhile fuel lines (S i) nodes
        else
          '(i, paragraphLines) <- paragraphWhile fuel lines i [] ;;
          nodes <- pushParagraph nodes paragraphLines ;;
          convertWhile fuel lines i nodes
      else Returned nodes
  end.

Definition convertContentToNodes (fuel : nat) (content : str)
  : outcome (list node) :=
  if isEmpty content || isBlank content then Returned []
  else convertWhile fuel (split_nl content) 0 [].

End Engine.

(** The code-block loop of [parseMarkdownToNodes]. *)
Fixpoint codeLinesWhile (fuel : nat) (lines : list str) (i : nat)
    (codeLines : list str) : outcome (nat * list str) :=
  match fuel with
  | O => OutOfFuel
  | S fuel =>
      if i <? length lines then
        l <- readLine lines i ;;
        if negb (isFence l)
        then codeLinesWhile fuel lines (S i) (codeLines ++ [l])
        else Returned (i, codeLines)
      else Returned (i, codeLines)
  end.

(** The [for] loop of [parseMarkdownToNodes]; every path through its body
    ends in the [i++] of the loop. *)
Fixpoint parseFor (fuel : nat) (lines : list str) (i : nat)
    (nodes : list node) : outcome (list node) :=
  match fuel with
  | O => OutOfFuel
  | S fuel =>
      if i <? length lines then
        line <- readLine lines i ;;
        if isFence line then
          '(i, codeLines) <- codeLinesWhile fuel lines (S i) [] ;;
          parseFor fuel lines (S i)
            (nodes ++ [CODE_BLOCK (substringFrom 3 (trim line))
                                  (join_nl codeLines)])
        else parseFor fuel lines (S i) (nodes ++ lineNodes line)
      else Returned nodes
  end.

Definition parseMarkdownToNodes (fuel : nat) (markdown : str)
  : outcome (list node) :=
  parseFor fuel (split_nl markdown) 0 [].

End Cursor.

(** ** Tags *)

(** The names the tag expression matches in a text, from left to right:
    the group [match[1]] of every match. *)
Definition matchedTagNames (text : str) : list str :=
  map (fun m => tl (m_text m)) (execAll tagRegex text).

(** The tag names carried by the TAG nodes of a tree. *)
Fixpoint tagNames (n : node) : list str :=
  match n with
  | TAG name => [name]
  | PARAGRAPH children | HEADING _ children
  | UNORDERED_LIST_ITEM _ children | ORDERED_LIST_ITEM _ _ children
  | TASK_LIST_ITEM _ _ children => flat_map tagNames children
  | _ => []
  end.

Definition documentTags (doc : list node) : list str := flat_map tagNames doc.

(** ** Vocabulary of the properties *)

(** The source extent of an inline span, as text: what the span stands
    for in the line. *)
Definition sourceText (n : node) : str :=
  match n with
  | TEXT content => content
  | TAG name => chr "#" :: name
  | AUTO_LINK url => url
  | _ => []
  end.

(** The tag name a match contributes. *)
Definition tagOf (m : lmatch) : list str :=
  match type m with
  | tag => [content m]
  | link => []
  end.

(** Two matches share a character of the line. *)
Definition overlap (a b : lmatch) : bool :=
  (start a <? end_ b) && (start b <? end_ a).

(** No match starts before [lastIndex], nor before the end of the match
    in front of it: the matches, in this order, do not overlap. *)
Fixpoint inOrder (lastIndex : nat) (ms : list lmatch) : bool :=
  match ms with
  | [] => true
  | m :: ms' => (lastIndex <=? start m) && inOrder (end_ m) ms'
  end.

(** The text of the line a match stands for. *)
Definition matchText (m : lmatch) : str :=
  match type m with
  | tag => chr "#" :: content m
  | link => content m
  end.

(** What the tokenizer needs of a match: it lies in the line, and the line
    holds its text there. *)
Definition wellPlaced (line : str) (m : lmatch) : Prop :=
  start m <= end_ m
  /\ end_ m <= length line
  /\ substring (start m) (end_ m) line = matchText m.

(** A line that reaches the last-but-one branch of [parseMarkdownToNodes]:
    a plain paragraph line. *)
Definition isPlainLine (line : str) : bool :=
  negb (isFence line)
  && match taskMatch line with None => true | _ => false end
  && match bulletMatch line with None => true | _ => false end
  && match orderedMatch line with None => true | _ => false end
  && match headingMatch line with None => true | _ => false end
  && negb (test codeAt line)
  && negb (isBlank line).

(** A line in which the tokenizer finds neither hashtag nor autolink. *)
Definition noInlineMatch (line : str) : bool :=
  match execAll tagRegex line, execAll linkRegex line with
  | [], [] => true
  | _, _ => false
  end.

Definition isMarkup (n : node) : bool :=
  match n with
  | TAG _ | AUTO_LINK _ => true
  | _ => false
  end.

Definition dropMarkup (nodes : list node) : list node :=
  filter (fun n => negb (isMarkup n)) nodes.

(** A tree without its TAG and AUTO_LINK nodes, at every depth. *)
Fixpoint pruneNode (n : node) : node :=
  match n with
  | PARAGRAPH children => PARAGRAPH (dropMarkup (map pruneNode children))
  | HEADING level children =>
      HEADING level (dropMarkup (map pruneNode children))
  | UNORDERED_LIST_ITEM indent children =>
      UNORDERED_LIST_ITEM indent (dropMarkup (map pruneNode children))
  | ORDERED_LIST_ITEM number indent children =>
      ORDERED_LIST_ITEM number indent (dropMarkup (map pruneNode children))
  | TASK_LIST_ITEM indent complete children =>
      TASK_LIST_ITEM indent complete (dropMarkup (map pruneNode children))
  | _ => n
  end.

Definition pruneDocument (doc : list node) : list node :=
  dropMarkup (map pruneNode doc).

Definition isCodeBlockOrParagraph (n : node) : bool :=
  match n with
  | CODE_BLOCK _ _ | PARAGRAPH _ => true
  | _ => false
  end.

Definition newline : string := String (ascii_of_nat 10) EmptyString.

(** ** The derived fields of a memo

    [getMemos], [getMemo], [createMemo], [updateMemo] and
    [createMemoComment] of the API client turn the memo of a response into
    the object the views expect.  Four of its fields are computed from the
    text of the memo, the others are copied from the response. *)

Module MemoView.

Record t := {
  content : list N;
  nodes : list node;
  snippet : list N;
  property : properties
}.

(** [memo.content] of a response is a string or missing.  [content] is
    [memo.content || ''], [snippet] is
    [memo.content ? memo.content.slice(0, 100) : '']. *)
Definition format (memoContent : option str) : t :=
  let text := match memoContent with Some c => c | None => [] end in
  {| content := text;
     nodes := convertContentToNodes text;
     snippet := match memoContent with
                | Some c => if isEmpty c then [] else firstn 100 c
                | None => []
                end;
     property := calculateMemoProperties text |}.

End MemoView.

(** ** The content filters of the backend

    The list handler of [routes/memo.ts] and the statistics handler of
    [routes/user.ts] select memos by property with SQL conditions on
    [m.content], each a LIKE with a constant pattern.  LIKE is modelled as
    SQLite defines it for the patterns of the source, which hold the wild
    card [%] and literal characters only: [%] stands for any run of
    characters, the empty one included, and a literal character for
    itself, upper and lower case of the ASCII letters being the same.
    SQLite compares the text as a string that ends at its first U+0000:
    what follows that character in the content is not seen. *)

Module Backend.

Definition foldCase (c : char) : char :=
  if inRange 97 122 c then (c - 32)%N else c.

(** The pattern against a string without U+0000. *)
Fixpoint matchPattern (pattern : str) : str -> bool :=
  match pattern with
  | [] => isEmpty
  | p :: pattern' =>
      if isChar "%" p then
        fix run (s : str) : bool :=
          matchPattern pattern' s
          || match s with
             | [] => false
             | _ :: s' => run s'
             end
      else
        fun s =>
          match s with
          | [] => false
          | c :: s' =>
              (foldCase c =? foldCase p)%N && matchPattern pattern' s'
          end
  end.

(** The content as LIKE sees it: up to the first U+0000. *)
Definition upToNul (content : str) : str :=
  takeWhile (fun c => negb (c =? 0)%N) content.

(** [content LIKE pattern] *)
Definition like (pattern content : str) : bool :=
  matchPattern pattern (upToNul content).

(** [has_task_list == true], and [todoCount] *)
Definition hasTaskListFilter (content : str) : bool :=
  like (lit "%- [%]%") content.

(** [has_link == true], and [linkCount] *)
Definition hasLinkFilter (content : str) : bool :=
  like (lit "%http%") content.

(** [has_code == true], and [codeCount] *)
Definition hasCodeFilter (content : str) : bool :=
  like (lit "%```%") content || like (lit "%`%") content.

(** [undoCount] *)
Definition undoFilter (content : str) : bool :=
  like (lit "%- [ ]%") content.

End Backend.

Import Backend.

(** ** Vocabulary of the further properties *)

Definition noSpace (s : str) : bool := forallb (fun c => negb (isSpace c)) s.

Definition noNewline (s : str) : bool := forallb (fun c => negb (c =? 10)%N) s.

Definition noLineTerminator (s : str) : bool :=
  forallb (fun c => negb (isLineTerminator c)) s.

(** An inline node as the tokenizer builds it on a line that is not empty:
    text that is not empty, a tag name of the tag alphabet that is not
    empty, a URL that starts with a scheme and holds no white space. *)
Definition wellFormedInline (n : node) : bool :=
  match n with
  | TEXT content => negb (isEmpty content)
  | TAG name => negb (isEmpty name) && forallb isTagChar name
  | AUTO_LINK url =>
      (startsWith (lit "http://") url || startsWith (lit "https://") url)
      && noSpace url
  | _ => false
  end.

(** A block as [convertContentToNodes] builds it. *)
Definition wellFormedBlock (n : node) : bool :=
  match n with
  | CODE_BLOCK language _ => forallb isWord language
  | PARAGRAPH children =>
      negb (match children with [] => true | _ => false end)
      && forallb (fun c => match c with
                           | LINE_BREAK => true
                           | _ => wellFormedInline c
                           end) children
  | _ => false
  end.

(** The node the tokenizer pushes for a match. *)
Definition matchNode (m : lmatch) : node :=
  match type m with
  | tag => TAG (Tokenizer.content m)
  | link => AUTO_LINK (Tokenizer.content m)
  end.

(** The URLs carried by the AUTO_LINK nodes of a tree. *)
Fixpoint linkUrls (n : node) : list str :=
  match n with
  | AUTO_LINK url => [url]
  | PARAGRAPH children | HEADING _ children
  | UNORDERED_LIST_ITEM _ children | ORDERED_LIST_ITEM _ _ children
  | TASK_LIST_ITEM _ _ children => flat_map linkUrls children
  | _ => []
  end.

Definition documentLinks (doc : list node) : list str := flat_map linkUrls doc.

Definition isCodeBlock (n : node) : bool :=
  match n with CODE_BLOCK _ _ => true | _ => false end.

Definition isTaskItem (n : node) : bool :=
  match n with TASK_LIST_ITEM _ _ _ => true | _ => false end.

Definition isOpenTaskItem (n : node) : bool :=
  match n with TASK_LIST_ITEM _ false _ => true | _ => false end.

(** A line that takes the inline-code branch of [parseMarkdownToNodes]. *)
Definition isInlineCodeLine (line : str) : bool :=
  negb (isFence line)
  && match taskMatch line with None => true | _ => false end
  && match bulletMatch line with None => true | _ => false end
  && match orderedMatch line with None => true | _ => false end
  && match headingMatch line with None => true | _ => false end
  && test codeAt line.

(** A text that starts like the box of a task item: "[", one of space,
    [x] and [X], "]" and a space. *)
Definition startsWithBox (s : str) : bool :=
  match s with
  | lb :: box :: rb :: sp :: _ =>
      isChar "[" lb
      && (isChar " " box || isChar "x" box || isChar "X" box)
      && isChar "]" rb && isChar " " sp
  | _ => false
  end.

(** A string that does not end in white space. *)
Definition endsClean (s : str) : bool :=
  match rev s with
  | [] => true
  | c :: _ => negb (isSpace c)
  end.

(** No hashtag match shares a character with an autolink match. *)
Definition tagsClearOfLinks (line : str) : bool :=
  forallb (fun t => forallb (fun l => negb (overlap t l)) (linkMatches line))
          (tagMatches line).

(** The source extent of a child of a paragraph: a LINE_BREAK stands for
    the newline between two lines. *)
Definition childSource (n : node) : str :=
  match n with
  | LINE_BREAK => [10%N]
  | _ => sourceText n
  end.

(** The text a paragraph stands for. *)
Definition paragraphSource (n : node) : list str :=
  match n with
  | PARAGRAPH children => [concat (map childSource children)]
  | _ => []
  end.

(** *** The texts on which the two scanners agree *)

(** An opening fence line of which both scanners read the same language:
    what follows the three backticks is made of word characters. *)
Definition sameLanguage (line : str) : bool :=
  forallb isWord (skipn 3 (trim line)).

(** The lines of a code block of which both scanners build the same
    content: two lines or more do not start with an empty line. *)
Definition sameCodeContent (codeLines : list str) : bool :=
  match codeLines with
  | l :: _ :: _ => negb (isEmpty l)
  | _ => true
  end.

(** The lines of a code block, up to the fence that closes it; [outer]
    goes on behind that fence. *)
Fixpoint agreeCodeLoop (outer : list str -> bool) (codeLines ls : list str)
  : bool :=
  match ls with
  | l :: ls' =>
      if negb (isFence l)
      then agreeCodeLoop outer (codeLines ++ [l]) ls'
      else sameCodeContent codeLines && outer ls'
  | [] => sameCodeContent codeLines
  end.

(** The lines of a text made of code blocks and of single plain lines:
    outside a code block a line is a fence line, with a language both
    scanners read alike, or a plain paragraph line without hashtag or
    autolink match which a fence line or the end of the text follows. *)
Fixpoint scannersAgree (lines : list str) : bool :=
  match lines with
  | [] => true
  | line :: rest =>
      if isFence line then
        sameLanguage line && agreeCodeLoop scannersAgree [] rest
      else
        isPlainLine line && noInlineMatch line
        && match rest with
           | [] => true
           | next :: _ => isFence next
           end
        && scannersAgree rest
  end.

(** No line is tokenized into more nodes than [argLimit]. *)
Definition tokensWithin (argLimit : nat) (lines : list str) : bool :=
  forallb (fun l => length (parseLineContent l) <=? argLimit) lines.

(** A content without U+0000. *)
Definition noNul (s : str) : bool := forallb (fun c => negb (c =? 0)%N) s.

(** A piece that is one backtick and nothing else. *)
Definition isLoneBacktick (part : str) : bool :=
  match part with
  | [c] => isChar "`" c
  | _ => false
  end.

(** The pieces into which the inline-code branch splits a line hold no
    blank piece, the empty ones apart, and no lone backtick. *)
Definition cleanPieces (line : str) : bool :=
  forallb (fun part => (isEmpty part || negb (isBlank part))
                       && negb (isLoneBacktick part))
          (splitCapture codeAt line).

(** The nodes that [restoreNodesToMarkdown] writes as lines which
    [parseMarkdownToNodes] reads back as the same node. *)
Definition canonical (n : node) : bool :=
  match n with
  | TASK_LIST_ITEM _ _ [TEXT content] => noLineTerminator content
  | UNORDERED_LIST_ITEM _ [TEXT content] =>
      noLineTerminator content && negb (startsWithBox content)
  | ORDERED_LIST_ITEM number _ [TEXT content] =>
      negb (isEmpty number) && forallb isDigit number
      && noLineTerminator content
  | HEADING level [TEXT content] =>
      (1 <=? level) && (level <=? 6) && noLineTerminator content
  | CODE_BLOCK language content =>
      noNewline language && endsClean language
      && forallb (fun l => negb (isFence l)) (split_nl content)
  | PARAGRAPH [TEXT content] => noNewline content && isPlainLine content
  | LINE_BREAK => true
  | _ => false
  end.

(** * Properties *)

(** ** Strings *)

Section StringFacts.

Context {A : Type} (p : A -> bool).

Lemma takeWhile_dropWhile (s : list A) : takeWhile p s ++ dropWhile p s = s.
Proof.
  induction s as [|c s IH]; simpl; [reflexivity|].
  destruct (p c); simpl; [now rewrite IH | reflexivity].
Qed.

Lemma takeWhile_all (s : list A) : forallb p s = true -> takeWhile p s = s.
Proof.
  induction s as [|c s IH]; simpl; [reflexivity|].
  destruct (p c); simpl; [intros H; now rewrite IH | discriminate].
Qed.

Lemma takeWhile_app (a b : list A) :
  forallb p a = true -> takeWhile p (a ++ b) = a ++ takeWhile p b.
Proof.
  induction a as [|c a IH]; simpl; [reflexivity|].
  destruct (p c); simpl; [intros H; now rewrite IH | discriminate].
Qed.

Lemma takeWhile_stop (a : list A) (c : A) (b : list A) :
  forallb p a = true -> p c = false -> takeWhile p (a ++ c :: b) = a.
Proof.
  intros Ha Hc. rewrite takeWhile_app by assumption.
  simpl. rewrite Hc. apply app_nil_r.
Qed.

Lemma takeWhile_forallb (s : list A) : forallb p (takeWhile p s) = true.
Proof.
  induction s as [|c s IH]; simpl; [reflexivity|].
  destruct (p c) eqn:E; simpl; [now rewrite E | reflexivity].
Qed.

Lemma dropWhile_all (s : list A) : forallb p s = true -> dropWhile p s = [].
Proof.
  induction s as [|c s IH]; simpl; [reflexivity|].
  destruct (p c); simpl; [exact IH | discriminate].
Qed.

Lemma dropWhile_nil_all (s : list A) : dropWhile p s = [] -> forallb p s = true.
Proof.
  induction s as [|c s IH]; simpl; [reflexivity|].
  destruct (p c); simpl; [exact IH | discriminate].
Qed.

Lemma dropWhile_stop (a : list A) (c : A) (b : list A) :
  forallb p a = true -> p c = false -> dropWhile p (a ++ c :: b) = c :: b.
Proof.
  induction a as [|d a IH]; simpl; intros Ha Hc.
  - now rewrite Hc.
  - destruct (p d); [now apply IH | discriminate].
Qed.

End StringFacts.

Lemma startsWith_inv (p s : str) :
  startsWith p s = true -> s = p ++ skipn (length p) s.
Proof.
  revert s; induction p as [|a p IH]; intros [|c s]; simpl;
    try reflexivity; try discriminate.
  intros H. apply andb_prop in H as [Hc Hs].
  apply N.eqb_eq in Hc. subst c. f_equal. now apply IH.
Qed.

(** A string is blank exactly when all its characters are white space. *)
Lemma trim_nil_iff (s : str) : trim s = [] <-> forallb isSpace s = true.
Proof.
  unfold trim, trimEnd, trimStart. split.
  - intros H.
    assert (E : dropWhile isSpace (rev (dropWhile isSpace s)) = []).
    { rewrite <- (rev_involutive (dropWhile _ (rev _))), H. reflexivity. }
    apply dropWhile_nil_all in E.
    rewrite <- (takeWhile_dropWhile isSpace s), forallb_app.
    rewrite takeWhile_forallb. simpl.
    rewrite <- (rev_involutive (dropWhile isSpace s)), forallb_forall.
    rewrite forallb_forall in E.
    intros x Hx. apply E. now apply In_rev.
  - intros H. now rewrite (dropWhile_all _ _ H).
Qed.

Lemma isBlank_iff (s : str) : isBlank s = true <-> forallb isSpace s = true.
Proof.
  rewrite <- trim_nil_iff. unfold isBlank.
  destruct (trim s); simpl; split; congruence.
Qed.

Lemma dropWhile_keeps_last (l : str) (c : char) :
  isSpace c = false -> exists t, dropWhile isSpace (l ++ [c]) = t ++ [c].
Proof.
  intros Hc. induction l as [|x l IH]; simpl.
  - rewrite Hc. now exists [].
  - destruct (isSpace x); [exact IH | now exists (x :: l)].
Qed.

(** Trimming keeps the first character that is not white space in front. *)
Lemma trim_head (ws : str) (c : char) (r : str) :
  forallb isSpace ws = true -> isSpace c = false ->
  exists r', trim (ws ++ c :: r) = c :: r'.
Proof.
  intros Hws Hc. unfold trim, trimStart.
  rewrite (dropWhile_stop _ _ _ _ Hws Hc). unfold trimEnd. simpl.
  destruct (dropWhile_keeps_last (rev r) c Hc) as [t Ht].
  rewrite Ht, rev_app_distr. simpl. now eexists.
Qed.

(** ** Regular expressions *)

Lemma test_true_iff (m : matcher) (s : str) :
  test m s = true <-> exists pre suf, s = pre ++ suf /\ m suf <> None.
Proof.
  induction s as [|c s IH]; simpl.
  - destruct (m []) eqn:E; split; try discriminate; try reflexivity.
    + intros _. exists [], []. split; [reflexivity | congruence].
    + intros (pre & suf & Hs & Hm).
      symmetry in Hs. apply app_eq_nil in Hs as [_ ->]. congruence.
  - destruct (m (c :: s)) eqn:E.
    + split; [|reflexivity]. intros _.
      exists [], (c :: s). split; [reflexivity | congruence].
    + rewrite IH. split.
      * intros (pre & suf & -> & Hm). exists (c :: pre), suf. now split.
      * intros (pre & suf & Hs & Hm). destruct pre as [|d pre]; simpl in Hs.
        -- subst suf. congruence.
        -- injection Hs as -> ->. now exists pre, suf.
Qed.

(** A scan that still has [skip] characters of a match to pass resumes
    behind them. *)
Lemma execFrom_skip (m : matcher) (s : str) :
  forall skip pos,
    execFrom m skip pos s = execFrom m 0 (pos + skip) (skipn skip s).
Proof.
  induction s as [|c s IH]; intros skip pos.
  - now rewrite skipn_nil.
  - destruct skip as [|k]; simpl skipn.
    + now rewrite Nat.add_0_r.
    + cbn [execFrom]. rewrite IH. f_equal. lia.
Qed.

(** After a match the next search starts at its end; after a failure, at
    the next character. *)
Lemma execFrom_match (m : matcher) (s : str) (pos n : nat) :
  m s = Some (S n) -> s <> [] ->
  execFrom m 0 pos s
  = {| m_index := pos; m_text := firstn (S n) s |}
      :: execFrom m 0 (pos + S n) (skipn (S n) s).
Proof.
  intros H Hne. destruct s as [|c s]; [contradiction|].
  cbn [execFrom]. rewrite H. f_equal. cbn [pred skipn].
  rewrite execFrom_skip. f_equal. lia.
Qed.

Lemma execFrom_no_match (m : matcher) (c : char) (s : str) (pos : nat) :
  m (c :: s) = None -> execFrom m 0 pos (c :: s) = execFrom m 0 (S pos) s.
Proof. intros H. cbn [execFrom]. now rewrite H. Qed.

Lemma nonspace_run (s : str) :
  takeWhile (fun c => negb (isSpace c)) s <> [] <->
  exists c post, s = c :: post /\ isSpace c = false.
Proof.
  destruct s as [|c post]; simpl.
  - split; [congruence | intros (? & ? & ? & _); discriminate].
  - destruct (isSpace c) eqn:E; simpl; split.
    + congruence.
    + intros (? & ? & [= <- <-] & ?). congruence.
    + intros _. now exists c, post.
    + discriminate.
Qed.

(** The link expression matches at the head of [s] exactly when [s] is
    one of the two schemes followed by a character that is not white
    space. *)
Lemma linkRegex_some_iff (s : str) :
  linkRegex s <> None <->
  exists scheme c post,
    s = scheme ++ c :: post
    /\ (scheme = lit "http://" \/ scheme = lit "https://")
    /\ isSpace c = false.
Proof.
  unfold linkRegex. split.
  - destruct (startsWith (lit "https://") s) eqn:E1;
      [|destruct (startsWith (lit "http://") s) eqn:E2; [|congruence]].
    + apply startsWith_inv in E1.
      destruct (takeWhile _ _) eqn:R; [congruence|]. intros _.
      assert (N : takeWhile (fun c => negb (isSpace c))
                    (skipn (length (lit "https://")) s) <> [])
        by (rewrite R; discriminate).
      apply nonspace_run in N as (d & post & Hs & Hd).
      exists (lit "https://"), d, post. rewrite <- Hs. auto.
    + apply startsWith_inv in E2.
      destruct (takeWhile _ _) eqn:R; [congruence|]. intros _.
      assert (N : takeWhile (fun c => negb (isSpace c))
                    (skipn (length (lit "http://")) s) <> [])
        by (rewrite R; discriminate).
      apply nonspace_run in N as (d & post & Hs & Hd).
      exists (lit "http://"), d, post. rewrite <- Hs. auto.
  - intros (scheme & c & post & -> & [-> | ->] & Hc); simpl; rewrite Hc;
      simpl; discriminate.
Qed.

(** ** The classifier *)

(** C8: the classifier finds a link, no task list and no code in
    "check out https://example.com #work"; and [hasLink] holds exactly of
    the texts that contain "http://" or "https://" followed by at least
    one character that is not white space. *)
Theorem C8_classifier_has_link :
  calculateMemoProperties (lit "check out https://example.com #work")
    = {| hasLink := true; hasTaskList := false; hasCode := false;
         hasIncompleteTasks := false |}
  /\ forall text : str,
       hasLink (calculateMemoProperties text) = true <->
       exists pre scheme c post,
         text = pre ++ scheme ++ c :: post
         /\ (scheme = lit "http://" \/ scheme = lit "https://")
         /\ isSpace c = false.
Proof.
  split; [reflexivity|].
  intros text. simpl. rewrite test_true_iff. split.
  - intros (pre & suf & -> & Hm).
    apply linkRegex_some_iff in Hm as (scheme & c & post & -> & Hs & Hc).
    now exists pre, scheme, c, post.
  - intros (pre & scheme & c & post & -> & Hs & Hc).
    exists pre, (scheme ++ c :: post). split; [reflexivity|].
    apply linkRegex_some_iff. now exists scheme, c, post.
Qed.

(** ** The inline tokenizer *)

(** C9, as the code has it: on the empty line the tokenizer finds no match
    and falls back to one TEXT node holding the line, so it returns a
    single TEXT node with empty content; it returns the empty sequence for
    no line at all. *)
Theorem C9_empty_line_single_text :
  parseLineContent [] = [TEXT []]
  /\ forall line : str, parseLineContent line <> [].
Proof.
  split; [reflexivity|].
  intros line. unfold parseLineContent.
  destruct (fold_left _ _ _) as [children lastIndex].
  destruct (if lastIndex <? length line then _ else _); discriminate.
Qed.

(** C9 as stated fails: the tokenizer does not return the empty sequence
    on the empty line. *)
Lemma C9_counterexample : parseLineContent (lit "") <> [].
Proof. discriminate. Qed.

(** White space is none of the characters the line expressions look for. *)
Lemma isSpace_not (a : ascii) (c : char) :
  isSpace (chr a) = false -> isSpace c = true -> isChar a c = false.
Proof.
  intros Ha Hc. unfold isChar. destruct (N.eqb_spec c (chr a)); congruence.
Qed.

Lemma no_code_in_blank (s : str) :
  forallb isSpace s = true -> test codeAt s = false.
Proof.
  induction s as [|c s IH]; [reflexivity|]. simpl.
  intros H. apply andb_prop in H as [Hc Hs].
  rewrite (isSpace_not "`" c eq_refl Hc). now apply IH.
Qed.

(** A blank line takes the last branch of the line tests. *)
Lemma lineNodes_blank (line : str) :
  isBlank line = true -> lineNodes line = [LINE_BREAK].
Proof.
  intros B. pose proof B as Hall. apply isBlank_iff in Hall.
  unfold lineNodes, taskMatch, bulletMatch, orderedMatch, headingMatch.
  rewrite (takeWhile_all _ _ Hall), skipn_all. simpl.
  assert (H : takeWhile (isChar "#") line = []).
  { destruct line as [|c r]; [reflexivity|]. simpl in *.
    apply andb_prop in Hall as [Hc _].
    now rewrite (isSpace_not "#" c eq_refl Hc). }
  rewrite H. simpl. rewrite (no_code_in_blank _ Hall).
  unfold isBlank in B. destruct (trim line); [reflexivity | discriminate].
Qed.

Lemma isFence_blank (line : str) : isBlank line = true -> isFence line = false.
Proof.
  unfold isBlank, isFence. destruct (trim line); [reflexivity | discriminate].
Qed.

(** ** The line-by-line scanner *)

Lemma parseLines_fence (line : str) (rest : list str) :
  isFence line = true ->
  parseLines (line :: rest)
  = codeLinesLoop parseLines (substringFrom 3 (trim line)) [] rest.
Proof. intros H. simpl. now rewrite H. Qed.

Lemma parseLines_line (line : str) (rest : list str) :
  isFence line = false ->
  parseLines (line :: rest) = lineNodes line ++ parseLines rest.
Proof. intros H. simpl. now rewrite H. Qed.

Lemma toLowerCase_box (box : char) :
  box = chr " " \/ box = chr "x" \/ box = chr "X" ->
  isChar "x" (toLowerCase box) = isChar "x" box || isChar "X" box.
Proof. intros [-> | [-> | ->]]; reflexivity. Qed.

(** The task expression on a line of its language. *)
Lemma taskMatch_task_line (ws : str) (box : char) (rest : str) :
  forallb isSpace ws = true ->
  box = chr " " \/ box = chr "x" \/ box = chr "X" ->
  taskMatch (ws ++ lit "- [" ++ box :: lit "] " ++ rest)
  = Some (ws, box, dotStar rest).
Proof.
  intros Hws Hbox. unfold taskMatch.
  change (ws ++ lit "- [" ++ box :: lit "] " ++ rest)
    with (ws ++ chr "-" :: lit " [" ++ box :: lit "] " ++ rest).
  rewrite (takeWhile_stop isSpace ws (chr "-") _ Hws eq_refl).
  rewrite skipn_app, skipn_all, Nat.sub_diag. simpl.
  destruct Hbox as [-> | [-> | ->]]; reflexivity.
Qed.

(** C4, for [parseMarkdownToNodes]: "- [x] done" and "- [ ] todo" on two
    lines give two TASK_LIST_ITEM nodes, complete and not, with indent 0;
    and when the loop stands on a line of the form white space, "- [",
    one of space, [x] and [X], "] " and a rest, it pushes one
    TASK_LIST_ITEM whose [complete] says whether the box holds [x] or [X],
    whose indent is half the white space, rounded down, and whose text is
    the rest up to its first line terminator. *)
Theorem C4_task_list_items :
  parseMarkdownToNodes (lit ("- [x] done" ++ newline ++ "- [ ] todo"))
    = [TASK_LIST_ITEM 0 true [TEXT (lit "done")];
       TASK_LIST_ITEM 0 false [TEXT (lit "todo")]]
  /\ forall (ws : str) (box : char) (rest : str) (tail : list str),
       forallb isSpace ws = true ->
       box = chr " " \/ box = chr "x" \/ box = chr "X" ->
       parseLines ((ws ++ lit "- [" ++ box :: lit "] " ++ rest) :: tail)
       = TASK_LIST_ITEM (length ws / 2) (isChar "x" box || isChar "X" box)
                        [TEXT (dotStar rest)]
           :: parseLines tail.
Proof.
  split; [reflexivity|].
  intros ws box rest tail Hws Hbox.
  rewrite parseLines_line.
  - unfold lineNodes. rewrite (taskMatch_task_line ws box rest Hws Hbox).
    now rewrite (toLowerCase_box box Hbox).
  - destruct (trim_head ws (chr "-") (lit " [" ++ box :: lit "] " ++ rest)
                Hws eq_refl) as [r' Hr].
    unfold isFence.
    change (ws ++ lit "- [" ++ box :: lit "] " ++ rest)
      with (ws ++ chr "-" :: lit " [" ++ box :: lit "] " ++ rest).
    now rewrite Hr.
Qed.

(** A task line with two spaces of indent and an upper-case box, between
    other lines. *)
Lemma C4_task_list_items_witness :
  parseLines ((lit "  " ++ lit "- [" ++ chr "X" :: lit "] " ++ lit "ship it")
                :: [lit "next"])
  = TASK_LIST_ITEM 1 true [TEXT (lit "ship it")] :: parseLines [lit "next"].
Proof.
  exact (proj2 C4_task_list_items (lit "  ") (chr "X") (lit "ship it")
           [lit "next"] eq_refl (or_intror (or_intror eq_refl))).
Defined.

(** C4 as stated fails for [convertContentToNodes], which has no test for
    list items: the two lines become one paragraph. *)
Lemma C4_counterexample :
  convertContentToNodes (lit ("- [x] done" ++ newline ++ "- [ ] todo"))
    = [PARAGRAPH [TEXT (lit "- [x] done"); LINE_BREAK;
                  TEXT (lit "- [ ] todo")]]
  /\ ~ (exists c1 c2 : list node,
          convertContentToNodes (lit ("- [x] done" ++ newline ++ "- [ ] todo"))
          = [TASK_LIST_ITEM 0 true c1; TASK_LIST_ITEM 0 false c2]).
Proof.
  split; [reflexivity|]. intros (c1 & c2 & H). discriminate H.
Qed.

(** ** The scanner of the API client *)

Lemma convertLines_fence (line : str) (rest : list str) :
  isFence line = true ->
  convertLines (line :: rest)
  = codeBlockLoop convertLines (fenceLanguage line) [] rest.
Proof. intros H. simpl. now rewrite H. Qed.

Lemma convertLines_blank (line : str) (rest : list str) :
  isBlank line = true -> convertLines (line :: rest) = convertLines rest.
Proof. intros H. simpl. now rewrite (isFence_blank line H), H. Qed.

Lemma convertLines_paragraph (line : str) (rest : list str) :
  isParagraphLine line = true ->
  convertLines (line :: rest) = paragraphLoop convertLines [line] rest.
Proof.
  unfold isParagraphLine. intros H. apply andb_prop in H as [B F].
  apply negb_true_iff in B, F. simpl. now rewrite F, B.
Qed.

(** The code-block loop takes the lines up to the next fence, and the
    outer loop resumes after that fence. *)
Lemma codeBlockLoop_spec (outer : list str -> list node)
    (language codeContent : str) (ls : list str) :
  outer [] = [] ->
  codeBlockLoop outer language codeContent ls
  = CODE_BLOCK language
      (fold_left addCodeLine (takeWhile (fun l => negb (isFence l)) ls)
                 codeContent)
      :: outer (tl (dropWhile (fun l => negb (isFence l)) ls)).
Proof.
  intros Hnil. revert codeContent.
  induction ls as [|l ls IH]; intros codeContent; simpl.
  - now rewrite Hnil.
  - destruct (negb (isFence l)); simpl; [apply IH | reflexivity].
Qed.

(** The paragraph loop takes the lines up to the next blank or fence
    line, where the outer loop resumes. *)
Lemma paragraphLoop_spec (outer : list str -> list node)
    (paragraphLines ls : list str) :
  outer [] = [] ->
  paragraphLoop outer paragraphLines ls
  = paragraphNodes (paragraphLines ++ takeWhile isParagraphLine ls)
      ++ outer (dropWhile isParagraphLine ls).
Proof.
  intros Hnil. revert paragraphLines.
  induction ls as [|l ls IH]; intros paragraphLines; simpl.
  - now rewrite Hnil, !app_nil_r.
  - destruct (isParagraphLine l); simpl.
    + rewrite IH, <- app_assoc. reflexivity.
    + now rewrite app_nil_r.
Qed.

Lemma dropWhile_length {A : Type} (p : A -> bool) (s : list A) :
  length (dropWhile p s) <= length s.
Proof.
  induction s as [|c s IH]; simpl; [lia|]. destruct (p c); simpl; lia.
Qed.

Lemma tl_length {A : Type} (s : list A) : length (tl s) <= length s.
Proof. destruct s; simpl; lia. Qed.

(** Induction over the outer loop of [convertLines]: from the empty
    suffix, over a code block, over a blank line and over a paragraph. *)
Lemma convertLines_ind (P : list str -> list node -> Prop) :
  P [] [] ->
  (forall line rest,
      isFence line = true ->
      let after := tl (dropWhile (fun l => negb (isFence l)) rest) in
      P after (convertLines after) ->
      P (line :: rest)
        (CODE_BLOCK (fenceLanguage line)
           (fold_left addCodeLine
              (takeWhile (fun l => negb (isFence l)) rest) [])
           :: convertLines after)) ->
  (forall line rest,
      isBlank line = true ->
      P rest (convertLines rest) -> P (line :: rest) (convertLines rest)) ->
  (forall line rest,
      isParagraphLine line = true ->
      let after := dropWhile isParagraphLine rest in
      P after (convertLines after) ->
      P (line :: rest)
        (paragraphNodes (line :: takeWhile isParagraphLine rest)
           ++ convertLines after)) ->
  forall lines, P lines (convertLines lines).
Proof.
  intros Hnil Hcode Hblank Hpara lines.
  remember (length lines) as n eqn:Hn.
  assert (Hle : length lines <= n) by lia. clear Hn.
  revert lines Hle. induction n as [|n IH]; intros [|line rest] Hle;
    simpl in Hle; try exact Hnil; try lia.
  destruct (isFence line) eqn:F.
  - rewrite (convertLines_fence line rest F), codeBlockLoop_spec by reflexivity.
    apply (Hcode line rest F). apply IH.
    pose proof (tl_length (dropWhile (fun l => negb (isFence l)) rest)).
    pose proof (dropWhile_length (fun l => negb (isFence l)) rest). lia.
  - destruct (isBlank line) eqn:B.
    + rewrite (convertLines_blank line rest B).
      apply (Hblank line rest B). apply IH. lia.
    + assert (Hp : isParagraphLine line = true)
        by (unfold isParagraphLine; now rewrite B, F).
      rewrite (convertLines_paragraph line rest Hp),
        paragraphLoop_spec by reflexivity.
      apply (Hpara line rest Hp). apply IH.
      pose proof (dropWhile_length isParagraphLine rest). lia.
Qed.

Lemma paragraphNodes_kind (paragraphLines : list str) :
  forallb isCodeBlockOrParagraph (paragraphNodes paragraphLines) = true.
Proof.
  unfold paragraphNodes. destruct paragraphLines; [reflexivity|].
  destruct (paragraphChildren _); reflexivity.
Qed.




(** ** Lines *)

Lemma split_nl_not_nil (s : str) : split_nl s <> [].
Proof.
  induction s as [|c s IH]; simpl; [discriminate|].
  destruct (c =? 10)%N; [discriminate|].
  destruct (split_nl s); [contradiction | discriminate].
Qed.

Lemma join_nl_cons (p : str) (ps : list str) :
  ps <> [] -> join_nl (p :: ps) = p ++ 10%N :: join_nl ps.
Proof. destruct ps; [contradiction | reflexivity]. Qed.

(** Joining the lines of a text with newlines gives the text back. *)
Lemma join_split_nl (s : str) : join_nl (split_nl s) = s.
Proof.
  induction s as [|c s IH]; [reflexivity|]. simpl.
  destruct (N.eqb_spec c 10) as [-> | Hc].
  - rewrite join_nl_cons by apply split_nl_not_nil. now rewrite IH.
  - pose proof (split_nl_not_nil s) as Hne.
    destruct (split_nl s) as [|l ls]; [contradiction|].
    destruct ls as [|l' ls].
    + unfold join_nl in *. simpl in *. now rewrite IH.
    + change (join_nl ((c :: l) :: l' :: ls))
        with (c :: join_nl (l :: l' :: ls)). now rewrite IH.
Qed.

(** A text without a newline is its only line. *)
Lemma split_nl_single (line : str) :
  forallb (fun c => negb (c =? 10)%N) line = true -> split_nl line = [line].
Proof.
  induction line as [|c s IH]; [reflexivity|]. simpl.
  destruct (c =? 10)%N; simpl; [discriminate|].
  intros H. now rewrite (IH H).
Qed.

(** ** Plain lines *)

Lemma isPlainLine_lineNodes (line : str) :
  isPlainLine line = true ->
  isFence line = false /\ lineNodes line = [PARAGRAPH [TEXT line]].
Proof.
  unfold isPlainLine, lineNodes. intros H.
  repeat (apply andb_prop in H as [H ?]).
  destruct (taskMatch line); [discriminate|].
  destruct (bulletMatch line); [discriminate|].
  destruct (orderedMatch line); [discriminate|].
  destruct (headingMatch line); [discriminate|].
  destruct (test codeAt line); [discriminate|].
  unfold isBlank in *. destruct (trim line); [discriminate|].
  split; [now apply negb_true_iff | reflexivity].
Qed.

Lemma isPlainLine_paragraph (line : str) :
  isPlainLine line = true -> isParagraphLine line = true.
Proof.
  unfold isPlainLine, isParagraphLine. intros H.
  repeat (apply andb_prop in H as [H ?]).
  apply andb_true_intro. split; assumption.
Qed.

(** The tokenizer on a line without matches: one TEXT node. *)
Lemma parseLineContent_plain (line : str) :
  line <> [] -> noInlineMatch line = true ->
  parseLineContent line = [TEXT line].
Proof.
  unfold noInlineMatch, parseLineContent, sortedMatches, tagMatches,
    linkMatches.
  intros Hne H.
  destruct (execAll tagRegex line); [|discriminate].
  destruct (execAll linkRegex line); [|discriminate].
  destruct line; [contradiction | reflexivity].
Qed.

Lemma isParagraphLine_not_nil (line : str) :
  isParagraphLine line = true -> line <> [].
Proof. intros H ->. discriminate H. Qed.

(** [convertContentToNodes] on one paragraph line without matches. *)
Lemma convert_single_line (line : str) :
  forallb (fun c => negb (c =? 10)%N) line = true ->
  isParagraphLine line = true ->
  noInlineMatch line = true ->
  convertContentToNodes line = [PARAGRAPH [TEXT line]].
Proof.
  intros Hnl Hp Hm. unfold convertContentToNodes.
  pose proof (isParagraphLine_not_nil line Hp) as Hne.
  pose proof Hp as Hp'. unfold isParagraphLine in Hp'.
  apply andb_prop in Hp' as [B _]. apply negb_true_iff in B. rewrite B.
  destruct line as [|c r]; [contradiction|]. simpl isEmpty. simpl orb.
  rewrite (split_nl_single _ Hnl), (convertLines_paragraph _ [] Hp).
  simpl paragraphLoop. unfold paragraphNodes, paragraphChildren.
  now rewrite (parseLineContent_plain _ Hne Hm).
Qed.

(** [parseMarkdownToNodes] on one plain line. *)
Lemma parse_single_line (line : str) :
  forallb (fun c => negb (c =? 10)%N) line = true ->
  isPlainLine line = true ->
  parseMarkdownToNodes line = [PARAGRAPH [TEXT line]].
Proof.
  intros Hnl Hp. unfold parseMarkdownToNodes.
  destruct (isPlainLine_lineNodes line Hp) as [F L].
  rewrite (split_nl_single _ Hnl), (parseLines_line _ [] F), L. reflexivity.
Qed.

(** ** The serializer *)

Lemma restore_lines_of_plain (lines : list str) :
  forallb (fun l => isEmpty l || isPlainLine l) lines = true ->
  flat_map nodeLines (parseLines lines) = lines.
Proof.
  induction lines as [|line rest IH]; [reflexivity|].
  simpl forallb. intros H. apply andb_prop in H as [Hl Hrest].
  destruct line as [|c r].
  - rewrite (parseLines_line [] rest eq_refl).
    change (lineNodes []) with [LINE_BREAK]. simpl. now rewrite (IH Hrest).
  - simpl in Hl. destruct (isPlainLine_lineNodes _ Hl) as [F L].
    rewrite (parseLines_line _ rest F), L. simpl.
    unfold extractTextFromChildren. simpl. rewrite app_nil_r.
    now rewrite (IH Hrest).
Qed.

(** C3, as the code has it: text whose lines are each empty or a plain
    paragraph line comes back exactly from [parseMarkdownToNodes] followed
    by [restoreNodesToMarkdown]; through [convertContentToNodes] a text of
    one paragraph line without hashtag or autolink comes back exactly. *)
Theorem C3_round_trip_plain_lines :
  (forall text : str,
      forallb (fun l => isEmpty l || isPlainLine l) (split_nl text) = true ->
      restoreNodesToMarkdown (parseMarkdownToNodes text) = text)
  /\ (forall line : str,
        forallb (fun c => negb (c =? 10)%N) line = true ->
        isParagraphLine line = true ->
        noInlineMatch line = true ->
        restoreNodesToMarkdown (convertContentToNodes line) = line).
Proof.
  split.
  - intros text H. unfold restoreNodesToMarkdown, parseMarkdownToNodes.
    rewrite (restore_lines_of_plain _ H). apply join_split_nl.
  - intros line Hnl Hp Hm. rewrite (convert_single_line line Hnl Hp Hm).
    change (line ++ [] = line). apply app_nil_r.
Qed.

(** Two paragraphs of plain lines with an empty line between them, and one
    plain line. *)
Lemma C3_round_trip_plain_lines_witness :
  restoreNodesToMarkdown
    (parseMarkdownToNodes
       (lit ("one" ++ newline ++ "two words" ++ newline ++ newline ++ "three")))
  = lit ("one" ++ newline ++ "two words" ++ newline ++ newline ++ "three")
  /\ restoreNodesToMarkdown (convertContentToNodes (lit "two words"))
     = lit "two words".
Proof.
  split.
  - exact (proj1 C3_round_trip_plain_lines
             (lit ("one" ++ newline ++ "two words" ++ newline ++ newline
                   ++ "three")) eq_refl).
  - exact (proj2 C3_round_trip_plain_lines (lit "two words")
             eq_refl eq_refl eq_refl).
Defined.

(** C3 as stated fails on both scanners: a blank line of one space comes
    back empty from [parseMarkdownToNodes], and [convertContentToNodes]
    loses the blank line as well as the line boundary inside a
    paragraph. *)
Lemma C3_counterexample :
  restoreNodesToMarkdown
    (parseMarkdownToNodes (lit ("a" ++ newline ++ " " ++ newline ++ "b")))
    <> lit ("a" ++ newline ++ " " ++ newline ++ "b")
  /\ restoreNodesToMarkdown
       (convertContentToNodes (lit ("a" ++ newline ++ " " ++ newline ++ "b")))
     <> lit ("a" ++ newline ++ " " ++ newline ++ "b")
  /\ restoreNodesToMarkdown
       (convertContentToNodes (lit ("a" ++ newline ++ "b")))
     = lit "ab".
Proof. repeat split; try discriminate. Qed.

(** C10 as stated fails: on two plain lines the API client builds one
    paragraph with a LINE_BREAK inside, the markdown service two
    paragraphs; and on the empty text the first returns nothing, the
    second one LINE_BREAK. *)
Lemma C10_counterexample :
  convertContentToNodes (lit ("a" ++ newline ++ "b"))
    = [PARAGRAPH [TEXT (lit "a"); LINE_BREAK; TEXT (lit "b")]]
  /\ parseMarkdownToNodes (lit ("a" ++ newline ++ "b"))
     = [PARAGRAPH [TEXT (lit "a")]; PARAGRAPH [TEXT (lit "b")]]
  /\ convertContentToNodes (lit ("a" ++ newline ++ "b"))
     <> parseMarkdownToNodes (lit ("a" ++ newline ++ "b"))
  /\ convertContentToNodes (lit "") <> parseMarkdownToNodes (lit "").
Proof. repeat split; discriminate. Qed.

Lemma childText_dropMarkup (children : list node) :
  flat_map childText (dropMarkup children) = flat_map childText children.
Proof.
  induction children as [|n children IH]; [reflexivity|].
  destruct n; simpl; now rewrite IH.
Qed.

Lemma extractText_dropMarkup (children : list node) :
  extractTextFromChildren (dropMarkup children)
  = extractTextFromChildren children.
Proof. unfold extractTextFromChildren. now rewrite childText_dropMarkup. Qed.

(** A child is looked at no deeper than its own payload. *)
Lemma childText_pruned (children : list node) :
  flat_map childText (dropMarkup (map pruneNode children))
  = flat_map childText children.
Proof.
  induction children as [|n children IH]; [reflexivity|].
  destruct n; simpl; now rewrite IH.
Qed.

Lemma extractText_pruned (children : list node) :
  extractTextFromChildren (dropMarkup (map pruneNode children))
  = extractTextFromChildren children.
Proof. unfold extractTextFromChildren. now rewrite childText_pruned. Qed.

Lemma nodeLines_pruneDocument (doc : list node) :
  flat_map nodeLines (pruneDocument doc) = flat_map nodeLines doc.
Proof.
  unfold pruneDocument. induction doc as [|n doc IH]; [reflexivity|].
  destruct n; simpl; rewrite ?extractText_pruned; now rewrite IH.
Qed.

(** C7: a TAG or AUTO_LINK child pushes no text part and a TAG or
    AUTO_LINK node at top level pushes no line, so a tree serializes to
    the same text as the tree without any of its TAG and AUTO_LINK
    nodes. *)
Theorem C7_markup_dropped :
  (forall name : str, childText (TAG name) = [] /\ nodeLines (TAG name) = [])
  /\ (forall url : str,
        childText (AUTO_LINK url) = [] /\ nodeLines (AUTO_LINK url) = [])
  /\ (forall children : list node,
        extractTextFromChildren children
        = extractTextFromChildren (dropMarkup children))
  /\ (forall doc : list node,
        restoreNodesToMarkdown doc
        = restoreNodesToMarkdown (pruneDocument doc)).
Proof.
  repeat split.
  - intros children. symmetry. apply extractText_dropMarkup.
  - intros doc. unfold restoreNodesToMarkdown.
    now rewrite nodeLines_pruneDocument.
Qed.

(** ** The loops over the cursor *)

Lemma readLine_at (pre : list str) (l : str) (ls : list str) :
  Cursor.readLine (pre ++ l :: ls) (length pre) = Cursor.Returned l.
Proof.
  unfold Cursor.readLine.
  rewrite nth_error_app2, Nat.sub_diag by lia. reflexivity.
Qed.

Lemma cursor_inside (pre : list str) (l : str) (ls : list str) :
  (length pre <? length (pre ++ l :: ls)) = true.
Proof. apply Nat.ltb_lt. rewrite length_app. simpl. lia. Qed.

Lemma cursor_at_end (pre : list str) :
  (length pre <? length (pre ++ [])) = false.
Proof. apply Nat.ltb_ge. rewrite app_nil_r. lia. Qed.

Lemma snoc_app (pre : list str) (l : str) (ls : list str) :
  pre ++ l :: ls = (pre ++ [l]) ++ ls /\ S (length pre) = length (pre ++ [l]).
Proof. rewrite <- app_assoc, length_app. simpl. split; [reflexivity | lia]. Qed.

(** One script for the three inner loops: induction on the lines from the
    cursor on. *)
Ltac inner_loop ls :=
  let l := fresh "l" in
  let IH := fresh "IH" in
  induction ls as [|l ls IH]; intros pre acc fuel Hfuel;
  (destruct fuel as [|fuel]; [simpl in Hfuel; lia|]); simpl;
  [ rewrite cursor_at_end, Nat.add_0_r, ?app_nil_r; reflexivity
  | rewrite cursor_inside, readLine_at; simpl;
    match goal with
    | |- context [if ?c then _ else _] => destruct c
    end; simpl;
    [ destruct (snoc_app pre l ls) as [-> ->];
      rewrite IH by (simpl in Hfuel; lia);
      rewrite length_app, <- ?app_assoc; simpl;
      rewrite <- Nat.add_assoc; reflexivity
    | rewrite Nat.add_0_r, ?app_nil_r; reflexivity ] ].

Lemma codeBlockWhile_spec (ls pre : list str) (codeContent : str) (fuel : nat) :
  length ls < fuel ->
  let taken := takeWhile (fun l => negb (isFence l)) ls in
  Cursor.codeBlockWhile fuel (pre ++ ls) (length pre) codeContent
  = Cursor.Returned (length pre + length taken,
                     fold_left addCodeLine taken codeContent).
Proof.
  revert pre codeContent fuel. inner_loop ls.
Qed.

Lemma paragraphWhile_spec (ls pre paragraphLines : list str) (fuel : nat) :
  length ls < fuel ->
  let taken := takeWhile isParagraphLine ls in
  Cursor.paragraphWhile fuel (pre ++ ls) (length pre) paragraphLines
  = Cursor.Returned (length pre + length taken, paragraphLines ++ taken).
Proof.
  revert pre paragraphLines fuel. inner_loop ls.
Qed.

Lemma codeLinesWhile_spec (ls pre codeLines : list str) (fuel : nat) :
  length ls < fuel ->
  let taken := takeWhile (fun l => negb (isFence l)) ls in
  Cursor.codeLinesWhile fuel (pre ++ ls) (length pre) codeLines
  = Cursor.Returned (length pre + length taken, codeLines ++ taken).
Proof.
  revert pre codeLines fuel. inner_loop ls.
Qed.

Lemma codeLinesLoop_spec (outer : list str -> list node)
    (language : str) (codeLines ls : list str) :
  outer [] = [] ->
  codeLinesLoop outer language codeLines ls
  = CODE_BLOCK language
      (join_nl (codeLines ++ takeWhile (fun l => negb (isFence l)) ls))
      :: outer (tl (dropWhile (fun l => negb (isFence l)) ls)).
Proof.
  intros Hnil. revert codeLines.
  induction ls as [|l ls IH]; intros codeLines; simpl.
  - now rewrite Hnil, app_nil_r.
  - destruct (negb (isFence l)); simpl.
    + rewrite IH, <- app_assoc. reflexivity.
    + now rewrite app_nil_r.
Qed.

(** Where the cursor stands after the lines an inner loop took. *)
Lemma cursor_after_taken (p : str -> bool) (front rest : list str) :
  front ++ rest = (front ++ takeWhile p rest) ++ dropWhile p rest
  /\ length front + length (takeWhile p rest)
     = length (front ++ takeWhile p rest).
Proof.
  rewrite <- app_assoc, takeWhile_dropWhile, length_app. split; reflexivity.
Qed.

Lemma parseFor_past (fuel : nat) (lines : list str) (i : nat)
    (nodes : list node) :
  0 < fuel -> length lines <= i ->
  Cursor.parseFor fuel lines i nodes = Cursor.Returned nodes.
Proof.
  intros Hf Hi. destruct fuel; [lia|]. simpl.
  apply Nat.ltb_ge in Hi. now rewrite Hi.
Qed.

Lemma parseFor_spec (n : nat) :
  forall (ls pre : list str) (nodes : list node) (fuel : nat),
    length ls <= n -> length ls + 2 <= fuel ->
    Cursor.parseFor fuel (pre ++ ls) (length pre) nodes
    = Cursor.Returned (nodes ++ parseLines ls).
Proof.
  induction n as [|n IH]; intros [|line rest] pre nodes [|fuel] Hn Hfuel;
    simpl in Hn, Hfuel; try lia;
    try (simpl; rewrite cursor_at_end, app_nil_r; reflexivity).
  cbn [Cursor.parseFor]. rewrite cursor_inside, readLine_at.
  cbn [Cursor.bind].
  destruct (isFence line) eqn:F.
  - rewrite (parseLines_fence line rest F), codeLinesLoop_spec by reflexivity.
    destruct (snoc_app pre line rest) as [-> ->].
    rewrite codeLinesWhile_spec by lia. cbn [Cursor.bind]. cbv zeta.
    destruct (cursor_after_taken (fun l => negb (isFence l))
                (pre ++ [line]) rest) as [E1 E2].
    rewrite E1, E2.
    pose proof (dropWhile_length (fun l => negb (isFence l)) rest) as Hd.
    destruct (dropWhile (fun l => negb (isFence l)) rest) as [|d after].
    + rewrite parseFor_past by (rewrite ?app_nil_r; lia). reflexivity.
    + destruct (snoc_app ((pre ++ [line])
                            ++ takeWhile (fun l => negb (isFence l)) rest)
                  d after) as [-> ->].
      simpl in Hd. rewrite IH by (simpl; lia). now rewrite <- app_assoc.
  - rewrite (parseLines_line line rest F).
    destruct (snoc_app pre line rest) as [-> ->].
    rewrite IH by lia. now rewrite <- app_assoc.
Qed.

(** A code block whose fence is never closed takes all the lines left. *)
Lemma unclosed_fence (rest : list str) :
  forallb (fun l => negb (isFence l)) rest = true ->
  takeWhile (fun l => negb (isFence l)) rest = rest
  /\ tl (dropWhile (fun l => negb (isFence l)) rest) = [].
Proof.
  intros H. rewrite (takeWhile_all _ _ H), (dropWhile_all _ _ H). now split.
Qed.

(** ** Tags *)

(** The texts of the matches do not depend on where the scan is told it
    starts. *)
Lemma execFrom_texts_pos (m : matcher) (s : str) :
  forall skip pos pos',
    map m_text (execFrom m skip pos s) = map m_text (execFrom m skip pos' s).
Proof.
  induction s as [|c s IH]; intros skip pos pos'; [reflexivity|]. simpl.
  destruct skip as [|k]; [|apply IH].
  destruct (m (c :: s)); simpl; [f_equal|]; apply IH.
Qed.

Lemma takeWhile_before {A : Type} (p : A -> bool) (a : list A) (c : A)
    (b : list A) :
  p c = false -> takeWhile p (a ++ c :: b) = takeWhile p a.
Proof.
  intros Hc. induction a as [|x a IH]; simpl; [now rewrite Hc|].
  destruct (p x); [now rewrite IH | reflexivity].
Qed.

Lemma takeWhile_length {A : Type} (p : A -> bool) (s : list A) :
  length (takeWhile p s) <= length s.
Proof.
  induction s as [|c s IH]; simpl; [lia|]. destruct (p c); simpl; lia.
Qed.

(** A tag match never extends over a character outside the tag alphabet
    that is no [#] either, so the scan of a text is the scan of what comes
    before such a character followed by the scan of what comes after. *)
Lemma tag_scan_split (sep : char) (t : str) :
  isTagChar sep = false -> isChar "#" sep = false ->
  forall (l : str) (skip pos pos' : nat),
    skip <= length (takeWhile isTagChar l) ->
    map m_text (execFrom tagRegex skip pos (l ++ sep :: t))
    = map m_text (execFrom tagRegex skip pos l)
        ++ map m_text (execFrom tagRegex 0 pos' t).
Proof.
  intros Hsep Hhash.
  induction l as [|c l IH]; intros skip pos pos' Hskip.
  - simpl in Hskip. assert (skip = 0) as -> by lia. simpl.
    rewrite Hhash. apply execFrom_texts_pos.
  - destruct skip as [|k].
    + cbn [app execFrom]. unfold tagRegex.
      rewrite (takeWhile_before isTagChar l sep t Hsep).
      destruct (isChar "#" c); [|apply IH; lia].
      pose proof (takeWhile_length isTagChar l) as Hlen.
      destruct (takeWhile isTagChar l) as [|d run] eqn:R; [apply IH; simpl; lia|].
      cbn [map m_text]. rewrite <- app_comm_cons. f_equal.
      * rewrite (app_comm_cons l (sep :: t) c), firstn_app.
        replace (S (length (d :: run)) - length (c :: l)) with 0
          by (cbn [length] in *; lia).
        now rewrite firstn_O, app_nil_r.
      * apply IH. simpl. lia.
    + cbn [app execFrom]. apply IH. simpl in Hskip.
      destruct (isTagChar c); simpl in Hskip; lia.
Qed.

Lemma matchedTagNames_texts (s : str) :
  matchedTagNames s = map (@tl char) (map m_text (execFrom tagRegex 0 0 s)).
Proof. unfold matchedTagNames, execAll. now rewrite map_map. Qed.

Lemma matchedTagNames_line (l t : str) :
  matchedTagNames (l ++ 10%N :: t) = matchedTagNames l ++ matchedTagNames t.
Proof.
  rewrite !matchedTagNames_texts.
  rewrite (tag_scan_split 10%N t eq_refl eq_refl l 0 0 0) by lia.
  apply map_app.
Qed.

(** The names matched in a text are those matched in its lines. *)
Lemma matchedTagNames_lines (text : str) :
  matchedTagNames text = flat_map matchedTagNames (split_nl text).
Proof.
  rewrite <- (join_split_nl text) at 1.
  pose proof (split_nl_not_nil text) as Hne.
  induction (split_nl text) as [|l ls IH]; [contradiction|].
  destruct ls as [|l' ls].
  - simpl. now rewrite app_nil_r.
  - rewrite join_nl_cons by discriminate.
    rewrite matchedTagNames_line, IH by discriminate. reflexivity.
Qed.

(** White space holds no tag. *)
Lemma no_tag_in_blank (s : str) :
  forallb isSpace s = true ->
  forall skip pos, execFrom tagRegex skip pos s = [].
Proof.
  induction s as [|c s IH]; intros H skip pos; [reflexivity|].
  simpl in H. apply andb_prop in H as [Hc Hs]. simpl.
  destruct skip; [|now apply IH].
  rewrite (isSpace_not "#" c eq_refl Hc). now apply IH.
Qed.

Lemma matchedTagNames_blank (s : str) :
  isBlank s = true -> matchedTagNames s = [].
Proof.
  intros B. apply isBlank_iff in B. unfold matchedTagNames, execAll.
  now rewrite (no_tag_in_blank s B).
Qed.

(** Sorting keeps the matches. *)
Lemma insertByStart_In (x y : lmatch) (l : list lmatch) :
  In x (insertByStart y l) <-> x = y \/ In x l.
Proof.
  induction l as [|z l IH]; simpl.
  - intuition congruence.
  - destruct (start y <? start z); simpl; rewrite ?IH; intuition congruence.
Qed.

Lemma sortByStart_In (x : lmatch) (l : list lmatch) :
  In x (sortByStart l) <-> In x l.
Proof.
  unfold sortByStart.
  assert (G : forall acc,
             In x (fold_left (fun acc y => insertByStart y acc) l acc)
             <-> In x l \/ In x acc).
  { induction l as [|y l IH]; intros acc; simpl; [tauto|].
    rewrite IH, insertByStart_In. intuition congruence. }
  rewrite G. simpl. tauto.
Qed.

Lemma tagNames_app (a b : list node) :
  flat_map tagNames (a ++ b) = flat_map tagNames a ++ flat_map tagNames b.
Proof. apply flat_map_app. Qed.

(** The loop over the matches pushes one TAG node for every tag match,
    and nothing else that carries a tag. *)
Lemma addMatch_tags (line : str) (ms : list lmatch) :
  forall (children : list node) (lastIndex : nat),
    flat_map tagNames (fst (fold_left (addMatch line) ms (children, lastIndex)))
    = flat_map tagNames children ++ flat_map tagOf ms.
Proof.
  induction ms as [|m ms IH]; intros children lastIndex; simpl.
  - now rewrite app_nil_r.
  - set (children1 := if lastIndex <? start m then _ else _).
    assert (E : flat_map tagNames children1 = flat_map tagNames children).
    { subst children1. destruct (lastIndex <? start m); [|reflexivity].
      destruct (isEmpty _); [reflexivity|].
      rewrite tagNames_app. simpl. now rewrite app_nil_r. }
    unfold tagOf at 1.
    destruct (type m); rewrite IH, tagNames_app, E; simpl;
      now rewrite <- ?app_assoc, ?app_nil_r.
Qed.

Lemma parseLineContent_tags (line : str) :
  flat_map tagNames (parseLineContent line)
  = flat_map tagOf (sortedMatches line).
Proof.
  unfold parseLineContent.
  pose proof (addMatch_tags line (sortedMatches line) [] 0) as H.
  destruct (fold_left (addMatch line) (sortedMatches line) ([], 0))
    as [children lastIndex].
  simpl in H. rewrite <- H.
  set (children' := if lastIndex <? length line then _ else _).
  assert (E : flat_map tagNames children' = flat_map tagNames children).
  { subst children'. destruct (lastIndex <? length line); [|reflexivity].
    destruct (isEmpty _); [reflexivity|].
    rewrite tagNames_app. simpl. now rewrite app_nil_r. }
  rewrite <- E. destruct children'; reflexivity.
Qed.

Lemma tagOf_tagMatches (line : str) :
  flat_map tagOf (tagMatches line) = matchedTagNames line.
Proof.
  unfold tagMatches, matchedTagNames.
  induction (execAll tagRegex line) as [|m ms IH]; [reflexivity|].
  simpl. now rewrite IH.
Qed.

Lemma tagOf_linkMatches (line : str) : flat_map tagOf (linkMatches line) = [].
Proof.
  unfold linkMatches.
  induction (execAll linkRegex line) as [|m ms IH]; [reflexivity|]. exact IH.
Qed.

(** The TAG nodes of a tokenized line carry the names the tag expression
    matches in the line. *)
Lemma parseLineContent_tag_names (line : str) (name : str) :
  In name (flat_map tagNames (parseLineContent line))
  <-> In name (matchedTagNames line).
Proof.
  rewrite parseLineContent_tags, <- tagOf_tagMatches, !in_flat_map.
  unfold sortedMatches. split.
  - intros (m & Hm & Hname). apply sortByStart_In, in_app_or in Hm.
    destruct Hm as [Hm | Hm]; [now exists m|].
    assert (In name (flat_map tagOf (linkMatches line)))
      by (apply in_flat_map; now exists m).
    rewrite tagOf_linkMatches in H. contradiction.
  - intros (m & Hm & Hname). exists m. split; [|assumption].
    apply sortByStart_In, in_or_app. now left.
Qed.

Lemma paragraphChildren_tag_names (paragraphLines : list str) (name : str) :
  In name (flat_map tagNames (paragraphChildren paragraphLines))
  <-> In name (flat_map matchedTagNames paragraphLines).
Proof.
  induction paragraphLines as [|l ls IH]; [reflexivity|].
  destruct ls as [|l' ls].
  - cbn [paragraphChildren flat_map]. rewrite app_nil_r.
    apply parseLineContent_tag_names.
  - change (paragraphChildren (l :: l' :: ls))
      with (parseLineContent l ++ LINE_BREAK :: paragraphChildren (l' :: ls)).
    rewrite tagNames_app.
    change (flat_map tagNames (LINE_BREAK :: paragraphChildren (l' :: ls)))
      with (flat_map tagNames (paragraphChildren (l' :: ls))).
    change (flat_map matchedTagNames (l :: l' :: ls))
      with (matchedTagNames l ++ flat_map matchedTagNames (l' :: ls)).
    split; intros H; apply in_app_or in H; apply in_or_app;
      destruct H as [H | H];
      [ left; now apply parseLineContent_tag_names | right; now apply IH
      | left; now apply parseLineContent_tag_names | right; now apply IH ].
Qed.

Lemma paragraphNodes_tag_names (paragraphLines : list str) (name : str) :
  In name (documentTags (paragraphNodes paragraphLines))
  <-> In name (flat_map matchedTagNames paragraphLines).
Proof.
  rewrite <- paragraphChildren_tag_names. unfold paragraphNodes, documentTags.
  destruct paragraphLines as [|l ls]; [reflexivity|].
  destruct (paragraphChildren (l :: ls)); [reflexivity|].
  cbn [flat_map tagNames]. now rewrite app_nil_r.
Qed.

(** Without a fence line, the TAG nodes of the document carry the names
    matched in the lines. *)
Lemma convertLines_tag_names (name : str) (lines : list str) :
  forallb (fun l => negb (isFence l)) lines = true ->
  In name (documentTags (convertLines lines))
  <-> In name (flat_map matchedTagNames lines).
Proof.
  apply (convertLines_ind
           (fun lines nodes =>
              forallb (fun l => negb (isFence l)) lines = true ->
              In name (documentTags nodes)
              <-> In name (flat_map matchedTagNames lines))).
  - reflexivity.
  - intros line rest F after _ H. simpl in H. rewrite F in H. discriminate.
  - intros line rest B IH H. simpl in H. apply andb_prop in H as [_ H].
    cbn [flat_map]. rewrite (matchedTagNames_blank line B). now apply IH.
  - intros line rest Hp after IH H. simpl in H. apply andb_prop in H as [_ H].
    unfold documentTags in *. rewrite tagNames_app, in_app_iff.
    rewrite <- (takeWhile_dropWhile isParagraphLine rest) in H.
    rewrite forallb_app in H. apply andb_prop in H as [_ H].
    fold (documentTags (paragraphNodes (line :: takeWhile isParagraphLine rest))).
    rewrite paragraphNodes_tag_names, (IH H), <- in_app_iff, <- flat_map_app.
    subst after. rewrite <- app_comm_cons, takeWhile_dropWhile. reflexivity.
Qed.

Lemma In_takeWhile {A : Type} (p : A -> bool) (x : A) (l : list A) :
  In x (takeWhile p l) -> In x l.
Proof.
  induction l as [|y l IH]; simpl; [tauto|].
  destruct (p y); simpl; [intuition | tauto].
Qed.

Lemma In_dropWhile {A : Type} (p : A -> bool) (x : A) (l : list A) :
  In x (dropWhile p l) -> In x l.
Proof.
  induction l as [|y l IH]; simpl; [tauto|].
  destruct (p y); simpl; [intuition | tauto].
Qed.

Lemma In_tl {A : Type} (x : A) (l : list A) : In x (tl l) -> In x l.
Proof. destruct l; simpl; tauto. Qed.

(** With or without fences, every TAG node of the document carries a name
    matched in one of the lines. *)
Lemma convertLines_tags_matched (name : str) (lines : list str) :
  In name (documentTags (convertLines lines)) ->
  In name (flat_map matchedTagNames lines).
Proof.
  apply (convertLines_ind
           (fun lines nodes =>
              In name (documentTags nodes) ->
              In name (flat_map matchedTagNames lines))).
  - tauto.
  - intros line rest _ after IH H. apply IH, in_flat_map in H as (l & Hl & Hn).
    apply in_flat_map. exists l. split; [|exact Hn].
    right. now apply In_tl, In_dropWhile in Hl.
  - intros line rest _ IH H. apply in_or_app. right. now apply IH.
  - intros line rest _ after IH H. unfold documentTags in H.
    rewrite tagNames_app in H. apply in_app_or in H as [H | H].
    + apply paragraphNodes_tag_names, in_flat_map in H as (l & Hl & Hn).
      apply in_flat_map. exists l. split; [|exact Hn].
      destruct Hl as [<- | Hl]; [now left | right].
      now apply In_takeWhile in Hl.
    + apply IH, in_flat_map in H as (l & Hl & Hn).
      apply in_flat_map. exists l. split; [|exact Hn].
      right. now apply In_dropWhile in Hl.
Qed.

(** X15.  Every tag name carried by a TAG node of the document of
    [convertContentToNodes] is a name the tag expression of the tokenizer
    matches in the raw text; and on a text without a fence line the TAG
    nodes carry exactly the names the expression matches in the raw text:
    splitting into lines, skipping blank lines and grouping lines into
    paragraphs neither loses a tag nor adds one. *)
Theorem tag_nodes_are_tag_matches (text : str) :
  (forall name : str,
      In name (documentTags (convertContentToNodes text)) ->
      In name (matchedTagNames text))
  /\ (forallb (fun l => negb (isFence l)) (split_nl text) = true ->
      forall name : str,
        In name (matchedTagNames text)
        <-> In name (documentTags (convertContentToNodes text))).
Proof.
  unfold convertContentToNodes.
  destruct (isEmpty text || isBlank text) eqn:E.
  - assert (B : isBlank text = true)
      by (destruct text; [reflexivity | exact E]).
    split; [intros name [] | intros _ name].
    now rewrite (matchedTagNames_blank text B).
  - split.
    + intros name H. rewrite matchedTagNames_lines.
      now apply convertLines_tags_matched.
    + intros H name.
      rewrite (convertLines_tag_names name (split_nl text) H).
      now rewrite <- matchedTagNames_lines.
Qed.

(** Two tags, one of them twice, a link and a blank line. *)
Lemma tag_nodes_are_tag_matches_witness :
  In (lit "work")
     (matchedTagNames
        (lit ("todo #work #home" ++ newline ++ newline
              ++ "see https://example.com #work")))
  <-> In (lit "work")
         (documentTags
            (convertContentToNodes
               (lit ("todo #work #home" ++ newline ++ newline
                     ++ "see https://example.com #work")))).
Proof.
  exact (proj2 (tag_nodes_are_tag_matches
                  (lit ("todo #work #home" ++ newline ++ newline
                        ++ "see https://example.com #work")))
           eq_refl (lit "work")).
Defined.

(** Between fences a hashtag is matched in the raw text and is no TAG
    node of the document. *)
Example fenced_tag_is_no_node :
  matchedTagNames (lit ("```" ++ newline ++ "#a" ++ newline ++ "```"))
  = [lit "a"]
  /\ documentTags
       (convertContentToNodes
          (lit ("```" ++ newline ++ "#a" ++ newline ++ "```")))
     = [].
Proof. split; reflexivity. Qed.

(** ** Coverage *)

(** Where a global scan reports a match, the expression matches, and the
    text of the match is a piece of the string. *)
Lemma execFrom_In (mt : matcher) (s : str) :
  forall (skip pos : nat) (m : rmatch),
    In m (execFrom mt skip pos s) ->
    exists k n,
      mt (skipn k s) = Some n
      /\ m_index m = pos + k
      /\ m_text m = firstn n (skipn k s)
      /\ k <= length s.
Proof.
  induction s as [|c s IH]; intros skip pos m H; [contradiction|].
  assert (Next : forall skip',
             In m (execFrom mt skip' (S pos) s) ->
             exists k n,
               mt (skipn k (c :: s)) = Some n
               /\ m_index m = pos + k
               /\ m_text m = firstn n (skipn k (c :: s))
               /\ k <= length (c :: s)).
  { intros skip' H'. destruct (IH skip' (S pos) m H') as (k & n & A & B & C & D).
    exists (S k), n. simpl. repeat split; try assumption; lia. }
  simpl in H. destruct skip as [|skip]; [|now apply (Next skip)].
  destruct (mt (c :: s)) as [n|] eqn:E; [|now apply (Next 0)].
  destruct H as [<- | H]; [|now apply (Next (pred n))].
  exists 0, n. simpl. repeat split; try assumption; lia.
Qed.

Lemma firstn_firstn_length {A : Type} (n : nat) (l : list A) :
  firstn (length (firstn n l)) l = firstn n l.
Proof.
  revert l; induction n as [|n IH]; intros [|x l]; simpl; try reflexivity.
  now rewrite IH.
Qed.

Lemma firstn_extend {A : Type} (a b : nat) (l : list A) :
  a <= b -> firstn a l ++ firstn (b - a) (skipn a l) = firstn b l.
Proof.
  revert b l; induction a as [|a IH]; intros b l Hab.
  - now rewrite Nat.sub_0_r.
  - destruct b as [|b]; [lia|]. destruct l as [|x l]; simpl.
    + now rewrite firstn_nil.
    + rewrite IH by lia. reflexivity.
Qed.

Lemma placed_from_scan (line : str) (k n : nat) :
  k <= length line ->
  k + length (firstn n (skipn k line)) <= length line
  /\ substring k (k + length (firstn n (skipn k line))) line
     = firstn n (skipn k line).
Proof.
  intros Hk. split.
  - rewrite length_firstn, length_skipn. lia.
  - unfold substring.
    replace (k + length (firstn n (skipn k line)) - k)
      with (length (firstn n (skipn k line))) by lia.
    apply firstn_firstn_length.
Qed.

Lemma tagMatches_placed (line : str) (m : lmatch) :
  In m (tagMatches line) -> wellPlaced line m.
Proof.
  unfold tagMatches, execAll. intros H. apply in_map_iff in H as (r & <- & Hr).
  apply execFrom_In in Hr as (k & n & Hm & Hi & Ht & Hk).
  simpl in Hi. subst k.
  destruct (placed_from_scan line (m_index r) n Hk) as [P1 P2].
  rewrite <- Ht in P1, P2.
  unfold wellPlaced, matchText. simpl. repeat split; [lia | exact P1 |].
  rewrite P2, Ht. unfold tagRegex in Hm.
  destruct (skipn (m_index r) line) as [|c rest]; [discriminate|].
  destruct (isChar "#" c) eqn:Hc; [|discriminate].
  apply N.eqb_eq in Hc. subst c.
  destruct (takeWhile isTagChar rest); [discriminate|].
  injection Hm as <-. reflexivity.
Qed.

Lemma linkMatches_placed (line : str) (m : lmatch) :
  In m (linkMatches line) -> wellPlaced line m.
Proof.
  unfold linkMatches, execAll. intros H. apply in_map_iff in H as (r & <- & Hr).
  apply execFrom_In in Hr as (k & n & Hm & Hi & Ht & Hk).
  simpl in Hi. subst k.
  destruct (placed_from_scan line (m_index r) n Hk) as [P1 P2].
  rewrite <- Ht in P1, P2.
  unfold wellPlaced, matchText. simpl. repeat split; [lia | exact P1 | exact P2].
Qed.

Lemma sortedMatches_placed (line : str) (m : lmatch) :
  In m (sortedMatches line) -> wellPlaced line m.
Proof.
  unfold sortedMatches. intros H. apply sortByStart_In, in_app_or in H.
  destruct H; [now apply tagMatches_placed | now apply linkMatches_placed].
Qed.

Lemma sourceText_snoc (children : list node) (n : node) :
  concat (map sourceText (children ++ [n]))
  = concat (map sourceText children) ++ sourceText n.
Proof. rewrite map_app, concat_app. simpl. now rewrite app_nil_r. Qed.

(** The loop over matches in order keeps [children] spelling the line up
    to [lastIndex]. *)
Lemma addMatch_covers (line : str) (ms : list lmatch) :
  forall (children : list node) (lastIndex : nat),
    (forall m, In m ms -> wellPlaced line m) ->
    inOrder lastIndex ms = true ->
    lastIndex <= length line ->
    concat (map sourceText children) = firstn lastIndex line ->
    let (children', lastIndex') :=
      fold_left (addMatch line) ms (children, lastIndex) in
    lastIndex' <= length line
    /\ concat (map sourceText children') = firstn lastIndex' line.
Proof.
  induction ms as [|m ms IH]; intros children lastIndex Hall Hord Hlast Hcov.
  - simpl. now split.
  - simpl in Hord. apply andb_prop in Hord as [Hle Hord].
    apply Nat.leb_le in Hle.
    destruct (Hall m (or_introl eq_refl)) as (P1 & P2 & P3).
    cbn [fold_left]. unfold addMatch at 2.
    set (children1 := if lastIndex <? start m then _ else _).
    assert (E : concat (map sourceText children1) = firstn (start m) line).
    { subst children1. destruct (Nat.ltb_spec lastIndex (start m)) as [Hlt | Hge].
      - assert (G : concat (map sourceText children)
                      ++ substring lastIndex (start m) line
                    = firstn (start m) line)
          by (rewrite Hcov; apply firstn_extend; lia).
        destruct (substring lastIndex (start m) line) eqn:T; simpl.
        + now rewrite app_nil_r in G.
        + now rewrite sourceText_snoc.
      - replace (start m) with lastIndex by lia. exact Hcov. }
    assert (E' : forall n, sourceText n = matchText m ->
                   concat (map sourceText (children1 ++ [n]))
                   = firstn (end_ m) line).
    { intros n Hn. rewrite sourceText_snoc, E, Hn, <- P3.
      apply firstn_extend. exact P1. }
    unfold matchText in E'.
    destruct (type m); apply IH; auto; intros; apply Hall; now right.
Qed.

(** On a line whose matches, sorted, do not overlap, the spans of the
    tokenizer spell the line: the coverage the tokenizer is built for. *)
Lemma coverage_without_overlap (line : str) :
  inOrder 0 (sortedMatches line) = true ->
  concat (map sourceText (parseLineContent line)) = line.
Proof.
  intros Hord. unfold parseLineContent.
  pose proof (addMatch_covers line (sortedMatches line) [] 0
                (sortedMatches_placed line) Hord (Nat.le_0_l _) eq_refl) as H.
  destruct (fold_left (addMatch line) (sortedMatches line) ([], 0))
    as [children lastIndex].
  destruct H as [Hlast Hcov].
  set (children' := if lastIndex <? length line then _ else _).
  assert (E : concat (map sourceText children') = line).
  { subst children'. destruct (Nat.ltb_spec lastIndex (length line)) as [Hlt | Hge].
    - assert (G : concat (map sourceText children) ++ substringFrom lastIndex line
                  = line)
        by (rewrite Hcov; apply firstn_skipn).
      destruct (substringFrom lastIndex line) eqn:T; simpl.
      + now rewrite app_nil_r in G.
      + now rewrite sourceText_snoc.
    - rewrite Hcov. apply firstn_all2. exact Hge. }
  destruct children'; [|exact E]. simpl. apply app_nil_r.
Qed.

(** C2 fails where a hashtag lies inside an autolink, the one case the
    loop is not built for: in "http://a/#b/c d" the link covers characters
    0 to 13 and the tag 9 to 11, both are emitted, [lastIndex] steps back
    to 11, and the text from there on is emitted once more; the extents of
    the spans overlap and no longer spell the line. *)
Theorem C2_overlap_breaks_coverage :
  sortedMatches (lit "http://a/#b/c d")
    = [ {| type := link; start := 0; end_ := 13;
           content := lit "http://a/#b/c" |};
        {| type := tag; start := 9; end_ := 11; content := lit "b" |} ]
  /\ overlap {| type := link; start := 0; end_ := 13;
                content := lit "http://a/#b/c" |}
             {| type := tag; start := 9; end_ := 11; content := lit "b" |}
     = true
  /\ parseLineContent (lit "http://a/#b/c d")
     = [AUTO_LINK (lit "http://a/#b/c"); TAG (lit "b"); TEXT (lit "/c d")]
  /\ concat (map sourceText (parseLineContent (lit "http://a/#b/c d")))
     = lit "http://a/#b/c#b/c d"
  /\ concat (map sourceText (parseLineContent (lit "http://a/#b/c d")))
     <> lit "http://a/#b/c d".
Proof. repeat split. discriminate. Qed.

(** ** Scenarios of the specification *)

(** A code block with a language: one CODE_BLOCK node, which serializes
    back to the three lines. *)
Example code_block_fidelity :
  parseMarkdownToNodes
    (lit ("```js" ++ newline ++ "console.log(1)" ++ newline ++ "```"))
    = [CODE_BLOCK (lit "js") (lit "console.log(1)")]
  /\ convertContentToNodes
       (lit ("```js" ++ newline ++ "console.log(1)" ++ newline ++ "```"))
     = [CODE_BLOCK (lit "js") (lit "console.log(1)")]
  /\ restoreNodesToMarkdown [CODE_BLOCK (lit "js") (lit "console.log(1)")]
     = lit ("```js" ++ newline ++ "console.log(1)" ++ newline ++ "```").
Proof. repeat split. Qed.

(** A heading of level 2. *)
Example heading_scenario :
  parseMarkdownToNodes (lit "## Title") = [HEADING 2 [TEXT (lit "Title")]].
Proof. reflexivity. Qed.

(** * Further properties *)

(** ** The classifier *)

Lemma test_of_suffix (m : matcher) (pre suf : str) :
  m suf <> None -> test m (pre ++ suf) = true.
Proof.
  intros H. apply test_true_iff. now exists pre, suf.
Qed.

(** X1.  A text flagged for incomplete tasks is flagged for a task list: the
    empty box is one of the boxes. *)
Theorem incomplete_tasks_are_task_list (text : str) :
  hasIncompleteTasks (calculateMemoProperties text) = true ->
  hasTaskList (calculateMemoProperties text) = true.
Proof.
  simpl. intros H. apply test_true_iff in H as (pre & suf & -> & Hm).
  apply test_of_suffix. unfold litAt in Hm.
  destruct (startsWith (lit "- [ ]") suf) eqn:E; [|congruence].
  apply startsWith_inv in E. rewrite E. discriminate.
Qed.

Lemma incomplete_tasks_are_task_list_witness :
  hasTaskList (calculateMemoProperties (lit "- [ ] call home")) = true.
Proof.
  exact (incomplete_tasks_are_task_list (lit "- [ ] call home") eq_refl).
Defined.

(** X2.  [hasCode] says whether the text holds a backtick: the alternative of
    three backticks adds nothing. *)
Theorem hasCode_is_backtick (text : str) :
  hasCode (calculateMemoProperties text) = existsb (isChar "`") text.
Proof.
  simpl. induction text as [|c s IH]; [reflexivity|].
  cbn [test existsb]. rewrite <- IH. unfold backtickAt, litAt.
  cbn [lit list_ascii_of_string map startsWith]. unfold isChar, chr.
  change (N_of_ascii "`") with 96%N.
  destruct (c =? 96)%N eqn:E; cbn [andb].
  - destruct (match s with [] => false | c0 :: s' => _ end); reflexivity.
  - reflexivity.
Qed.

(** ** The shape of the tokens *)

Lemma firstn_takeWhile {A : Type} (p : A -> bool) (l : list A) :
  firstn (length (takeWhile p l)) l = takeWhile p l.
Proof.
  induction l as [|x l IH]; [reflexivity|]. simpl.
  destruct (p x); simpl; [now rewrite IH | reflexivity].
Qed.

(** The text of a tag match: [#] and a run of the tag alphabet that is
    not empty. *)
Lemma tagRegex_text (s : str) (n : nat) :
  tagRegex s = Some n ->
  exists run,
    firstn n s = chr "#" :: run /\ run <> [] /\ forallb isTagChar run = true.
Proof.
  unfold tagRegex. destruct s as [|c r]; [discriminate|].
  destruct (isChar "#" c) eqn:Hc; [|discriminate].
  apply N.eqb_eq in Hc. subst c.
  pose proof (firstn_takeWhile isTagChar r) as F.
  pose proof (takeWhile_forallb isTagChar r) as T.
  destruct (takeWhile isTagChar r) as [|d run] eqn:R; [discriminate|].
  intros [= <-]. exists (d :: run). cbn [length] in F.
  rewrite firstn_cons, F.
  repeat split; [discriminate | exact T].
Qed.

(** The text of a link match: a scheme and a run free of white space that
    is not empty. *)
Lemma linkRegex_text (s : str) (n : nat) :
  linkRegex s = Some n ->
  exists scheme run,
    (scheme = lit "http://" \/ scheme = lit "https://")
    /\ firstn n s = scheme ++ run /\ run <> [] /\ noSpace run = true.
Proof.
  unfold linkRegex.
  assert (G : forall scheme,
             startsWith scheme s = true ->
             match takeWhile (fun c => negb (isSpace c))
                     (skipn (length scheme) s) with
             | [] => None
             | d :: run => Some (length scheme + length (d :: run))
             end = Some n ->
             exists run,
               firstn n s = scheme ++ run /\ run <> [] /\ noSpace run = true).
  { intros scheme Hs H. apply startsWith_inv in Hs.
    pose proof (firstn_takeWhile (fun c => negb (isSpace c))
                  (skipn (length scheme) s)) as F.
    pose proof (takeWhile_forallb (fun c => negb (isSpace c))
                  (skipn (length scheme) s)) as T.
    destruct (takeWhile _ (skipn (length scheme) s)) as [|d run] eqn:R;
      [discriminate|].
    injection H as <-. exists (d :: run). cbn [length] in F.
    rewrite Hs at 1. rewrite firstn_app_2, F.
    repeat split; [discriminate | exact T]. }
  destruct (startsWith (lit "https://") s) eqn:E1.
  - intros H. destruct (G _ E1 H) as (run & A & B & C).
    exists (lit "https://"), run. auto.
  - destruct (startsWith (lit "http://") s) eqn:E2; [|discriminate].
    intros H. destruct (G _ E2 H) as (run & A & B & C).
    exists (lit "http://"), run. auto.
Qed.

Lemma tagMatches_wellFormed (line : str) (m : lmatch) :
  In m (tagMatches line) -> wellFormedInline (matchNode m) = true.
Proof.
  unfold tagMatches, execAll. intros H. apply in_map_iff in H as (r & <- & Hr).
  apply execFrom_In in Hr as (k & n & Hm & _ & Ht & _).
  apply tagRegex_text in Hm as (run & E & Hne & Hall).
  unfold matchNode. cbn. rewrite Ht, E. cbn [tl].
  destruct run; [contradiction|]. exact Hall.
Qed.

Lemma linkMatches_wellFormed (line : str) (m : lmatch) :
  In m (linkMatches line) -> wellFormedInline (matchNode m) = true.
Proof.
  unfold linkMatches, execAll. intros H. apply in_map_iff in H as (r & <- & Hr).
  apply execFrom_In in Hr as (k & n & Hm & _ & Ht & _).
  apply linkRegex_text in Hm as (scheme & run & Hs & E & Hne & Hall).
  unfold matchNode. cbn [type Tokenizer.content wellFormedInline].
  rewrite Ht, E. unfold noSpace in *. rewrite forallb_app, Hall, andb_true_r.
  destruct Hs as [-> | ->]; reflexivity.
Qed.

(** What the loop over the matches adds to [children]: text that is not
    empty, and the nodes of the matches. *)
Lemma addMatch_nodes (line : str) (ms : list lmatch) :
  forall (children : list node) (lastIndex : nat) (n : node),
    In n (fst (fold_left (addMatch line) ms (children, lastIndex))) ->
    In n children
    \/ (exists c, n = TEXT c /\ c <> [])
    \/ (exists m, In m ms /\ n = matchNode m).
Proof.
  induction ms as [|m ms IH]; intros children lastIndex n H; [now left|].
  cbn [fold_left] in H. unfold addMatch at 2 in H.
  set (children1 := if lastIndex <? start m then _ else _) in H.
  assert (E : forall x, In x children1 ->
                In x children \/ (exists c, x = TEXT c /\ c <> [])).
  { subst children1. intros x Hx.
    destruct (lastIndex <? start m); [|now left].
    destruct (substring lastIndex (start m) line) as [|d t] eqn:T;
      simpl in Hx; [now left|].
    apply in_app_or in Hx as [Hx | [<- | []]]; [now left | right].
    eexists. split; [reflexivity | discriminate]. }
  assert (G : In n (children1 ++ [matchNode m]) ->
              In n children
              \/ (exists c, n = TEXT c /\ c <> [])
              \/ (exists m', In m' (m :: ms) /\ n = matchNode m')).
  { intros Hn. apply in_app_or in Hn as [Hn | [<- | []]].
    - destruct (E n Hn) as [A | A]; auto.
    - right; right. exists m. split; [now left | reflexivity]. }
  unfold matchNode in G at 1.
  destruct (type m); apply IH in H as [H | [H | (m' & Hm' & ->)]];
    auto; right; right; exists m'; (split; [now right | reflexivity]).
Qed.

Lemma parseLineContent_nodes (line : str) (n : node) :
  line <> [] ->
  In n (parseLineContent line) ->
  (exists c, n = TEXT c /\ c <> [])
  \/ (exists m, In m (sortedMatches line) /\ n = matchNode m).
Proof.
  intros Hne. unfold parseLineContent.
  pose proof (addMatch_nodes line (sortedMatches line) [] 0 n) as H.
  destruct (fold_left (addMatch line) (sortedMatches line) ([], 0))
    as [children lastIndex].
  cbn [fst] in H.
  set (children' := if lastIndex <? length line then _ else _).
  assert (E : In n children' ->
              (exists c, n = TEXT c /\ c <> [])
              \/ (exists m, In m (sortedMatches line) /\ n = matchNode m)).
  { subst children'. intros Hn.
    assert (K : In n children ->
                (exists c, n = TEXT c /\ c <> [])
                \/ (exists m, In m (sortedMatches line) /\ n = matchNode m))
      by (intros Hc; destruct (H Hc) as [[] | [A | A]]; auto).
    destruct (lastIndex <? length line); [|auto].
    destruct (substringFrom lastIndex line) as [|d t] eqn:T; simpl in Hn;
      [auto|].
    apply in_app_or in Hn as [Hn | [<- | []]]; [auto | left].
    eexists. split; [reflexivity | discriminate]. }
  destruct children' as [|x l] eqn:C; [|exact E].
  intros [<- | []]. left. now exists line.
Qed.

Lemma parseLineContent_wellFormed (line : str) (n : node) :
  line <> [] -> In n (parseLineContent line) -> wellFormedInline n = true.
Proof.
  intros Hne H.
  destruct (parseLineContent_nodes line n Hne H)
    as [(c & -> & Hc) | (m & Hm & ->)].
  - destruct c; [contradiction | reflexivity].
  - unfold sortedMatches in Hm. apply sortByStart_In, in_app_or in Hm.
    destruct Hm; [now apply (tagMatches_wellFormed line)
                 | now apply (linkMatches_wellFormed line)].
Qed.

(** X3.  On a line that is not empty every node of the tokenizer is well
    formed: a TEXT that is not empty, a TAG whose name is not empty and of
    the tag alphabet, or an AUTO_LINK whose URL starts with "http://" or
    "https://" and holds no white space. *)
Theorem tokens_well_formed (line : str) (n : node) :
  line <> [] -> In n (parseLineContent line) -> wellFormedInline n = true.
Proof. exact (parseLineContent_wellFormed line n). Qed.

Lemma tokens_well_formed_witness :
  wellFormedInline (AUTO_LINK (lit "https://memos.example/a")) = true.
Proof.
  refine (tokens_well_formed (lit "read https://memos.example/a #later")
            (AUTO_LINK (lit "https://memos.example/a")) _ _).
  - discriminate.
  - simpl. auto.
Defined.

(** ** The shape of the documents of the API client *)

Lemma inline_child_ok (n : node) :
  wellFormedInline n = true ->
  match n with LINE_BREAK => true | _ => wellFormedInline n end = true.
Proof. destruct n; auto. Qed.

Lemma paragraphChildren_wellFormed (paragraphLines : list str) :
  forallb isParagraphLine paragraphLines = true ->
  forallb (fun c => match c with
                    | LINE_BREAK => true
                    | _ => wellFormedInline c
                    end) (paragraphChildren paragraphLines) = true.
Proof.
  assert (L : forall l, isParagraphLine l = true ->
                forallb (fun c => match c with
                                  | LINE_BREAK => true
                                  | _ => wellFormedInline c
                                  end) (parseLineContent l) = true).
  { intros l Hl. apply forallb_forall. intros n Hn.
    apply inline_child_ok.
    exact (parseLineContent_wellFormed l n
             (isParagraphLine_not_nil l Hl) Hn). }
  induction paragraphLines as [|l ls IH]; [reflexivity|].
  cbn [forallb]. intros H. apply andb_prop in H as [Hl Hls].
  destruct ls as [|l' ls]; [now apply L|].
  change (paragraphChildren (l :: l' :: ls))
    with (parseLineContent l ++ LINE_BREAK :: paragraphChildren (l' :: ls)).
  rewrite forallb_app, (L l Hl). cbn [forallb andb]. now apply IH.
Qed.

Lemma paragraphNodes_wellFormed (paragraphLines : list str) :
  forallb isParagraphLine paragraphLines = true ->
  forallb wellFormedBlock (paragraphNodes paragraphLines) = true.
Proof.
  intros H. apply paragraphChildren_wellFormed in H.
  unfold paragraphNodes. destruct paragraphLines; [reflexivity|].
  destruct (paragraphChildren _) eqn:E; [reflexivity|].
  cbn [forallb wellFormedBlock negb andb] in *. now rewrite H.
Qed.

(** X4.  Every node that [convertContentToNodes] returns is a CODE_BLOCK whose
    language is made of word characters, or a PARAGRAPH with at least one
    child, each child a LINE_BREAK or a well-formed token: no empty
    paragraph, no empty TEXT, no empty tag name, no URL without scheme. *)
Theorem convert_nodes_well_formed (text : str) :
  forallb wellFormedBlock (convertContentToNodes text) = true.
Proof.
  unfold convertContentToNodes.
  destruct (isEmpty text || isBlank text); [reflexivity|].
  apply (convertLines_ind
           (fun _ nodes => forallb wellFormedBlock nodes = true)).
  - reflexivity.
  - intros line rest _ after IH. cbn [forallb wellFormedBlock].
    unfold fenceLanguage. now rewrite takeWhile_forallb, IH.
  - intros line rest _ IH. exact IH.
  - intros line rest Hp after IH. rewrite forallb_app, IH, andb_true_r.
    apply paragraphNodes_wellFormed. cbn [forallb].
    now rewrite Hp, takeWhile_forallb.
Qed.

(** ** The classifier and the scanners on one text *)

(** A line of a text is a piece of the text. *)
Lemma join_nl_In (l : str) (ls : list str) :
  In l ls -> exists a b, join_nl ls = a ++ l ++ b.
Proof.
  induction ls as [|l0 ls IH]; [contradiction|].
  destruct ls as [|l1 ls].
  - intros [<- | []]. exists [], []. unfold join_nl. simpl.
    now rewrite app_nil_r.
  - rewrite join_nl_cons by discriminate. intros [<- | H].
    + exists [], (10%N :: join_nl (l1 :: ls)). reflexivity.
    + destruct (IH H) as (a & b & E). exists (l0 ++ 10%N :: a), b.
      rewrite E, <- app_assoc. reflexivity.
Qed.

Lemma line_in_text (l : str) (text : str) :
  In l (split_nl text) -> exists a b, text = a ++ l ++ b.
Proof.
  intros H. destruct (join_nl_In l (split_nl text) H) as (a & b & E).
  exists a, b. rewrite <- E. symmetry. apply join_split_nl.
Qed.

(** A match in a line is a match in the text, for an expression whose
    matches stay matches when the string goes on. *)
Lemma test_line_to_text (m : matcher) (l text : str) :
  (forall suf b, m suf <> None -> m (suf ++ b) <> None) ->
  In l (split_nl text) -> test m l = true -> test m text = true.
Proof.
  intros Hext Hl H. apply test_true_iff in H as (pre & suf & -> & Hm).
  destruct (line_in_text _ _ Hl) as (a & b & ->).
  rewrite <- app_assoc, app_assoc. apply test_of_suffix. now apply Hext.
Qed.

Lemma linkRegex_extends (suf b : str) :
  linkRegex suf <> None -> linkRegex (suf ++ b) <> None.
Proof.
  rewrite !linkRegex_some_iff. intros (scheme & c & post & -> & Hs & Hc).
  exists scheme, c, (post ++ b). rewrite <- app_assoc. auto.
Qed.

Lemma startsWith_extends (p suf b : str) :
  startsWith p suf = true -> startsWith p (suf ++ b) = true.
Proof.
  revert suf; induction p as [|x p IH]; intros [|c suf]; simpl;
    try reflexivity; try discriminate.
  intros H. apply andb_prop in H as [-> H]. now rewrite IH.
Qed.

Lemma litAt_extends (p suf b : str) :
  litAt p suf <> None -> litAt p (suf ++ b) <> None.
Proof.
  unfold litAt. destruct (startsWith p suf) eqn:E; [|congruence].
  now rewrite (startsWith_extends p suf b E).
Qed.

Lemma backtickAt_extends (suf b : str) :
  backtickAt suf <> None -> backtickAt (suf ++ b) <> None.
Proof.
  unfold backtickAt.
  destruct (litAt (lit "```") suf) eqn:E1.
  - intros _.
    assert (H : litAt (lit "```") (suf ++ b) <> None)
      by (apply litAt_extends; congruence).
    destruct (litAt (lit "```") (suf ++ b)); congruence.
  - intros H. apply (litAt_extends _ _ b) in H.
    destruct (litAt (lit "```") (suf ++ b)); [discriminate | exact H].
Qed.

Lemma checkboxAt_extends (suf b : str) :
  checkboxAt suf <> None -> checkboxAt (suf ++ b) <> None.
Proof.
  unfold checkboxAt.
  destruct suf as [|d [|sp [|lb [|box [|rb r]]]]]; try congruence. exact id.
Qed.

Lemma In_trim (c : N) (s : str) : In c (trim s) -> In c s.
Proof.
  unfold trim, trimEnd, trimStart. intros H.
  apply In_rev, In_dropWhile, In_rev, In_dropWhile in H. exact H.
Qed.

(** A fence line holds a backtick. *)
Lemma fence_has_backtick (l : str) : isFence l = true -> test backtickAt l = true.
Proof.
  unfold isFence. intros H.
  assert (Hin : In 96%N l).
  { apply In_trim. destruct (trim l) as [|c r]; [discriminate|].
    simpl in H. apply andb_prop in H as [Hc _]. apply N.eqb_eq in Hc.
    subst c. now left. }
  apply in_split in Hin as (pre & post & ->). apply test_of_suffix.
  unfold backtickAt.
  destruct (litAt (lit "```") (96%N :: post)); discriminate.
Qed.

Lemma convertLines_code_block (lines : list str) :
  existsb isCodeBlock (convertLines lines) = true ->
  existsb isFence lines = true.
Proof.
  apply (convertLines_ind
           (fun lines nodes =>
              existsb isCodeBlock nodes = true -> existsb isFence lines = true)).
  - discriminate.
  - intros line rest F after _ _. cbn [existsb]. now rewrite F.
  - intros line rest _ IH H. cbn [existsb]. rewrite (IH H). apply orb_true_r.
  - intros line rest _ after IH H. rewrite existsb_app in H.
    assert (N : existsb isCodeBlock
                  (paragraphNodes (line :: takeWhile isParagraphLine rest))
                = false).
    { unfold paragraphNodes. destruct (paragraphChildren _); reflexivity. }
    rewrite N in H. apply IH, existsb_exists in H as (l & Hl & Hf).
    cbn [existsb]. apply orb_true_iff. right.
    apply existsb_exists. exists l. split; [|exact Hf].
    now apply In_dropWhile in Hl.
Qed.

(** The link matches of a line lie at suffixes the link expression
    matches. *)
Lemma link_node_in_line (l url : str) :
  In url (flat_map linkUrls (parseLineContent l)) -> test linkRegex l = true.
Proof.
  intros H. apply in_flat_map in H as (n & Hn & Hu).
  destruct l as [|c0 l0]; [destruct Hn as [<- | []]; contradiction|].
  destruct (parseLineContent_nodes (c0 :: l0) n ltac:(discriminate) Hn)
    as [(c & -> & _) | (m & Hm & ->)]; [contradiction|].
  unfold sortedMatches in Hm. apply sortByStart_In, in_app_or in Hm.
  destruct Hm as [Hm | Hm].
  - unfold tagMatches in Hm. apply in_map_iff in Hm as (r & <- & _).
    contradiction.
  - unfold linkMatches, execAll in Hm. apply in_map_iff in Hm as (r & _ & Hr).
    apply execFrom_In in Hr as (k & n & Hk & _).
    rewrite <- (firstn_skipn k (c0 :: l0)). apply test_of_suffix. congruence.
Qed.

Lemma paragraphChildren_links (paragraphLines : list str) (url : str) :
  In url (flat_map linkUrls (paragraphChildren paragraphLines)) ->
  existsb (test linkRegex) paragraphLines = true.
Proof.
  induction paragraphLines as [|l ls IH]; [contradiction|].
  destruct ls as [|l' ls].
  - cbn [paragraphChildren existsb]. intros H.
    now rewrite (link_node_in_line l url H).
  - change (paragraphChildren (l :: l' :: ls))
      with (parseLineContent l ++ LINE_BREAK :: paragraphChildren (l' :: ls)).
    rewrite flat_map_app. intros H. apply in_app_or in H as [H | H].
    + cbn [existsb]. now rewrite (link_node_in_line l url H).
    + change (existsb (test linkRegex) (l :: l' :: ls))
        with (test linkRegex l || existsb (test linkRegex) (l' :: ls)).
      rewrite (IH H). apply orb_true_r.
Qed.

Lemma convertLines_links (url : str) (lines : list str) :
  In url (documentLinks (convertLines lines)) ->
  existsb (test linkRegex) lines = true.
Proof.
  apply (convertLines_ind
           (fun lines nodes =>
              In url (documentLinks nodes) ->
              existsb (test linkRegex) lines = true)).
  - contradiction.
  - intros line rest _ after IH H. apply IH, existsb_exists in H as (l & Hl & Hm).
    cbn [existsb]. apply orb_true_iff. right. apply existsb_exists.
    exists l. split; [|exact Hm]. now apply In_tl, In_dropWhile in Hl.
  - intros line rest _ IH H. cbn [existsb]. rewrite (IH H). apply orb_true_r.
  - intros line rest _ after IH H. unfold documentLinks in H.
    rewrite flat_map_app in H. apply in_app_or in H as [H | H].
    + assert (K : In url (flat_map linkUrls
                            (paragraphChildren
                               (line :: takeWhile isParagraphLine rest)))).
      { unfold paragraphNodes in H.
        destruct (paragraphChildren _); [contradiction|].
        cbn [flat_map linkUrls] in H. now rewrite app_nil_r in H. }
      apply paragraphChildren_links, existsb_exists in K as (l & Hl & Hm).
      apply existsb_exists. exists l. split; [|exact Hm].
      destruct Hl as [<- | Hl]; [now left | right].
      now apply In_takeWhile in Hl.
    + apply IH, existsb_exists in H as (l & Hl & Hm).
      cbn [existsb]. apply orb_true_iff. right. apply existsb_exists.
      exists l. split; [|exact Hm]. now apply In_dropWhile in Hl.
Qed.

Lemma test_some_line (m : matcher) (text : str) :
  (forall suf b, m suf <> None -> m (suf ++ b) <> None) ->
  existsb (test m) (split_nl text) = true -> test m text = true.
Proof.
  intros Hext H. apply existsb_exists in H as (l & Hl & Hm).
  exact (test_line_to_text m l text Hext Hl Hm).
Qed.

(** X5.  The object built for a memo is consistent: when its nodes hold a
    CODE_BLOCK its property says [hasCode], and when they hold an
    AUTO_LINK its property says [hasLink]. *)
Theorem memo_view_consistent (memoContent : option str) :
  (existsb isCodeBlock (MemoView.nodes (MemoView.format memoContent)) = true ->
   hasCode (MemoView.property (MemoView.format memoContent)) = true)
  /\ (forall url : str,
        In url (documentLinks (MemoView.nodes (MemoView.format memoContent))) ->
        hasLink (MemoView.property (MemoView.format memoContent)) = true).
Proof.
  unfold MemoView.format. cbn [MemoView.nodes MemoView.property].
  set (text := match memoContent with Some c => c | None => [] end).
  cbn [hasCode hasLink calculateMemoProperties].
  unfold convertContentToNodes.
  destruct (isEmpty text || isBlank text);
    [split; [discriminate | contradiction]|].
  split.
  - intros H. apply convertLines_code_block, existsb_exists in H
      as (l & Hl & Hf).
    exact (test_line_to_text backtickAt l text backtickAt_extends Hl
             (fence_has_backtick l Hf)).
  - intros url H. apply convertLines_links in H.
    exact (test_some_line linkRegex text linkRegex_extends H).
Qed.

Lemma memo_view_consistent_witness :
  hasCode (MemoView.property
             (MemoView.format
                (Some (lit ("see https://a.example" ++ newline ++ "```"
                            ++ newline ++ "x")))))
  = true
  /\ hasLink (MemoView.property
                (MemoView.format
                   (Some (lit ("see https://a.example" ++ newline ++ "```"
                               ++ newline ++ "x")))))
     = true.
Proof.
  split.
  - exact (proj1 (memo_view_consistent
                    (Some (lit ("see https://a.example" ++ newline ++ "```"
                                ++ newline ++ "x")))) eq_refl).
  - refine (proj2 (memo_view_consistent
                     (Some (lit ("see https://a.example" ++ newline ++ "```"
                                 ++ newline ++ "x"))))
              (lit "https://a.example") _).
    simpl. auto.
Defined.

(** ** The line-by-line scanner, line by line *)

(** Induction over the loop of [parseLines]: from the empty suffix, over a
    code block and over one line. *)
Lemma parseLines_ind (P : list str -> list node -> Prop) :
  P [] [] ->
  (forall line rest,
      isFence line = true ->
      let after := tl (dropWhile (fun l => negb (isFence l)) rest) in
      P after (parseLines after) ->
      P (line :: rest)
        (CODE_BLOCK (substringFrom 3 (trim line))
           (join_nl (takeWhile (fun l => negb (isFence l)) rest))
           :: parseLines after)) ->
  (forall line rest,
      isFence line = false ->
      P rest (parseLines rest) ->
      P (line :: rest) (lineNodes line ++ parseLines rest)) ->
  forall lines, P lines (parseLines lines).
Proof.
  intros Hnil Hcode Hline lines.
  remember (length lines) as n eqn:Hn.
  assert (Hle : length lines <= n) by lia. clear Hn.
  revert lines Hle. induction n as [|n IH]; intros [|line rest] Hle;
    simpl in Hle; try exact Hnil; try lia.
  destruct (isFence line) eqn:F.
  - rewrite (parseLines_fence line rest F), codeLinesLoop_spec by reflexivity.
    apply (Hcode line rest F). apply IH.
    pose proof (tl_length (dropWhile (fun l => negb (isFence l)) rest)).
    pose proof (dropWhile_length (fun l => negb (isFence l)) rest). lia.
  - rewrite (parseLines_line line rest F).
    apply (Hline line rest F). apply IH. lia.
Qed.

(** The inline-code branch never comes out empty: the piece the code
    expression matched is a CODE child. *)
Lemma firstn_run_then {A : Type} (a : list A) (x : A) (rest : list A) :
  firstn (S (length a)) (a ++ x :: rest) = a ++ [x].
Proof.
  induction a as [|y a IH]; [reflexivity|].
  cbn [length app]. rewrite firstn_cons. f_equal. exact IH.
Qed.

Lemma dropWhile_head {A : Type} (p : A -> bool) (l : list A) (x : A)
    (rest : list A) :
  dropWhile p l = x :: rest -> p x = false.
Proof.
  induction l as [|y l IH]; [discriminate|]. simpl.
  destruct (p y) eqn:E; [exact IH | congruence].
Qed.

Lemma skipn_takeWhile_length {A : Type} (p : A -> bool) (l : list A) :
  skipn (length (takeWhile p l)) l = dropWhile p l.
Proof.
  induction l as [|x l IH]; [reflexivity|]. simpl.
  destruct (p x); [exact IH | reflexivity].
Qed.

Lemma codeAt_text (s : str) (n : nat) :
  codeAt s = Some n ->
  exists run, firstn n s = 96%N :: run ++ [96%N].
Proof.
  unfold codeAt. destruct s as [|c r]; [discriminate|].
  destruct (isChar "`" c) eqn:Hc; [|discriminate].
  apply N.eqb_eq in Hc. subst c.
  pose proof (takeWhile_dropWhile (fun d => negb (isChar "`" d)) r) as TD.
  rewrite <- (skipn_takeWhile_length (fun d => negb (isChar "`" d)) r) in TD.
  destruct (takeWhile (fun d => negb (isChar "`" d)) r) as [|d run] eqn:R;
    [discriminate|].
  pose proof (skipn_takeWhile_length (fun d => negb (isChar "`" d)) r) as SK.
  rewrite R in SK.
  destruct (skipn (length (d :: run)) r) as [|e rest] eqn:D; [discriminate|].
  symmetry in SK. apply dropWhile_head in SK.
  apply negb_false_iff, N.eqb_eq in SK. subst e.
  intros [= <-]. exists (d :: run). rewrite <- TD.
  exact (f_equal (cons 96%N) (firstn_run_then (d :: run) 96%N rest)).
Qed.

Lemma codePart_of_match (run : str) :
  codePart (96%N :: run ++ [96%N]) = [CODE run].
Proof.
  unfold codePart, endsWith. cbn [lit list_ascii_of_string map rev app].
  change (N_of_ascii "`") with 96%N.
  rewrite (app_comm_cons run [96%N] 96%N), rev_app_distr.
  cbn [rev app startsWith]. rewrite N.eqb_refl. cbn [andb].
  unfold slice1m1. cbn [tl]. now rewrite removelast_last.
Qed.

Lemma split_has_code (s : str) :
  test codeAt s = true ->
  forall piece, flat_map codePart (splitFrom codeAt piece 0 s) <> [].
Proof.
  induction s as [|c s IH]; [discriminate|].
  cbn [test splitFrom]. destruct (codeAt (c :: s)) as [n|] eqn:E.
  - intros _ piece. apply codeAt_text in E as (run & E).
    rewrite E. cbn [flat_map]. rewrite codePart_of_match.
    destruct (codePart piece); discriminate.
  - intros H piece. now apply IH.
Qed.

(** Outside a code block every line gives exactly one node. *)
Lemma lineNodes_single (line : str) : length (lineNodes line) = 1.
Proof.
  unfold lineNodes.
  destruct (taskMatch line) as [[[? ?] ?]|]; [reflexivity|].
  destruct (bulletMatch line) as [[? ?]|]; [reflexivity|].
  destruct (orderedMatch line) as [[[? ?] ?]|]; [reflexivity|].
  destruct (headingMatch line) as [[? ?]|]; [reflexivity|].
  destruct (test codeAt line) eqn:T.
  - pose proof (split_has_code line T []) as H. unfold splitCapture.
    destruct (flat_map codePart (splitFrom codeAt [] 0 line));
      [contradiction | reflexivity].
  - destruct (negb (isEmpty (trim line))); reflexivity.
Qed.

(** X6.  [parseMarkdownToNodes] gives at least one node and at most one node
    for each line; for a text without a fence line, exactly one node for
    each line, blank lines included. *)
Theorem parse_one_node_per_line (text : str) :
  1 <= length (parseMarkdownToNodes text) <= length (split_nl text)
  /\ (forallb (fun l => negb (isFence l)) (split_nl text) = true ->
      length (parseMarkdownToNodes text) = length (split_nl text)).
Proof.
  unfold parseMarkdownToNodes.
  pose proof (split_nl_not_nil text) as Hne.
  assert (U : forall lines,
             length (parseLines lines) <= length lines
             /\ (lines <> [] -> 1 <= length (parseLines lines))
             /\ (forallb (fun l => negb (isFence l)) lines = true ->
                 length (parseLines lines) = length lines)).
  { apply (parseLines_ind
             (fun lines nodes =>
                length nodes <= length lines
                /\ (lines <> [] -> 1 <= length nodes)
                /\ (forallb (fun l => negb (isFence l)) lines = true ->
                    length nodes = length lines))).
    - split; [simpl; lia | split; [congruence | reflexivity]].
    - intros line rest F after (IH & _ & _). cbn [length forallb].
      rewrite F. cbn [negb andb].
      pose proof (tl_length (dropWhile (fun l => negb (isFence l)) rest)) as T.
      pose proof (dropWhile_length (fun l => negb (isFence l)) rest) as D.
      fold after in T.
      split; [lia | split; [intros _; lia | discriminate]].
    - intros line rest F (IH & _ & IH3). rewrite length_app, lineNodes_single.
      cbn [length forallb]. rewrite F. cbn [negb andb].
      split; [lia | split; [intros _; lia |]].
      intros H. now rewrite (IH3 H). }
  destruct (U (split_nl text)) as (A & B & C). auto.
Qed.

Lemma parse_one_node_per_line_witness :
  length (parseMarkdownToNodes
            (lit ("# Title" ++ newline ++ newline ++ "- item `c`")))
  = length (split_nl (lit ("# Title" ++ newline ++ newline ++ "- item `c`"))).
Proof.
  exact (proj2 (parse_one_node_per_line
                  (lit ("# Title" ++ newline ++ newline ++ "- item `c`")))
           eq_refl).
Defined.

(** A TASK_LIST_ITEM comes from a line the task expression matches. *)
Lemma lineNodes_task (line : str) (n : node) :
  In n (lineNodes line) -> isTaskItem n = true ->
  exists ws box c,
    taskMatch line = Some (ws, box, c)
    /\ n = TASK_LIST_ITEM (length ws / 2) (isChar "x" (toLowerCase box))
                          [TEXT c].
Proof.
  unfold lineNodes.
  destruct (taskMatch line) as [[[ws box] c]|].
  { intros [<- | []] _. now exists ws, box, c. }
  destruct (bulletMatch line) as [[? ?]|];
    [intros [<- | []]; discriminate|].
  destruct (orderedMatch line) as [[[? ?] ?]|];
    [intros [<- | []]; discriminate|].
  destruct (headingMatch line) as [[? ?]|];
    [intros [<- | []]; discriminate|].
  destruct (test codeAt line).
  - destruct (flat_map codePart _); [contradiction|].
    intros [<- | []]; discriminate.
  - destruct (negb (isEmpty (trim line))); intros [<- | []]; discriminate.
Qed.

(** Where the task expression matches, the box expressions of the
    classifier match behind the white space. *)
Lemma taskMatch_checkbox (line ws : str) (box : N) (c : str) :
  taskMatch line = Some (ws, box, c) ->
  test checkboxAt line = true
  /\ (isChar "x" (toLowerCase box) = false ->
      test (litAt (lit "- [ ]")) line = true).
Proof.
  unfold taskMatch.
  rewrite <- (firstn_skipn (length (takeWhile isSpace line)) line) at 3 4.
  destruct (skipn (length (takeWhile isSpace line)) line)
    as [|d [|sp [|lb [|bx [|rb [|sp2 rest]]]]]]; try discriminate.
  destruct (isChar "-" d && isChar " " sp && isChar "[" lb
            && (isChar " " bx || isChar "x" bx || isChar "X" bx)
            && isChar "]" rb && isChar " " sp2) eqn:E; [|discriminate].
  intros [= _ <- _].
  apply andb_prop in E as [E Hsp2]. apply andb_prop in E as [E Hrb].
  apply andb_prop in E as [E Hbox]. apply andb_prop in E as [E Hlb].
  apply andb_prop in E as [Hd Hsp].
  apply N.eqb_eq in Hsp2, Hrb, Hlb, Hd, Hsp. subst d sp lb rb sp2.
  split.
  - apply test_of_suffix. unfold checkboxAt.
    change (isChar "-" (chr "-")) with true.
    change (isChar " " (chr " ")) with true.
    change (isChar "[" (chr "[")) with true.
    change (isChar "]" (chr "]")) with true. cbn [andb].
    rewrite Hbox. discriminate.
  - intros Hopen. apply test_of_suffix.
    assert (bx = 32%N) as ->.
    { apply orb_prop in Hbox as [Hbox | Hbox];
        [apply orb_prop in Hbox as [Hbox | Hbox]|];
        apply N.eqb_eq in Hbox; subst bx;
        [reflexivity | discriminate Hopen | discriminate Hopen]. }
    discriminate.
Qed.

Lemma parseLines_task_items (lines : list str) :
  (existsb isTaskItem (parseLines lines) = true ->
   existsb (test checkboxAt) lines = true)
  /\ (existsb isOpenTaskItem (parseLines lines) = true ->
      existsb (test (litAt (lit "- [ ]"))) lines = true).
Proof.
  apply (parseLines_ind
           (fun lines nodes =>
              (existsb isTaskItem nodes = true ->
               existsb (test checkboxAt) lines = true)
              /\ (existsb isOpenTaskItem nodes = true ->
                  existsb (test (litAt (lit "- [ ]"))) lines = true))).
  - split; discriminate.
  - intros line rest _ after [IH1 IH2].
    assert (K : forall m, existsb (test m) after = true ->
                  existsb (test m) (line :: rest) = true).
    { intros m H. apply existsb_exists in H as (l & Hl & Hm).
      apply existsb_exists. exists l. split; [|exact Hm].
      right. now apply In_tl, In_dropWhile in Hl. }
    split; intros H; apply K; [apply IH1 | apply IH2]; exact H.
  - intros line rest _ [IH1 IH2].
    split; intros H; rewrite existsb_app in H; cbn [existsb];
      apply orb_true_iff; apply orb_prop in H as [H | H];
      try (right; auto; fail); left;
      apply existsb_exists in H as (n & Hn & Ht).
    + destruct (lineNodes_task line n Hn Ht) as (ws & box & c & Hm & _).
      exact (proj1 (taskMatch_checkbox line ws box c Hm)).
    + assert (Ht' : isTaskItem n = true) by (destruct n; auto).
      destruct (lineNodes_task line n Hn Ht') as (ws & box & c & Hm & ->).
      apply (proj2 (taskMatch_checkbox line ws box c Hm)).
      simpl in Ht. destruct (isChar "x" (toLowerCase box)); congruence.
Qed.

(** X7.  When [parseMarkdownToNodes] finds a task item in a text, the
    classifier flags the text with [hasTaskList]; when it finds a task
    item that is not complete, with [hasIncompleteTasks]. *)
Theorem task_items_are_flagged (text : str) :
  (existsb isTaskItem (parseMarkdownToNodes text) = true ->
   hasTaskList (calculateMemoProperties text) = true)
  /\ (existsb isOpenTaskItem (parseMarkdownToNodes text) = true ->
      hasIncompleteTasks (calculateMemoProperties text) = true).
Proof.
  unfold parseMarkdownToNodes.
  cbn [hasTaskList hasIncompleteTasks calculateMemoProperties].
  destruct (parseLines_task_items (split_nl text)) as [A B].
  split; intros H.
  - exact (test_some_line checkboxAt text checkboxAt_extends (A H)).
  - exact (test_some_line (litAt (lit "- [ ]")) text
             (litAt_extends (lit "- [ ]")) (B H)).
Qed.

Lemma task_items_are_flagged_witness :
  hasTaskList
    (calculateMemoProperties (lit ("plan" ++ newline ++ "  - [ ] write")))
  = true
  /\ hasIncompleteTasks
       (calculateMemoProperties (lit ("plan" ++ newline ++ "  - [ ] write")))
     = true.
Proof.
  split.
  - exact (proj1 (task_items_are_flagged
                    (lit ("plan" ++ newline ++ "  - [ ] write"))) eq_refl).
  - exact (proj2 (task_items_are_flagged
                    (lit ("plan" ++ newline ++ "  - [ ] write"))) eq_refl).
Defined.

(** ** The content of a code block *)

Lemma join_nl_merge (a l : str) (ls : list str) :
  join_nl ((a ++ 10%N :: l) :: ls) = a ++ 10%N :: join_nl (l :: ls).
Proof.
  destruct ls as [|l' ls].
  - reflexivity.
  - rewrite !join_nl_cons by discriminate. now rewrite <- app_assoc.
Qed.

Lemma addCodeLine_started (ls : list str) :
  forall codeContent : str,
    codeContent <> [] ->
    fold_left addCodeLine ls codeContent = join_nl (codeContent :: ls).
Proof.
  induction ls as [|l ls IH]; intros cc Hcc; [reflexivity|].
  cbn [fold_left]. unfold addCodeLine at 2.
  destruct cc as [|c cc]; [contradiction|]. cbn [isEmpty].
  rewrite IH by (destruct cc; discriminate).
  rewrite <- app_assoc. apply join_nl_merge.
Qed.

(** [codeContent] only starts to collect newlines once it is not empty, so
    the empty lines at the head of a code block leave no trace. *)
Lemma addCodeLine_fold (ls : list str) :
  fold_left addCodeLine ls [] = join_nl (dropWhile isEmpty ls).
Proof.
  induction ls as [|l ls IH]; [reflexivity|].
  cbn [fold_left dropWhile]. destruct l as [|c l]; [exact IH|].
  cbn [isEmpty]. unfold addCodeLine at 2. cbn [isEmpty app].
  now apply addCodeLine_started.
Qed.

(** X8.  The content of a code block of [convertContentToNodes] is made of the
    lines up to the next fence or the end, joined by newlines, without the
    empty lines at its head; [parseMarkdownToNodes] keeps those lines. *)
Theorem code_block_drops_leading_empty_lines (line : str) (rest : list str) :
  isFence line = true ->
  convertLines (line :: rest)
  = CODE_BLOCK (fenceLanguage line)
      (join_nl (dropWhile isEmpty
                  (takeWhile (fun l => negb (isFence l)) rest)))
      :: convertLines (tl (dropWhile (fun l => negb (isFence l)) rest))
  /\ parseLines (line :: rest)
     = CODE_BLOCK (substringFrom 3 (trim line))
         (join_nl (takeWhile (fun l => negb (isFence l)) rest))
         :: parseLines (tl (dropWhile (fun l => negb (isFence l)) rest)).
Proof.
  intros F. split.
  - rewrite (convertLines_fence line rest F), codeBlockLoop_spec
      by reflexivity.
    now rewrite addCodeLine_fold.
  - now rewrite (parseLines_fence line rest F), codeLinesLoop_spec
      by reflexivity.
Qed.

Lemma code_block_drops_leading_empty_lines_witness :
  convertLines (lit "```" :: [[]; []; lit "x"; []; lit "```"])
  = [CODE_BLOCK [] (lit ("x" ++ newline))]
  /\ parseLines (lit "```" :: [[]; []; lit "x"; []; lit "```"])
     = [CODE_BLOCK [] (lit (newline ++ newline ++ "x" ++ newline))].
Proof.
  exact (code_block_drops_leading_empty_lines (lit "```")
           [[]; []; lit "x"; []; lit "```"] eq_refl).
Defined.

(** ** From nodes to text and back *)

Lemma split_nl_app (a b : str) :
  split_nl (a ++ 10%N :: b) = split_nl a ++ split_nl b.
Proof.
  induction a as [|c a IH]; [reflexivity|].
  cbn [app split_nl]. rewrite IH.
  destruct (c =? 10)%N; [reflexivity|].
  pose proof (split_nl_not_nil a) as Hne.
  destruct (split_nl a); [contradiction | reflexivity].
Qed.

Lemma split_join_nl (ls : list str) :
  ls <> [] -> split_nl (join_nl ls) = flat_map split_nl ls.
Proof.
  induction ls as [|l ls IH]; [contradiction|]. intros _.
  destruct ls as [|l' ls].
  - cbn [flat_map]. now rewrite app_nil_r.
  - rewrite join_nl_cons by discriminate.
    rewrite split_nl_app, IH by discriminate. reflexivity.
Qed.

Lemma noNewline_split (l : str) : noNewline l = true -> split_nl l = [l].
Proof. apply split_nl_single. Qed.

Lemma noLineTerminator_noNewline (s : str) :
  noLineTerminator s = true -> noNewline s = true.
Proof.
  unfold noLineTerminator, noNewline. rewrite !forallb_forall.
  intros H c Hc. specialize (H c Hc). unfold isLineTerminator in H.
  destruct (c =? 10)%N; [discriminate | reflexivity].
Qed.

Lemma dotStar_all (s : str) : noLineTerminator s = true -> dotStar s = s.
Proof. apply takeWhile_all. Qed.

Lemma extractText_single (c : str) : extractTextFromChildren [TEXT c] = c.
Proof. unfold extractTextFromChildren. simpl. apply app_nil_r. Qed.

(** The indentation the serializer writes. *)
Lemma indent_spaces (indent : nat) :
  forallb isSpace (repeatStr (lit "  ") indent) = true
  /\ noNewline (repeatStr (lit "  ") indent) = true
  /\ length (repeatStr (lit "  ") indent) / 2 = indent.
Proof.
  assert (L : length (repeatStr (lit "  ") indent) = indent * 2).
  { induction indent as [|k IH]; [reflexivity|].
    cbn [repeatStr]. rewrite length_app, IH. simpl. lia. }
  split; [|split].
  - clear L. induction indent as [|k IH]; [reflexivity|]. exact IH.
  - clear L. induction indent as [|k IH]; [reflexivity|]. exact IH.
  - rewrite L. apply Nat.div_mul. discriminate.
Qed.

Lemma hashes_run (level : nat) :
  forallb (isChar "#") (repeatStr (lit "#") level) = true
  /\ noNewline (repeatStr (lit "#") level) = true
  /\ length (repeatStr (lit "#") level) = level.
Proof.
  split; [|split]; induction level as [|k IH]; try reflexivity;
    try exact IH. cbn [repeatStr]. rewrite length_app, IH. reflexivity.
Qed.

(** A line whose first character behind the white space is no hyphen is no
    task item and no bullet. *)
Lemma no_hyphen_no_item (ws : str) (d : N) (r : str) :
  forallb isSpace ws = true -> isSpace d = false -> isChar "-" d = false ->
  taskMatch (ws ++ d :: r) = None /\ bulletMatch (ws ++ d :: r) = None.
Proof.
  intros Hws Hd Hh. unfold taskMatch, bulletMatch.
  rewrite (takeWhile_stop isSpace ws d r Hws Hd).
  rewrite skipn_app, skipn_all, Nat.sub_diag. cbn [app skipn].
  rewrite Hh. cbn [andb].
  destruct r as [|sp [|lb [|box [|rb [|sp2 rest]]]]]; now split.
Qed.

Lemma line_not_fence (ws : str) (d : N) (r : str) :
  forallb isSpace ws = true -> isSpace d = false -> isChar "`" d = false ->
  isFence (ws ++ d :: r) = false.
Proof.
  intros Hws Hd Hb. destruct (trim_head ws d r Hws Hd) as [r' Hr].
  unfold isFence. rewrite Hr. cbn [fence lit list_ascii_of_string map].
  cbn [startsWith]. unfold isChar, chr in Hb. now rewrite Hb.
Qed.

Lemma noNewline_app (a b : str) :
  noNewline (a ++ b) = noNewline a && noNewline b.
Proof. apply forallb_app. Qed.

(** The line of a task item is read back as the item. *)
Lemma task_line_back (indent : nat) (complete : bool) (c : str) :
  noLineTerminator c = true ->
  let line := repeatStr (lit "  ") indent ++ lit "- "
                ++ (if complete then lit "[x]" else lit "[ ]") ++ lit " " ++ c in
  noNewline line = true /\ isFence line = false
  /\ lineNodes line = [TASK_LIST_ITEM indent complete [TEXT c]].
Proof.
  intros Hc line. destruct (indent_spaces indent) as (S1 & S2 & S3).
  pose proof (noLineTerminator_noNewline c Hc) as Hn.
  assert (E : line = repeatStr (lit "  ") indent ++ lit "- ["
                       ++ (if complete then chr "x" else chr " ")
                       :: lit "] " ++ c)
    by (subst line; destruct complete; reflexivity).
  split; [|split].
  - subst line. rewrite noNewline_app, S2. destruct complete; exact Hn.
  - rewrite E. apply (line_not_fence _ (chr "-")); auto.
  - rewrite E. unfold lineNodes.
    rewrite (taskMatch_task_line _ _ c S1)
      by (destruct complete; auto).
    rewrite S3, (dotStar_all c Hc). destruct complete; reflexivity.
Qed.

Lemma lineNodes_bullet (line ws c : str) :
  taskMatch line = None -> bulletMatch line = Some (ws, c) ->
  lineNodes line = [UNORDERED_LIST_ITEM (length ws / 2) [TEXT c]].
Proof. intros T B. unfold lineNodes. now rewrite T, B. Qed.

Lemma lineNodes_ordered (line ws digits c : str) :
  taskMatch line = None -> bulletMatch line = None ->
  orderedMatch line = Some (ws, digits, c) ->
  lineNodes line = [ORDERED_LIST_ITEM digits (length ws / 2) [TEXT c]].
Proof. intros T B O. unfold lineNodes. now rewrite T, B, O. Qed.

Lemma lineNodes_heading (line hashes c : str) :
  taskMatch line = None -> bulletMatch line = None ->
  orderedMatch line = None -> headingMatch line = Some (hashes, c) ->
  lineNodes line = [HEADING (length hashes) [TEXT c]].
Proof. intros T B O H. unfold lineNodes. now rewrite T, B, O, H. Qed.

(** The line of a bullet item is read back as the item, unless its text
    starts like the box of a task item. *)
Lemma bullet_line_back (indent : nat) (c : str) :
  noLineTerminator c = true -> startsWithBox c = false ->
  let line := repeatStr (lit "  ") indent ++ lit "- " ++ c in
  noNewline line = true /\ isFence line = false
  /\ lineNodes line = [UNORDERED_LIST_ITEM indent [TEXT c]].
Proof.
  intros Hc Hbox line. destruct (indent_spaces indent) as (S1 & S2 & S3).
  pose proof (noLineTerminator_noNewline c Hc) as Hn.
  assert (E : line = repeatStr (lit "  ") indent ++ chr "-" :: chr " " :: c)
    by reflexivity.
  assert (K : skipn (length (takeWhile isSpace line)) line
              = chr "-" :: chr " " :: c
              /\ takeWhile isSpace line = repeatStr (lit "  ") indent).
  { rewrite E, (takeWhile_stop isSpace _ (chr "-") _ S1 eq_refl).
    now rewrite skipn_app, skipn_all, Nat.sub_diag. }
  destruct K as [K1 K2].
  split; [|split].
  - subst line. rewrite noNewline_app, S2. exact Hn.
  - rewrite E. apply (line_not_fence _ (chr "-")); auto.
  - rewrite <- S3 at 1. rewrite <- K2.
    apply lineNodes_bullet.
    + unfold taskMatch. rewrite K1.
      destruct c as [|lb [|box [|rb [|sp rest]]]]; try reflexivity.
      unfold startsWithBox in Hbox.
      change (isChar "-" (chr "-")) with true.
      change (isChar " " (chr " ")) with true. cbn [andb].
      now rewrite Hbox.
    + unfold bulletMatch. rewrite K1.
      change (isChar "-" (chr "-")) with true.
      change (isChar " " (chr " ")) with true. cbn [andb].
      now rewrite (dotStar_all c Hc).
Qed.

Lemma digit_class (d : N) :
  isDigit d = true ->
  isSpace d = false /\ isChar "-" d = false /\ isChar "`" d = false
  /\ isLineTerminator d = false.
Proof.
  unfold isDigit, inRange. intros H. apply andb_prop in H as [H1 H2].
  apply N.leb_le in H1, H2.
  unfold isSpace, isLineTerminator, isChar, inRange.
  change (chr "-") with 45%N. change (chr "`") with 96%N.
  repeat match goal with
         | |- context [(?a =? ?b)%N] =>
             destruct (N.eqb_spec a b); [lia|]
         | |- context [(?a <=? ?b)%N] =>
             destruct (N.leb_spec a b)
         end; try lia; cbn; auto.
Qed.

(** The line of a numbered item is read back as the item. *)
Lemma ordered_line_back (indent : nat) (number c : str) :
  isEmpty number = false -> forallb isDigit number = true ->
  noLineTerminator c = true ->
  let line := repeatStr (lit "  ") indent ++ number ++ lit ". " ++ c in
  noNewline line = true /\ isFence line = false
  /\ lineNodes line = [ORDERED_LIST_ITEM number indent [TEXT c]].
Proof.
  intros Hne Hd Hc line. destruct (indent_spaces indent) as (S1 & S2 & S3).
  pose proof (noLineTerminator_noNewline c Hc) as Hn.
  destruct number as [|d ds]; [discriminate|].
  assert (Hd0 : isDigit d = true) by (simpl in Hd; now destruct (isDigit d)).
  destruct (digit_class d Hd0) as (D1 & D2 & D3 & D4).
  assert (E : line = repeatStr (lit "  ") indent
                       ++ d :: (ds ++ chr "." :: chr " " :: c))
    by reflexivity.
  assert (Hnum : noNewline (d :: ds) = true).
  { apply noLineTerminator_noNewline. unfold noLineTerminator.
    rewrite forallb_forall in *. intros x Hx.
    now destruct (digit_class x (Hd x Hx)) as (_ & _ & _ & ->). }
  split; [|split].
  - subst line. now rewrite !noNewline_app, S2, Hnum, Hn.
  - rewrite E. apply (line_not_fence _ d); auto.
  - destruct (no_hyphen_no_item _ d (ds ++ chr "." :: chr " " :: c) S1 D1 D2)
      as [T B].
    rewrite <- E in T, B. rewrite <- S3 at 1.
    assert (K : takeWhile isSpace line = repeatStr (lit "  ") indent)
      by (rewrite E; now apply takeWhile_stop).
    rewrite <- K. apply (lineNodes_ordered line _ _ _ T B).
    unfold orderedMatch. cbv zeta. rewrite K.
    rewrite E, skipn_app, skipn_all, Nat.sub_diag. cbn [app skipn].
    change (d :: ds ++ chr "." :: chr " " :: c)
      with ((d :: ds) ++ chr "." :: chr " " :: c).
    rewrite (takeWhile_stop isDigit (d :: ds) (chr ".") _ Hd eq_refl).
    cbv beta iota.
    rewrite skipn_app, skipn_all, Nat.sub_diag. cbn [app skipn].
    change (isChar "." (chr ".")) with true.
    change (isChar " " (chr " ")) with true. cbn [andb].
    now rewrite (dotStar_all c Hc).
Qed.

(** The line of a heading of level one to six is read back as the
    heading. *)
Lemma heading_line_back (level : nat) (c : str) :
  (1 <=? level) && (level <=? 6) = true -> noLineTerminator c = true ->
  let line := repeatStr (lit "#") (if level =? 0 then 1 else level)
                ++ lit " " ++ c in
  noNewline line = true /\ isFence line = false
  /\ lineNodes line = [HEADING level [TEXT c]].
Proof.
  intros Hl Hc. destruct level as [|k]; [discriminate|].
  intros line. cbn [Nat.eqb] in line.
  destruct (hashes_run (S k)) as (H1 & H2 & H3).
  pose proof (noLineTerminator_noNewline c Hc) as Hn.
  assert (E : line = [] ++ chr "#" :: (repeatStr (lit "#") k ++ chr " " :: c)).
  { subst line. cbn [repeatStr]. now rewrite <- app_assoc. }
  assert (K : takeWhile (isChar "#") line = repeatStr (lit "#") (S k)).
  { subst line. now apply takeWhile_stop. }
  split; [|split].
  - subst line. now rewrite noNewline_app, H2.
  - rewrite E. now apply line_not_fence.
  - destruct (no_hyphen_no_item [] (chr "#")
                (repeatStr (lit "#") k ++ chr " " :: c)
                eq_refl eq_refl eq_refl) as [T B].
    rewrite <- E in T, B. rewrite <- H3 at 1. rewrite <- K.
    apply (lineNodes_heading line _ _ T B).
    + rewrite E. reflexivity.
    + unfold headingMatch. cbv zeta. rewrite K, H3, Hl.
      subst line. rewrite <- H3 at 1.
      rewrite skipn_app, skipn_all, Nat.sub_diag. cbn [app skipn].
      change (lit " " ++ c) with (chr " " :: c). cbv iota.
      change (isChar " " (chr " ")) with true. cbv iota.
      now rewrite (dotStar_all c Hc).
Qed.

(** A fence line with a language that ends clean is its own trimmed
    form. *)
Lemma fence_line_trim (language : str) :
  endsClean language = true ->
  trim (fence ++ language) = fence ++ language.
Proof.
  intros H. unfold trim, trimStart, trimEnd.
  change (dropWhile isSpace (fence ++ language)) with (fence ++ language).
  rewrite rev_app_distr. unfold endsClean in H.
  destruct (rev language) as [|x r] eqn:R.
  - apply (f_equal (@rev N)) in R. rewrite rev_involutive in R.
    subst language. reflexivity.
  - cbn [app dropWhile]. apply negb_true_iff in H. rewrite H.
    change (x :: r ++ rev fence) with ((x :: r) ++ rev fence).
    now rewrite <- R, <- rev_app_distr, rev_involutive.
Qed.

(** The three lines of a code block are read back as the block, when the
    content holds no fence line. *)
Lemma code_lines_back (language content : str) (tail : list str) :
  endsClean language = true ->
  forallb (fun l => negb (isFence l)) (split_nl content) = true ->
  parseLines ((fence ++ language) :: split_nl content ++ fence :: tail)
  = CODE_BLOCK language content :: parseLines tail.
Proof.
  intros Hl Hc.
  assert (F : isFence (fence ++ language) = true).
  { unfold isFence. now rewrite (fence_line_trim language Hl). }
  rewrite (parseLines_fence _ _ F), codeLinesLoop_spec by reflexivity.
  rewrite (fence_line_trim language Hl).
  rewrite (takeWhile_stop _ _ fence tail Hc eq_refl).
  rewrite (dropWhile_stop _ _ fence tail Hc eq_refl).
  cbn [app tl]. now rewrite join_split_nl.
Qed.

(** What the serializer writes for a canonical node, the line-by-line
    scanner reads back as that node. *)
Lemma canonical_lines_back (n : node) (tail : list str) :
  canonical n = true ->
  parseLines (flat_map split_nl (nodeLines n) ++ tail)
  = n :: parseLines tail.
Proof.
  intros C.
  assert (one : forall line,
             noNewline line = true /\ isFence line = false
             /\ lineNodes line = [n] ->
             parseLines (flat_map split_nl [line] ++ tail)
             = n :: parseLines tail).
  { intros line (N1 & N2 & N3). cbn [flat_map].
    rewrite (noNewline_split line N1). cbn [app].
    now rewrite (parseLines_line line tail N2), N3. }
  destruct n as [t| | | | |ch|lv ch|lang ct|ind ch|num ind ch|ind cp ch];
    try discriminate.
  - apply (one []). repeat split.
  - destruct ch as [|[t| | | | | | | | | |] [|]]; try discriminate.
    cbn [canonical] in C. apply andb_prop in C as [C1 C2].
    cbn [nodeLines]. rewrite extractText_single.
    apply one. split; [exact C1|]. now apply isPlainLine_lineNodes.
  - destruct ch as [|[t| | | | | | | | | |] [|]]; try discriminate.
    cbn [canonical] in C. apply andb_prop in C as [C1 C2].
    cbn [nodeLines]. rewrite extractText_single.
    apply one. now apply heading_line_back.
  - cbn [canonical] in C. apply andb_prop in C as [C1 C3].
    apply andb_prop in C1 as [C1 C2].
    cbn [nodeLines flat_map]. rewrite app_nil_r.
    rewrite (noNewline_split (fence ++ lang)).
    2:{ rewrite noNewline_app. exact C1. }
    change (split_nl fence) with [fence]. rewrite <- !app_assoc.
    cbn [app]. now apply code_lines_back.
  - destruct ch as [|[t| | | | | | | | | |] [|]]; try discriminate.
    cbn [canonical] in C. apply andb_prop in C as [C1 C2].
    apply negb_true_iff in C2.
    cbn [nodeLines]. rewrite extractText_single.
    apply one. now apply bullet_line_back.
  - destruct ch as [|[t| | | | | | | | | |] [|]]; try discriminate.
    cbn [canonical] in C. apply andb_prop in C as [C1 C3].
    apply andb_prop in C1 as [C1 C2]. apply negb_true_iff in C1.
    cbn [nodeLines]. rewrite extractText_single.
    apply one. now apply ordered_line_back.
  - destruct ch as [|[t| | | | | | | | | |] [|]]; try discriminate.
    cbn [canonical] in C.
    cbn [nodeLines]. rewrite extractText_single.
    apply one. now apply task_line_back.
Qed.

Lemma canonical_document_back (nodes : list node) :
  forallb canonical nodes = true ->
  parseLines (flat_map split_nl (flat_map nodeLines nodes)) = nodes.
Proof.
  induction nodes as [|n nodes IH]; [reflexivity|].
  cbn [forallb flat_map]. intros H. apply andb_prop in H as [Hn Hs].
  rewrite flat_map_app, (canonical_lines_back n _ Hn). now rewrite IH.
Qed.

Lemma canonical_has_lines (n : node) :
  canonical n = true -> nodeLines n <> [].
Proof. destruct n; try discriminate; intros _; discriminate. Qed.

(** X9.  Serializing a document of canonical nodes and scanning the text line
    by line gives the document back: a task item, bullet item, numbered
    item, heading or paragraph with one TEXT child that holds no line
    terminator (a bullet text not starting like a check box, a number of
    digits, a level from one to six, a paragraph line that is plain), a
    code block whose language ends clean and whose content holds no fence
    line, or a line break. The empty document comes back as one line
    break. *)
Theorem restore_then_parse (nodes : list node) :
  forallb canonical nodes = true ->
  parseMarkdownToNodes (restoreNodesToMarkdown nodes)
  = match nodes with [] => [LINE_BREAK] | _ => nodes end.
Proof.
  intros H. destruct nodes as [|n nodes]; [reflexivity|].
  unfold parseMarkdownToNodes, restoreNodesToMarkdown.
  rewrite split_join_nl.
  - now apply canonical_document_back.
  - cbn [forallb] in H. apply andb_prop in H as [Hn _].
    cbn [flat_map]. pose proof (canonical_has_lines n Hn).
    destruct (nodeLines n); [contradiction | discriminate].
Qed.

Lemma restore_then_parse_witness :
  let nodes :=
    [HEADING 2 [TEXT (lit "Plan")];
     TASK_LIST_ITEM 1 true [TEXT (lit "done")];
     UNORDERED_LIST_ITEM 0 [TEXT (lit "item")];
     ORDERED_LIST_ITEM (lit "12") 2 [TEXT (lit "step")];
     LINE_BREAK;
     CODE_BLOCK (lit "js") (lit "let a = 1;");
     PARAGRAPH [TEXT (lit "the end")]] in
  forallb canonical nodes = true
  /\ parseMarkdownToNodes (restoreNodesToMarkdown nodes) = nodes.
Proof.
  intros nodes. split; [reflexivity|].
  exact (restore_then_parse nodes eq_refl).
Defined.

(** ** The documents of the line-by-line scanner are canonical *)

Lemma split_nl_noNewline (s : str) : forallb noNewline (split_nl s) = true.
Proof.
  induction s as [|c s IH]; [reflexivity|]. cbn [split_nl].
  destruct (c =? 10)%N eqn:E; [exact IH|].
  destruct (split_nl s) as [|l ls]; cbn [forallb noNewline] in *.
  - now rewrite E.
  - unfold noNewline at 1. cbn [forallb]. rewrite E. exact IH.
Qed.

Section Sublists.

Context {A : Type} (p q : A -> bool).

Lemma forallb_takeWhile (l : list A) :
  forallb q l = true -> forallb q (takeWhile p l) = true.
Proof.
  induction l as [|x l IH]; [reflexivity|]. cbn [forallb takeWhile].
  intros H. apply andb_prop in H as [Hx Hl].
  destruct (p x); [|reflexivity]. cbn [forallb]. now rewrite Hx, IH.
Qed.

Lemma forallb_dropWhile (l : list A) :
  forallb q l = true -> forallb q (dropWhile p l) = true.
Proof.
  induction l as [|x l IH]; [reflexivity|]. cbn [forallb dropWhile].
  intros H. destruct (p x); [|exact H].
  apply andb_prop in H as [_ Hl]. now apply IH.
Qed.

Lemma forallb_tl (l : list A) : forallb q l = true -> forallb q (tl l) = true.
Proof.
  destruct l as [|x l]; [reflexivity|]. cbn [forallb tl].
  intros H. now apply andb_prop in H as [_ Hl].
Qed.

Lemma forallb_rev (l : list A) : forallb q (rev l) = forallb q l.
Proof.
  induction l as [|x l IH]; [reflexivity|]. cbn [rev forallb].
  rewrite forallb_app, IH. cbn [forallb]. rewrite andb_true_r.
  apply andb_comm.
Qed.

End Sublists.

Lemma trim_endsClean (s : str) : endsClean (trim s) = true.
Proof.
  unfold endsClean, trim, trimEnd. rewrite rev_involutive.
  destruct (dropWhile isSpace (rev (trimStart s))) as [|x r] eqn:E;
    [reflexivity|].
  now rewrite (dropWhile_head _ _ _ _ E).
Qed.

Lemma trim_noNewline (s : str) : noNewline s = true -> noNewline (trim s) = true.
Proof.
  intros H. unfold noNewline, trim, trimEnd, trimStart in *.
  rewrite forallb_rev. apply forallb_dropWhile. rewrite forallb_rev.
  now apply forallb_dropWhile.
Qed.

(** The language of a fence line holds no newline and ends clean. *)
Lemma fence_language (line : str) :
  noNewline line = true -> isFence line = true ->
  noNewline (substringFrom 3 (trim line)) = true
  /\ endsClean (substringFrom 3 (trim line)) = true.
Proof.
  intros Hn F. unfold isFence in F. apply startsWith_inv in F.
  change (length fence) with 3 in F. unfold substringFrom.
  pose proof (trim_noNewline line Hn) as T1.
  pose proof (trim_endsClean line) as T2.
  rewrite F in T1, T2. rewrite noNewline_app in T1.
  split; [exact T1|].
  unfold endsClean in *. rewrite rev_app_distr in T2.
  destruct (rev (skipn 3 (trim line))); [reflexivity | exact T2].
Qed.

(** The content of a code block holds no fence line. *)
Lemma code_content_no_fence (ls : list str) :
  forallb noNewline ls = true ->
  forallb (fun l => negb (isFence l))
    (split_nl (join_nl (takeWhile (fun l => negb (isFence l)) ls))) = true.
Proof.
  intros H.
  pose proof (takeWhile_forallb (fun l => negb (isFence l)) ls) as T.
  pose proof (forallb_takeWhile (fun l => negb (isFence l)) noNewline ls H)
    as Hn.
  destruct (takeWhile (fun l => negb (isFence l)) ls) as [|l code] eqn:E;
    [reflexivity|].
  rewrite split_join_nl by discriminate.
  assert (S : forall xs, forallb noNewline xs = true ->
                         flat_map split_nl xs = xs).
  { induction xs as [|x xs IH]; [reflexivity|]. cbn [forallb flat_map].
    intros Hx. apply andb_prop in Hx as [Hx Hxs].
    now rewrite (noNewline_split x Hx), IH. }
  now rewrite (S _ Hn).
Qed.

(** The groups of the line expressions. *)
Lemma taskMatch_content (line ws : str) (box : N) (c : str) :
  taskMatch line = Some (ws, box, c) -> noLineTerminator c = true.
Proof.
  unfold taskMatch.
  destruct (skipn _ line) as [|d [|sp [|lb [|b [|rb [|sp2 rest]]]]]];
    try discriminate.
  destruct (_ && _); [|discriminate]. intros [= _ _ <-].
  apply takeWhile_forallb.
Qed.

Lemma bulletMatch_content (line ws c : str) :
  taskMatch line = None -> bulletMatch line = Some (ws, c) ->
  noLineTerminator c = true /\ startsWithBox c = false.
Proof.
  unfold taskMatch, bulletMatch.
  destruct (skipn _ line) as [|d [|sp rest]]; try discriminate.
  destruct (isChar "-" d && isChar " " sp); [|discriminate].
  cbn [andb]. intros T [= _ <-].
  split; [apply takeWhile_forallb|].
  destruct rest as [|lb [|b [|rb [|sp2 rest]]]]; try reflexivity;
    unfold dotStar; cbn [takeWhile];
    repeat match goal with
           | |- context [isLineTerminator ?x] =>
               destruct (isLineTerminator x); try reflexivity
           end.
  cbn [negb startsWithBox].
  destruct (isChar "[" lb && (isChar " " b || isChar "x" b || isChar "X" b)
            && isChar "]" rb && isChar " " sp2); [discriminate | reflexivity].
Qed.

Lemma orderedMatch_content (line ws digits c : str) :
  orderedMatch line = Some (ws, digits, c) ->
  isEmpty digits = false /\ forallb isDigit digits = true
  /\ noLineTerminator c = true.
Proof.
  unfold orderedMatch.
  pose proof (takeWhile_forallb isDigit
                (skipn (length (takeWhile isSpace line)) line)) as D.
  destruct (takeWhile isDigit _) as [|x run]; [discriminate|].
  destruct (skipn _ _) as [|dot [|sp rest]]; try discriminate.
  destruct (_ && _); [|discriminate]. intros [= _ <- <-].
  split; [reflexivity | split; [exact D | apply takeWhile_forallb]].
Qed.

Lemma headingMatch_content (line hashes c : str) :
  headingMatch line = Some (hashes, c) ->
  (1 <=? length hashes) && (length hashes <=? 6) = true
  /\ noLineTerminator c = true.
Proof.
  unfold headingMatch.
  destruct ((1 <=? _) && (_ <=? 6)) eqn:L; [|discriminate].
  destruct (skipn _ line) as [|sp rest]; [discriminate|].
  destruct (isChar " " sp); [|discriminate]. intros [= <- <-].
  split; [exact L | apply takeWhile_forallb].
Qed.

(** The node of a line that is no inline-code line is canonical. *)
Lemma lineNodes_canonical (line : str) :
  noNewline line = true -> isFence line = false ->
  isInlineCodeLine line = false ->
  forallb canonical (lineNodes line) = true.
Proof.
  intros Hn F I. unfold isInlineCodeLine in I. rewrite F in I.
  unfold lineNodes.
  destruct (taskMatch line) as [[[ws box] c]|] eqn:T.
  { cbn [forallb canonical]. now rewrite (taskMatch_content _ _ _ _ T). }
  destruct (bulletMatch line) as [[ws c]|] eqn:B.
  { destruct (bulletMatch_content _ _ _ T B) as [B1 B2].
    cbn [forallb canonical]. now rewrite B1, B2. }
  destruct (orderedMatch line) as [[[ws digits] c]|] eqn:O.
  { destruct (orderedMatch_content _ _ _ _ O) as (O1 & O2 & O3).
    cbn [forallb canonical]. now rewrite O1, O2, O3. }
  destruct (headingMatch line) as [[hashes c]|] eqn:H.
  { destruct (headingMatch_content _ _ _ H) as [H1 H2].
    cbn [forallb canonical]. now rewrite H1, H2. }
  cbn [negb andb] in I. rewrite I.
  destruct (isEmpty (trim line)) eqn:E; [reflexivity|].
  cbn [negb forallb canonical]. rewrite Hn, andb_true_r. cbn [andb].
  unfold isPlainLine, isBlank. now rewrite F, T, B, O, H, I, E.
Qed.

Lemma parseLines_canonical (lines : list str) :
  forallb noNewline lines = true ->
  forallb (fun l => negb (isInlineCodeLine l)) lines = true ->
  forallb canonical (parseLines lines) = true.
Proof.
  apply (parseLines_ind
           (fun lines nodes =>
              forallb noNewline lines = true ->
              forallb (fun l => negb (isInlineCodeLine l)) lines = true ->
              forallb canonical nodes = true)).
  - reflexivity.
  - intros line rest F after IH Hn Hi. cbn [forallb] in *.
    apply andb_prop in Hn as [Hn Hns]. apply andb_prop in Hi as [_ His].
    destruct (fence_language line Hn F) as [L1 L2].
    cbn [canonical]. rewrite L1, L2, (code_content_no_fence rest Hns).
    cbn [andb]. apply IH; apply forallb_tl, forallb_dropWhile; assumption.
  - intros line rest F IH Hn Hi. cbn [forallb] in *.
    apply andb_prop in Hn as [Hn Hns]. apply andb_prop in Hi as [Hi His].
    apply negb_true_iff in Hi.
    rewrite forallb_app, (lineNodes_canonical line Hn F Hi). now apply IH.
Qed.

(** X10.  For a text without inline-code line, the document of the
    line-by-line scanner is canonical, so serializing it and scanning
    again gives the same document: the scanner and the serializer lose
    nothing further after the first pass. *)
Theorem parse_restore_parse (text : str) :
  forallb (fun l => negb (isInlineCodeLine l)) (split_nl text) = true ->
  forallb canonical (parseMarkdownToNodes text) = true
  /\ parseMarkdownToNodes (restoreNodesToMarkdown (parseMarkdownToNodes text))
     = parseMarkdownToNodes text.
Proof.
  intros H.
  assert (C : forallb canonical (parseMarkdownToNodes text) = true)
    by (apply parseLines_canonical; [apply split_nl_noNewline | exact H]).
  split; [exact C|].
  unfold parseMarkdownToNodes at 1. unfold restoreNodesToMarkdown.
  rewrite split_join_nl; [now apply canonical_document_back|].
  unfold parseMarkdownToNodes in *.
  pose proof (split_nl_not_nil text) as Hne.
  destruct (split_nl text) as [|line rest]; [contradiction|].
  cbn [parseLines] in *. destruct (isFence line).
  - rewrite codeLinesLoop_spec by reflexivity. discriminate.
  - pose proof (lineNodes_single line) as L1.
    destruct (lineNodes line) as [|n ns]; [discriminate|].
    cbn [app forallb flat_map] in *. apply andb_prop in C as [Cn _].
    pose proof (canonical_has_lines n Cn).
    destruct (nodeLines n); [contradiction | discriminate].
Qed.

Lemma parse_restore_parse_witness :
  parseMarkdownToNodes
    (restoreNodesToMarkdown
       (parseMarkdownToNodes
          (lit ("   - [X] a" ++ newline ++ "```" ++ newline ++ "x"))))
  = parseMarkdownToNodes
      (lit ("   - [X] a" ++ newline ++ "```" ++ newline ++ "x")).
Proof.
  exact (proj2 (parse_restore_parse
                  (lit ("   - [X] a" ++ newline ++ "```" ++ newline ++ "x"))
                  eq_refl)).
Defined.

(** ** The content filters of the backend and the classifier *)

Lemma like_run_nil (pattern : str) :
  matchPattern (chr "%" :: pattern) [] = matchPattern pattern [].
Proof. cbn. apply orb_false_r. Qed.

Lemma like_run_cons (pattern : str) (c : N) (s : str) :
  matchPattern (chr "%" :: pattern) (c :: s)
  = matchPattern pattern (c :: s) || matchPattern (chr "%" :: pattern) s.
Proof. reflexivity. Qed.

Lemma like_run_all (s : str) : matchPattern [chr "%"] s = true.
Proof.
  induction s as [|c s IH]; [reflexivity|].
  now rewrite like_run_cons, IH, orb_true_r.
Qed.

(** A run may pass any prefix. *)
Lemma like_run_prefix (pattern pre s : str) :
  matchPattern pattern s = true ->
  matchPattern (chr "%" :: pattern) (pre ++ s) = true.
Proof.
  intros H. induction pre as [|c pre IH]; cbn [app].
  - destruct s; [now rewrite like_run_nil|].
    now rewrite like_run_cons, H.
  - now rewrite like_run_cons, IH, orb_true_r.
Qed.

(** A literal character that is no letter stands for itself only. *)
Lemma foldCase_plain (p c : N) :
  inRange 65 90 p = false -> inRange 97 122 p = false ->
  (foldCase c =? foldCase p)%N = (c =? p)%N.
Proof.
  unfold foldCase, inRange. intros U L. rewrite L.
  destruct ((97 <=? c) && (c <=? 122))%N eqn:E;
    [|reflexivity].
  apply andb_prop in E as [E1 E2]. apply N.leb_le in E1, E2.
  apply andb_false_iff in U. apply andb_false_iff in L.
  destruct (N.eqb_spec (c - 32) p) as [Heq|Hne];
    destruct (N.eqb_spec c p) as [Heq'|Hne']; try reflexivity; exfalso.
  - destruct U as [U|U]; apply N.leb_gt in U; lia.
  - destruct L as [L|L]; apply N.leb_gt in L; lia.
Qed.

Lemma like_plain (p : N) (pattern : str) (c : N) (s : str) :
  isChar "%" p = false ->
  inRange 65 90 p = false -> inRange 97 122 p = false ->
  matchPattern (p :: pattern) (c :: s) = (c =? p)%N && matchPattern pattern s.
Proof.
  intros P U L. cbn [matchPattern]. rewrite P. now rewrite foldCase_plain.
Qed.

(** The patterns of the source against a string without U+0000, and the
    expressions of the classifier on that string. *)
Lemma patterns_select_flagged (text : str) :
  (test linkRegex text = true -> matchPattern (lit "%http%") text = true)
  /\ (test checkboxAt text = true ->
      matchPattern (lit "%- [%]%") text = true)
  /\ matchPattern (lit "%```%") text || matchPattern (lit "%`%") text
     = test backtickAt text
  /\ matchPattern (lit "%- [ ]%") text = test (litAt (lit "- [ ]")) text.
Proof.
  split; [|split; [|split]].
  - intros H. apply test_true_iff in H as (pre & suf & -> & Hm).
    apply like_run_prefix.
    assert (S : startsWith (lit "http") suf = true).
    { unfold linkRegex in Hm.
      destruct (startsWith (lit "https://") suf) eqn:E1.
      - apply startsWith_inv in E1. now rewrite E1.
      - destruct (startsWith (lit "http://") suf) eqn:E2; [|congruence].
        apply startsWith_inv in E2. now rewrite E2. }
    apply startsWith_inv in S. rewrite S.
    cbn. apply like_run_all.
  - intros H. apply test_true_iff in H as (pre & suf & -> & Hm).
    apply like_run_prefix.
    unfold checkboxAt in Hm.
    destruct suf as [|d [|sp [|lb [|box [|rb rest]]]]]; try congruence.
    destruct (isChar "-" d && isChar " " sp && isChar "[" lb
              && (isChar " " box || isChar "x" box || isChar "X" box)
              && isChar "]" rb) eqn:E; [|congruence].
    repeat (apply andb_prop in E as [E ?]).
    repeat match goal with
           | H : isChar _ _ = true |- _ => apply N.eqb_eq in H; subst
           end.
    change (lit "- [%]%") with (chr "-" :: chr " " :: chr "[" :: lit "%]%").
    rewrite !like_plain by reflexivity. rewrite !N.eqb_refl. cbn [andb].
    apply (like_run_prefix (lit "]%") [box] (chr "]" :: rest)).
    change (lit "]%") with (chr "]" :: [chr "%"]).
    rewrite like_plain by reflexivity.
    now rewrite N.eqb_refl, like_run_all.
  - induction text as [|c s IH]; [reflexivity|].
    change (lit "%```%") with (chr "%" :: lit "```%") in *.
    change (lit "%`%") with (chr "%" :: lit "`%") in *.
    rewrite !like_run_cons.
    change (lit "`%") with (chr "`" :: [chr "%"]).
    change (lit "```%") with (chr "`" :: lit "``%").
    rewrite !like_plain by reflexivity. rewrite like_run_all, andb_true_r.
    cbn [test]. unfold backtickAt, litAt.
    cbn [lit list_ascii_of_string map startsWith].
    change (N_of_ascii "`") with (chr "`").
    destruct (c =? chr "`")%N eqn:E; cbn [andb orb].
    + rewrite orb_true_r.
      destruct (match s with [] => false | c0 :: s' => _ end); reflexivity.
    + exact IH.
  - induction text as [|c s IH]; [reflexivity|].
    change (lit "%- [ ]%") with (chr "%" :: lit "- [ ]%") in *.
    rewrite like_run_cons, IH. cbn [test].
    assert (M : litAt (lit "- [ ]") (c :: s)
                = if startsWith (lit "- [ ]") (c :: s) then Some 5 else None)
      by reflexivity.
    rewrite M. clear M.
    assert (E : matchPattern (lit "- [ ]%") (c :: s)
                = startsWith (lit "- [ ]") (c :: s)).
    { change (lit "- [ ]%")
        with (chr "-" :: chr " " :: chr "[" :: chr " " :: chr "]"
                :: [chr "%"]).
      change (lit "- [ ]")
        with (chr "-" :: chr " " :: chr "[" :: chr " " :: [chr "]"]).
      destruct s as [|c1 [|c2 [|c3 [|c4 s]]]];
        cbn [startsWith]; rewrite ?like_plain by reflexivity;
        try (cbn; now rewrite ?andb_false_r).
      now rewrite like_run_all, !andb_true_r. }
    rewrite E. destruct (startsWith (lit "- [ ]") (c :: s)); reflexivity.
Qed.


(** X11.  The filters of the backend see the content up to its first
    U+0000.  On what they see they select every memo the classifier flags,
    and exactly the flagged memos where the flag is for code or for
    incomplete tasks; so they do on every content that holds no U+0000. *)
Theorem filters_select_flagged (text : str) :
  ((hasLink (calculateMemoProperties (upToNul text)) = true ->
    hasLinkFilter text = true)
   /\ (hasTaskList (calculateMemoProperties (upToNul text)) = true ->
       hasTaskListFilter text = true)
   /\ hasCodeFilter text = hasCode (calculateMemoProperties (upToNul text))
   /\ undoFilter text
      = hasIncompleteTasks (calculateMemoProperties (upToNul text)))
  /\ (noNul text = true ->
      (hasLink (calculateMemoProperties text) = true ->
       hasLinkFilter text = true)
      /\ (hasTaskList (calculateMemoProperties text) = true ->
          hasTaskListFilter text = true)
      /\ hasCodeFilter text = hasCode (calculateMemoProperties text)
      /\ undoFilter text = hasIncompleteTasks (calculateMemoProperties text)).
Proof.
  assert (G : forall seen,
             upToNul text = seen ->
             (hasLink (calculateMemoProperties seen) = true ->
              hasLinkFilter text = true)
             /\ (hasTaskList (calculateMemoProperties seen) = true ->
                 hasTaskListFilter text = true)
             /\ hasCodeFilter text = hasCode (calculateMemoProperties seen)
             /\ undoFilter text
                = hasIncompleteTasks (calculateMemoProperties seen)).
  { intros seen E.
    unfold hasLinkFilter, hasTaskListFilter, hasCodeFilter, undoFilter, like.
    rewrite E.
    cbn [hasLink hasTaskList hasCode hasIncompleteTasks
           calculateMemoProperties].
    apply patterns_select_flagged. }
  split; [now apply G|].
  intros H. apply G. now apply takeWhile_all.
Qed.

Lemma filters_select_flagged_witness :
  hasLinkFilter (lit "see https://a.io and - [x] it") = true
  /\ hasTaskListFilter (lit "see https://a.io and - [x] it") = true.
Proof.
  destruct (proj2 (filters_select_flagged
                     (lit "see https://a.io and - [x] it")) eq_refl)
    as (L & T & _).
  split; [exact (L eq_refl) | exact (T eq_refl)].
Defined.

(** The converse fails for links and for task lists: the filters also
    select memos the classifier does not flag. *)
Example filters_select_more :
  hasLinkFilter (lit "HTTP is a protocol") = true
  /\ hasLink (calculateMemoProperties (lit "HTTP is a protocol")) = false
  /\ hasTaskListFilter (lit "- [later] a]") = true
  /\ hasTaskList (calculateMemoProperties (lit "- [later] a]")) = false.
Proof. repeat split. Qed.

(** Behind a U+0000 the filters see nothing, and the classifier does. *)
Example filters_stop_at_nul :
  hasLinkFilter (lit "x" ++ 0%N :: lit "http://y ` - [ ]") = false
  /\ hasTaskListFilter (lit "x" ++ 0%N :: lit "http://y ` - [ ]") = false
  /\ hasCodeFilter (lit "x" ++ 0%N :: lit "http://y ` - [ ]") = false
  /\ undoFilter (lit "x" ++ 0%N :: lit "http://y ` - [ ]") = false
  /\ calculateMemoProperties (lit "x" ++ 0%N :: lit "http://y ` - [ ]")
     = {| hasLink := true; hasTaskList := true; hasCode := true;
          hasIncompleteTasks := true |}.
Proof. repeat split. Qed.

(** ** Coverage, exactly *)

Lemma inOrder_weaken (lo lo' : nat) (ms : list lmatch) :
  lo' <= lo -> inOrder lo ms = true -> inOrder lo' ms = true.
Proof.
  destruct ms as [|m ms]; [reflexivity|]. cbn [inOrder]. intros Hle H.
  apply andb_prop in H as [H1 H2]. apply Nat.leb_le in H1.
  rewrite H2, andb_true_r. apply Nat.leb_le. lia.
Qed.

(** The matches of one scan come in order. *)
Lemma execFrom_inOrder (f : rmatch -> lmatch) (mt : matcher) (s : str) :
  (forall r, start (f r) = m_index r
             /\ end_ (f r) = m_index r + length (m_text r)) ->
  forall skip pos,
    inOrder (pos + skip) (map f (execFrom mt skip pos s)) = true.
Proof.
  intros Hf. induction s as [|c s IH]; intros skip pos; [reflexivity|].
  cbn [execFrom]. destruct skip as [|k].
  - destruct (mt (c :: s)) as [n|] eqn:E.
    + cbn [map inOrder]. destruct (Hf {| m_index := pos;
                                         m_text := firstn n (c :: s) |})
        as [Hs He].
      cbn [m_index m_text] in Hs, He. rewrite Hs, He.
      apply andb_true_intro. split; [apply Nat.leb_le; lia|].
      apply (inOrder_weaken (S pos + pred n)); [|apply IH].
      pose proof (firstn_le_length n (c :: s)). lia.
    + apply (inOrder_weaken (S pos + 0)); [lia | apply IH].
  - replace (pos + S k) with (S pos + k) by lia. apply IH.
Qed.

Lemma tagMatches_inOrder (line : str) : inOrder 0 (tagMatches line) = true.
Proof.
  unfold tagMatches, execAll.
  apply (execFrom_inOrder _ tagRegex line) with (skip := 0) (pos := 0).
  intros r. now split.
Qed.

Lemma linkMatches_inOrder (line : str) : inOrder 0 (linkMatches line) = true.
Proof.
  unfold linkMatches, execAll.
  apply (execFrom_inOrder _ linkRegex line) with (skip := 0) (pos := 0).
  intros r. now split.
Qed.

(** No match is empty. *)
Lemma tagMatches_not_empty (line : str) (m : lmatch) :
  In m (tagMatches line) -> start m < end_ m.
Proof.
  unfold tagMatches, execAll. intros H. apply in_map_iff in H as (r & <- & Hr).
  apply execFrom_In in Hr as (k & n & Hm & _ & Ht & _).
  apply tagRegex_text in Hm as (run & E & _). cbn [start end_].
  rewrite Ht, E. cbn [length]. lia.
Qed.

Lemma linkMatches_not_empty (line : str) (m : lmatch) :
  In m (linkMatches line) -> start m < end_ m.
Proof.
  unfold linkMatches, execAll. intros H. apply in_map_iff in H as (r & <- & Hr).
  apply execFrom_In in Hr as (k & n & Hm & _ & Ht & _).
  apply linkRegex_text in Hm as (scheme & run & Hs & E & Hne & _).
  cbn [start end_]. rewrite Ht, E, length_app.
  destruct run; [contradiction|]. cbn [length]. lia.
Qed.

Lemma overlap_sym (a b : lmatch) : overlap a b = overlap b a.
Proof. apply andb_comm. Qed.

Lemma inOrder_starts (lo : nat) (ms : list lmatch) :
  inOrder lo ms = true -> Forall (fun m => start m < end_ m) ms ->
  Forall (fun m => lo <= start m) ms.
Proof.
  revert lo. induction ms as [|m ms IH]; intros lo H N; [constructor|].
  cbn [inOrder] in H. apply andb_prop in H as [H1 H2].
  apply Nat.leb_le in H1. inversion N as [|? ? Nm Nms]; subst.
  constructor; [exact H1|].
  apply (IH lo); [|exact Nms].
  apply (inOrder_weaken (end_ m)); [lia | exact H2].
Qed.

(** Matches in order, none of them empty, do not overlap each other. *)
Lemma inOrder_apart (lo : nat) (ms : list lmatch) :
  inOrder lo ms = true -> Forall (fun m => start m < end_ m) ms ->
  ForallOrdPairs (fun a b => overlap a b = false) ms.
Proof.
  revert lo. induction ms as [|m ms IH]; intros lo H N; [constructor|].
  cbn [inOrder] in H. apply andb_prop in H as [H1 H2].
  inversion N as [|? ? Nm Nms]; subst.
  constructor; [|now apply (IH (end_ m))].
  pose proof (inOrder_starts _ _ H2 Nms) as S.
  rewrite Forall_forall in *. intros y Hy. specialize (S y Hy).
  unfold overlap. apply andb_false_iff. right. apply Nat.ltb_ge. exact S.
Qed.

(** Inserting a match that overlaps none of a list in order keeps the
    order. *)
Lemma insertByStart_inOrder (x : lmatch) (ms : list lmatch) :
  forall lo,
    inOrder lo ms = true -> Forall (fun m => start m < end_ m) ms ->
    start x < end_ x -> Forall (fun y => overlap x y = false) ms ->
    lo <= start x ->
    inOrder lo (insertByStart x ms) = true.
Proof.
  induction ms as [|y ms IH]; intros lo H N Nx D Hlo.
  - cbn. rewrite andb_true_r. now apply Nat.leb_le.
  - cbn [inOrder] in H. apply andb_prop in H as [H1 H2].
    apply Nat.leb_le in H1.
    inversion N as [|? ? Ny Nms]; subst. inversion D as [|? ? Dy Dms]; subst.
    unfold overlap in Dy. apply andb_false_iff in Dy.
    cbn [insertByStart]. destruct (Nat.ltb_spec (start x) (start y)) as [L|L].
    + cbn [inOrder]. rewrite H2, andb_true_r.
      apply andb_true_intro. split; apply Nat.leb_le; [exact Hlo|].
      destruct Dy as [Dy|Dy]; apply Nat.ltb_ge in Dy; lia.
    + cbn [inOrder]. apply andb_true_intro.
      split; [now apply Nat.leb_le|].
      apply IH; auto.
      destruct Dy as [Dy|Dy]; apply Nat.ltb_ge in Dy; lia.
Qed.

Lemma sortByStart_inOrder (l : list lmatch) :
  forall acc,
    inOrder 0 acc = true ->
    Forall (fun m => start m < end_ m) acc ->
    Forall (fun m => start m < end_ m) l ->
    Forall (fun x => Forall (fun y => overlap x y = false) acc) l ->
    ForallOrdPairs (fun a b => overlap a b = false) l ->
    inOrder 0 (fold_left (fun acc x => insertByStart x acc) l acc) = true.
Proof.
  induction l as [|x l IH]; intros acc H N Nl D P; [exact H|].
  cbn [fold_left].
  inversion Nl as [|? ? Nx Nl']; subst. inversion D as [|? ? Dx Dl]; subst.
  inversion P as [|? ? Px Pl]; subst.
  apply IH; auto.
  - apply insertByStart_inOrder; auto. lia.
  - rewrite Forall_forall in *. intros y Hy.
    apply insertByStart_In in Hy as [-> | Hy]; auto.
  - rewrite Forall_forall in *. intros z Hz. rewrite Forall_forall.
    intros y Hy. apply insertByStart_In in Hy as [-> | Hy].
    + rewrite overlap_sym. now apply Px.
    + specialize (Dl z Hz). rewrite Forall_forall in Dl. now apply Dl.
Qed.

Lemma ForallOrdPairs_app {A : Type} (R : A -> A -> Prop) (a b : list A) :
  ForallOrdPairs R a -> ForallOrdPairs R b ->
  (forall x y, In x a -> In y b -> R x y) ->
  ForallOrdPairs R (a ++ b).
Proof.
  induction a as [|x a IH]; intros Pa Pb C; [exact Pb|].
  inversion Pa as [|? ? Hx Pa']; subst. cbn [app]. constructor.
  - apply Forall_app. split; [exact Hx|].
    rewrite Forall_forall. intros y Hy. apply C; [now left | exact Hy].
  - apply IH; auto. intros u v Hu Hv. apply C; [now right | exact Hv].
Qed.

Lemma tagsClearOfLinks_iff (line : str) :
  tagsClearOfLinks line = true
  <-> (forall t l, In t (tagMatches line) -> In l (linkMatches line) ->
                   overlap t l = false).
Proof.
  unfold tagsClearOfLinks. rewrite forallb_forall. split.
  - intros H t l Ht Hl. specialize (H t Ht). rewrite forallb_forall in H.
    now apply negb_true_iff, H.
  - intros H t Ht. rewrite forallb_forall. intros l Hl.
    now apply negb_true_iff, H.
Qed.

(** The sorted matches are in order exactly when no hashtag match overlaps
    an autolink match. *)
Lemma sortedMatches_inOrder_iff (line : str) :
  inOrder 0 (sortedMatches line) = true <-> tagsClearOfLinks line = true.
Proof.
  assert (NT : Forall (fun m => start m < end_ m) (tagMatches line))
    by (rewrite Forall_forall; apply (tagMatches_not_empty line)).
  assert (NL : Forall (fun m => start m < end_ m) (linkMatches line))
    by (rewrite Forall_forall; apply (linkMatches_not_empty line)).
  rewrite tagsClearOfLinks_iff. unfold sortedMatches, sortByStart. split.
  - intros H t l Ht Hl.
    assert (N : Forall (fun m => start m < end_ m)
                  (sortByStart (tagMatches line ++ linkMatches line))).
    { rewrite Forall_forall. intros m Hm.
      apply sortByStart_In, in_app_or in Hm as [Hm|Hm];
        [now apply (tagMatches_not_empty line)
        | now apply (linkMatches_not_empty line)]. }
    pose proof (inOrder_apart _ _ H N) as P.
    assert (It : In t (sortByStart (tagMatches line ++ linkMatches line)))
      by (apply sortByStart_In, in_or_app; now left).
    assert (Il : In l (sortByStart (tagMatches line ++ linkMatches line)))
      by (apply sortByStart_In, in_or_app; now right).
    destruct (ForallOrdPairs_In P t l It Il) as [E|[E|E]].
    + exfalso. unfold tagMatches in Ht. unfold linkMatches in Hl.
      apply in_map_iff in Ht as (r & <- & _).
      apply in_map_iff in Hl as (r' & <- & _).
      apply (f_equal type) in E. discriminate.
    + exact E.
    + now rewrite overlap_sym.
  - intros H. apply sortByStart_inOrder.
    + reflexivity.
    + constructor.
    + apply Forall_app. now split.
    + rewrite Forall_forall. intros; constructor.
    + apply ForallOrdPairs_app.
      * apply (inOrder_apart 0); [apply tagMatches_inOrder | exact NT].
      * apply (inOrder_apart 0); [apply linkMatches_inOrder | exact NL].
      * exact H.
Qed.

Lemma substring_length (a b : nat) (s : str) :
  a <= b -> b <= length s -> length (substring a b s) = b - a.
Proof.
  intros Hab Hb. unfold substring. rewrite length_firstn, length_skipn. lia.
Qed.

Lemma sourceText_length_snoc (children : list node) (n : node) :
  length (concat (map sourceText (children ++ [n])))
  = length (concat (map sourceText children)) + length (sourceText n).
Proof. now rewrite sourceText_snoc, length_app. Qed.

(** The loop over the matches: by how much the text of [children] exceeds
    [lastIndex] never shrinks, and grows when a match starts before
    [lastIndex]. *)
Lemma addMatch_excess (line : str) (ms : list lmatch) :
  forall (children : list node) (lastIndex e : nat),
    (forall m, In m ms -> wellPlaced line m) ->
    lastIndex <= length line ->
    length (concat (map sourceText children)) = lastIndex + e ->
    let (children', lastIndex') :=
      fold_left (addMatch line) ms (children, lastIndex) in
    exists e',
      lastIndex' <= length line
      /\ length (concat (map sourceText children')) = lastIndex' + e'
      /\ e <= e'
      /\ (inOrder lastIndex ms = false -> e < e').
Proof.
  induction ms as [|m ms IH]; intros children lastIndex e Hall Hlast Hlen.
  - cbn. exists e. repeat split; auto. discriminate.
  - destruct (Hall m (or_introl eq_refl)) as (P1 & P2 & P3).
    cbn [fold_left]. unfold addMatch at 2.
    set (children1 := if lastIndex <? start m then _ else _).
    assert (E1 : length (concat (map sourceText children1))
                 = lastIndex + e + (start m - lastIndex)).
    { subst children1.
      destruct (Nat.ltb_spec lastIndex (start m)) as [Hlt|Hge]; [|lia].
      pose proof (substring_length lastIndex (start m) line) as L.
      destruct (substring lastIndex (start m) line) eqn:T; cbn [isEmpty].
      - cbn [length] in L. lia.
      - rewrite sourceText_length_snoc. cbn [sourceText]. rewrite L; lia. }
    assert (E2 : forall n, sourceText n = matchText m ->
                   length (concat (map sourceText (children1 ++ [n])))
                   = end_ m + (e + (lastIndex - start m))).
    { intros n Hn. rewrite sourceText_length_snoc, E1, Hn, <- P3.
      rewrite substring_length by lia. lia. }
    unfold matchText in E2.
    assert (Hall' : forall m', In m' ms -> wellPlaced line m')
      by (intros; apply Hall; now right).
    assert (K : forall children2,
               length (concat (map sourceText children2))
               = end_ m + (e + (lastIndex - start m)) ->
               let (children', lastIndex') :=
                 fold_left (addMatch line) ms (children2, end_ m) in
               exists e',
                 lastIndex' <= length line
                 /\ length (concat (map sourceText children')) = lastIndex' + e'
                 /\ e <= e'
                 /\ (inOrder lastIndex (m :: ms) = false -> e < e')).
    { intros children2 H2.
      pose proof (IH children2 (end_ m) _ Hall' P2 H2) as G.
      destruct (fold_left (addMatch line) ms (children2, end_ m))
        as [children' lastIndex'].
      destruct G as (e' & G1 & G2 & G3 & G4).
      exists e'. repeat split; auto; [lia|].
      cbn [inOrder]. intros F. apply andb_false_iff in F as [F|F].
      - apply Nat.leb_gt in F. lia.
      - specialize (G4 F). lia. }
    destruct (type m); apply K; apply E2; reflexivity.
Qed.

(** Where the sorted matches are not in order, the spans of the tokenizer
    spell more than the line. *)
Lemma overlap_spells_more (line : str) :
  inOrder 0 (sortedMatches line) = false ->
  length line < length (concat (map sourceText (parseLineContent line))).
Proof.
  intros Hord. unfold parseLineContent.
  pose proof (addMatch_excess line (sortedMatches line) [] 0 0
                (sortedMatches_placed line) (Nat.le_0_l _) eq_refl) as H.
  destruct (fold_left (addMatch line) (sortedMatches line) ([], 0))
    as [children lastIndex].
  destruct H as (e & Hlast & Hlen & _ & He). specialize (He Hord).
  set (children' := if lastIndex <? length line then _ else _).
  assert (E : length (concat (map sourceText children')) = length line + e).
  { subst children'.
    destruct (Nat.ltb_spec lastIndex (length line)) as [Hlt|Hge]; [|lia].
    assert (L : length (substringFrom lastIndex line)
                = length line - lastIndex)
      by (unfold substringFrom; apply length_skipn).
    destruct (substringFrom lastIndex line) eqn:T; cbn [isEmpty].
    - cbn [length] in L. lia.
    - rewrite sourceText_length_snoc. cbn [sourceText]. lia. }
  destruct children'; [cbn in E; lia | lia].
Qed.

(** X12.  The coverage of the tokenizer, exactly: the spans spell the line if
    and only if no hashtag match overlaps an autolink match. Where one
    does, the spans spell more than the line. *)
Theorem coverage_exactly (line : str) :
  (concat (map sourceText (parseLineContent line)) = line
   <-> tagsClearOfLinks line = true)
  /\ (tagsClearOfLinks line = false ->
      length line < length (concat (map sourceText (parseLineContent line)))).
Proof.
  assert (More : tagsClearOfLinks line = false ->
                 length line
                 < length (concat (map sourceText (parseLineContent line)))).
  { intros H. apply overlap_spells_more.
    destruct (inOrder 0 (sortedMatches line)) eqn:E; [|reflexivity].
    apply sortedMatches_inOrder_iff in E. congruence. }
  split; [split|exact More].
  - intros H. destruct (tagsClearOfLinks line); [reflexivity|].
    specialize (More eq_refl). rewrite H in More. lia.
  - intros H. apply coverage_without_overlap.
    now apply sortedMatches_inOrder_iff.
Qed.

Lemma coverage_exactly_witness :
  concat (map sourceText
            (parseLineContent (lit "#todo read https://a.io/x #later")))
  = lit "#todo read https://a.io/x #later"
  /\ length (lit "see https://a.io/#top")
     < length (concat (map sourceText
                         (parseLineContent (lit "see https://a.io/#top")))).
Proof.
  split.
  - exact (proj2 (proj1 (coverage_exactly
                           (lit "#todo read https://a.io/x #later")))
             eq_refl).
  - exact (proj2 (coverage_exactly (lit "see https://a.io/#top")) eq_refl).
Defined.

(** ** Coverage, for a whole text *)

Lemma flat_map_split_lines (ls : list str) :
  forallb noNewline ls = true -> flat_map split_nl ls = ls.
Proof.
  induction ls as [|x xs IH]; [reflexivity|]. cbn [forallb flat_map].
  intros Hx. apply andb_prop in Hx as [Hx Hxs].
  now rewrite (noNewline_split x Hx), IH.
Qed.

Lemma split_nl_chars (p : N -> bool) (s : str) :
  forallb p s = true -> forallb (forallb p) (split_nl s) = true.
Proof.
  induction s as [|c s IH]; [reflexivity|]. cbn [forallb split_nl].
  intros H. apply andb_prop in H as [Hc Hs]. specialize (IH Hs).
  destruct (c =? 10)%N; [exact IH|].
  destruct (split_nl s) as [|l ls]; cbn [forallb] in *.
  - now rewrite Hc.
  - now rewrite Hc.
Qed.

Lemma tokens_source (line : str) :
  line <> [] ->
  map childSource (parseLineContent line)
  = map sourceText (parseLineContent line).
Proof.
  intros Hne. apply map_ext_in. intros n Hn.
  destruct (parseLineContent_nodes line n Hne Hn)
    as [(c & -> & _) | (m & _ & ->)]; [reflexivity|].
  unfold matchNode. destruct (type m); reflexivity.
Qed.

Lemma paragraphChildren_source (paragraphLines : list str) :
  forallb (fun l => negb (isEmpty l) && tagsClearOfLinks l) paragraphLines
  = true ->
  concat (map childSource (paragraphChildren paragraphLines))
  = join_nl paragraphLines.
Proof.
  induction paragraphLines as [|l ls IH]; [reflexivity|].
  cbn [forallb]. intros H. apply andb_prop in H as [Hl Hls].
  apply andb_prop in Hl as [Hne Hclear].
  assert (E : concat (map childSource (parseLineContent l)) = l).
  { rewrite tokens_source by (destruct l; [discriminate | discriminate]).
    apply coverage_without_overlap.
    now apply sortedMatches_inOrder_iff. }
  destruct ls as [|l' ls]; [exact E|].
  rewrite join_nl_cons by discriminate.
  change (paragraphChildren (l :: l' :: ls))
    with (parseLineContent l ++ LINE_BREAK :: paragraphChildren (l' :: ls)).
  rewrite map_app, concat_app, E. cbn [map concat childSource app].
  now rewrite (IH Hls).
Qed.

Lemma filter_takeWhile {A : Type} (p q : A -> bool) (l : list A) :
  (forall x, q x = true -> p x = true) ->
  filter p l = takeWhile q l ++ filter p (dropWhile q l).
Proof.
  intros H. induction l as [|x l IH]; [reflexivity|].
  cbn [takeWhile dropWhile]. destruct (q x) eqn:Q; [|reflexivity].
  cbn [filter app]. now rewrite (H x Q), IH.
Qed.

Lemma isParagraphLine_not_blank (l : str) :
  isParagraphLine l = true -> negb (isBlank l) = true.
Proof. unfold isParagraphLine. intros H. now apply andb_prop in H as [H _]. Qed.

Lemma isParagraphLine_not_empty (l : str) :
  isParagraphLine l = true -> negb (isEmpty l) = true.
Proof.
  intros H. apply isParagraphLine_not_blank in H. now destruct l.
Qed.

Lemma convertLines_spells (lines : list str) :
  forallb noNewline lines = true ->
  forallb (fun l => negb (isFence l) && tagsClearOfLinks l) lines = true ->
  flat_map split_nl (flat_map paragraphSource (convertLines lines))
  = filter (fun l => negb (isBlank l)) lines.
Proof.
  apply (convertLines_ind
           (fun lines nodes =>
              forallb noNewline lines = true ->
              forallb (fun l => negb (isFence l) && tagsClearOfLinks l) lines
              = true ->
              flat_map split_nl (flat_map paragraphSource nodes)
              = filter (fun l => negb (isBlank l)) lines)).
  - reflexivity.
  - intros line rest F after _ _ H. cbn [forallb] in H. now rewrite F in H.
  - intros line rest B IH Hn H. cbn [forallb filter] in *. rewrite B.
    apply andb_prop in Hn as [_ Hn]. apply andb_prop in H as [_ H].
    now apply IH.
  - intros line rest Hp after IH Hn H. cbn [forallb] in Hn, H.
    apply andb_prop in Hn as [Hn Hns]. apply andb_prop in H as [H Hs].
    apply andb_prop in H as [_ Hclear].
    pose proof (takeWhile_forallb isParagraphLine rest) as T.
    assert (C : forallb (fun l => negb (isEmpty l) && tagsClearOfLinks l)
                  (line :: takeWhile isParagraphLine rest) = true).
    { cbn [forallb]. rewrite (isParagraphLine_not_empty line Hp), Hclear.
      cbn [andb].
      pose proof (forallb_takeWhile isParagraphLine _ rest Hs) as Q.
      rewrite forallb_forall in *. intros x Hx.
      specialize (Q x Hx). apply andb_prop in Q as [_ ->].
      now rewrite (isParagraphLine_not_empty x (T x Hx)). }
    pose proof (paragraphChildren_source _ C) as S.
    assert (N : forallb noNewline (line :: takeWhile isParagraphLine rest)
                = true).
    { cbn [forallb]. rewrite Hn. now apply forallb_takeWhile. }
    assert (P : flat_map split_nl
                  (flat_map paragraphSource
                     (paragraphNodes (line :: takeWhile isParagraphLine rest)))
                = line :: takeWhile isParagraphLine rest).
    { unfold paragraphNodes.
      destruct (paragraphChildren (line :: takeWhile isParagraphLine rest))
        as [|n ns].
      - exfalso. cbn in S. apply isParagraphLine_not_empty in Hp.
        destruct line; [discriminate|].
        destruct (takeWhile isParagraphLine rest); discriminate.
      - cbn [flat_map paragraphSource app]. rewrite app_nil_r, S.
        rewrite split_join_nl by discriminate.
        now apply flat_map_split_lines. }
    rewrite !flat_map_app, P. cbn [filter].
    rewrite (isParagraphLine_not_blank line Hp). cbn [app]. f_equal.
    rewrite (filter_takeWhile _ isParagraphLine rest
               isParagraphLine_not_blank).
    f_equal. apply IH; now apply forallb_dropWhile.
Qed.

(** X13.  For a text without fence line in which no hashtag match overlaps an
    autolink match, the paragraphs of [convertContentToNodes] spell, line
    for line and in order, the lines of the text that are not blank: the
    scanner and the tokenizer together lose the blank lines and nothing
    else. *)
Theorem paragraphs_spell_lines (text : str) :
  forallb (fun l => negb (isFence l) && tagsClearOfLinks l) (split_nl text)
  = true ->
  flat_map split_nl (flat_map paragraphSource (convertContentToNodes text))
  = filter (fun l => negb (isBlank l)) (split_nl text).
Proof.
  intros H. unfold convertContentToNodes.
  destruct (isEmpty text || isBlank text) eqn:E.
  - assert (B : isBlank text = true).
    { destruct text; [reflexivity|]. exact E. }
    apply isBlank_iff in B. apply (split_nl_chars isSpace) in B.
    cbn [flat_map]. symmetry.
    induction (split_nl text) as [|l ls IH]; [reflexivity|].
    cbn [forallb filter] in *. apply andb_prop in B as [Bl Bls].
    apply andb_prop in H as [_ H].
    apply isBlank_iff in Bl. rewrite Bl. now apply IH.
  - apply convertLines_spells; [apply split_nl_noNewline | exact H].
Qed.

Lemma paragraphs_spell_lines_witness :
  flat_map split_nl
    (flat_map paragraphSource
       (convertContentToNodes
          (lit ("#a b" ++ newline ++ "see http://c.d" ++ newline ++ " "
                  ++ newline ++ "e"))))
  = [lit "#a b"; lit "see http://c.d"; lit "e"].
Proof.
  exact (paragraphs_spell_lines
           (lit ("#a b" ++ newline ++ "see http://c.d" ++ newline ++ " "
                   ++ newline ++ "e")) eq_refl).
Defined.

(** ** Lines with inline code *)

(** Splitting with a capture group loses no character. *)
Lemma splitFrom_concat (m : matcher) (s : str) :
  (forall t, m t <> Some 0) ->
  forall (piece : str) (skip : nat),
    concat (splitFrom m piece skip s) = piece ++ skipn skip s.
Proof.
  intros Hm. induction s as [|c s IH]; intros piece skip.
  - cbn. now rewrite skipn_nil, !app_nil_r.
  - cbn [splitFrom]. destruct skip as [|k]; [|now rewrite IH].
    destruct (m (c :: s)) as [n|] eqn:E.
    + destruct n as [|n]; [now apply Hm in E|].
      cbn [concat pred]. rewrite IH. cbn [app skipn firstn].
      now rewrite firstn_skipn.
    + rewrite IH, <- app_assoc. reflexivity.
Qed.

Lemma codeAt_not_empty (t : str) : codeAt t <> Some 0.
Proof.
  unfold codeAt. destruct t as [|c r]; [discriminate|].
  destruct (isChar "`" c); [|discriminate].
  destruct (takeWhile _ r); [discriminate|].
  destruct (skipn _ r); discriminate.
Qed.

Lemma extractText_app (a b : list node) :
  extractTextFromChildren (a ++ b)
  = extractTextFromChildren a ++ extractTextFromChildren b.
Proof.
  unfold extractTextFromChildren. now rewrite flat_map_app, concat_app.
Qed.

(** A piece that is neither blank nor a lone backtick is written back as
    it was read, whether it was read as code or as text. *)
Lemma codePart_text (part : str) :
  (isEmpty part || negb (isBlank part)) && negb (isLoneBacktick part) = true ->
  extractTextFromChildren (codePart part) = part.
Proof.
  intros H. apply andb_prop in H as [H1 H2]. apply negb_true_iff in H2.
  unfold codePart.
  destruct (startsWith (lit "`") part && endsWith (lit "`") part) eqn:E.
  - apply andb_prop in E as [E1 E2].
    destruct part as [|c t]; [discriminate|].
    cbn in E1. rewrite andb_true_r in E1. apply N.eqb_eq in E1. subst c.
    destruct t as [|d t] using rev_ind; [discriminate|]. clear IHt.
    unfold endsWith in E2. cbn [rev] in E2.
    rewrite rev_app_distr in E2. cbn in E2.
    rewrite andb_true_r in E2. apply N.eqb_eq in E2. subst d.
    unfold extractTextFromChildren, slice1m1. cbn [tl flat_map childText].
    rewrite removelast_last. cbn. now rewrite !app_nil_r.
  - unfold isBlank in H1. destruct (isEmpty (trim part)) eqn:T.
    + rewrite orb_false_r in H1. now destruct part.
    + unfold extractTextFromChildren. cbn. apply app_nil_r.
Qed.

Lemma codeParts_text (parts : list str) :
  forallb (fun part => (isEmpty part || negb (isBlank part))
                       && negb (isLoneBacktick part)) parts = true ->
  extractTextFromChildren (flat_map codePart parts) = concat parts.
Proof.
  induction parts as [|p ps IH]; [reflexivity|]. cbn [forallb flat_map concat].
  intros H. apply andb_prop in H as [Hp Hps].
  now rewrite extractText_app, (codePart_text p Hp), IH.
Qed.

(** X14.  A line with inline code comes back through the line-by-line scanner
    and the serializer as it was, when the split finds no blank piece and
    no lone backtick in it; a blank piece is dropped and a lone backtick
    is doubled. *)
Theorem inline_code_line_round_trip (line : str) :
  noNewline line = true -> isInlineCodeLine line = true ->
  cleanPieces line = true ->
  restoreNodesToMarkdown (parseMarkdownToNodes line) = line.
Proof.
  intros Hn I C. unfold isInlineCodeLine in I.
  repeat (apply andb_prop in I as [I ?]). apply negb_true_iff in I.
  unfold parseMarkdownToNodes. rewrite (noNewline_split line Hn).
  rewrite (parseLines_line line [] I). cbn [parseLines]. rewrite app_nil_r.
  pose proof (codeParts_text _ C) as T.
  unfold splitCapture in T at 2.
  rewrite (splitFrom_concat codeAt line codeAt_not_empty) in T.
  cbn [app skipn] in T.
  unfold lineNodes.
  destruct (taskMatch line); [discriminate|].
  destruct (bulletMatch line); [discriminate|].
  destruct (orderedMatch line); [discriminate|].
  destruct (headingMatch line); [discriminate|].
  destruct (test codeAt line); [|discriminate].
  destruct (flat_map codePart (splitCapture codeAt line)) as [|n ns].
  - cbn in T. now subst line.
  - unfold restoreNodesToMarkdown. cbn [flat_map nodeLines app join_nl join].
    exact T.
Qed.

Lemma inline_code_line_round_trip_witness :
  restoreNodesToMarkdown (parseMarkdownToNodes (lit "run `make` then `ls`"))
  = lit "run `make` then `ls`".
Proof.
  exact (inline_code_line_round_trip (lit "run `make` then `ls`")
           eq_refl eq_refl eq_refl).
Defined.

(** Where the split finds a blank piece or a lone backtick, the line does
    not come back. *)
Example inline_code_line_losses :
  restoreNodesToMarkdown (parseMarkdownToNodes (lit "`a` `b`")) = lit "`a``b`"
  /\ restoreNodesToMarkdown (parseMarkdownToNodes (lit "`a``")) = lit "`a```".
Proof. split; reflexivity. Qed.

(** ** The scanners as loops, and the arguments of one call *)

Lemma pushSpread_within (argLimit : nat)
    (children parsedChildren : list node) :
  length parsedChildren <= argLimit ->
  Cursor.pushSpread argLimit children parsedChildren
  = Cursor.Returned (children ++ parsedChildren).
Proof.
  intros H. unfold Cursor.pushSpread. apply Nat.leb_le in H. now rewrite H.
Qed.

Lemma pushSpread_beyond (argLimit : nat)
    (children parsedChildren : list node) :
  argLimit < length parsedChildren ->
  Cursor.pushSpread argLimit children parsedChildren = Cursor.Thrown.
Proof.
  intros H. unfold Cursor.pushSpread. apply Nat.leb_gt in H. now rewrite H.
Qed.

Lemma paragraphFor_spec (argLimit : nat) (paragraphLines : list str) :
  tokensWithin argLimit paragraphLines = true ->
  forall children,
    Cursor.paragraphFor argLimit paragraphLines children
    = Cursor.Returned (children ++ paragraphChildren paragraphLines).
Proof.
  unfold tokensWithin.
  induction paragraphLines as [|l ls IH]; intros H children.
  - cbn. now rewrite app_nil_r.
  - cbn [forallb] in H. apply andb_prop in H as [Hl Hls].
    apply Nat.leb_le in Hl. cbn [Cursor.paragraphFor].
    rewrite (pushSpread_within _ _ _ Hl). cbn [Cursor.bind].
    destruct ls as [|l' ls].
    + cbn. reflexivity.
    + rewrite (IH Hls).
      change (paragraphChildren (l :: l' :: ls))
        with (parseLineContent l ++ LINE_BREAK :: paragraphChildren (l' :: ls)).
      now rewrite <- !app_assoc.
Qed.

Lemma pushParagraph_spec (argLimit : nat) (nodes : list node)
    (paragraphLines : list str) :
  tokensWithin argLimit paragraphLines = true ->
  Cursor.pushParagraph argLimit nodes paragraphLines
  = Cursor.Returned (nodes ++ paragraphNodes paragraphLines).
Proof.
  intros H. unfold Cursor.pushParagraph, paragraphNodes.
  destruct paragraphLines as [|l ls]; [now rewrite app_nil_r|].
  rewrite (paragraphFor_spec argLimit (l :: ls) H []). cbn [Cursor.bind app].
  destruct (paragraphChildren (l :: ls)); [now rewrite app_nil_r | reflexivity].
Qed.

Lemma convertWhile_spec (argLimit n : nat) :
  forall (ls pre : list str) (nodes : list node) (fuel : nat),
    length ls <= n -> length ls + 2 <= fuel ->
    tokensWithin argLimit ls = true ->
    Cursor.convertWhile argLimit fuel (pre ++ ls) (length pre) nodes
    = Cursor.Returned (nodes ++ convertLines ls).
Proof.
  induction n as [|n IH]; intros [|line rest] pre nodes [|fuel] Hn Hfuel Hw;
    simpl in Hn, Hfuel; try lia;
    try (simpl; rewrite cursor_at_end, app_nil_r; reflexivity).
  cbn [Cursor.convertWhile]. rewrite cursor_inside, readLine_at.
  cbn [Cursor.bind].
  unfold tokensWithin in Hw. cbn [forallb] in Hw.
  apply andb_prop in Hw as [Hline Hrest].
  destruct (isFence line) eqn:F.
  - rewrite (convertLines_fence line rest F), codeBlockLoop_spec by reflexivity.
    destruct (snoc_app pre line rest) as [-> ->].
    rewrite codeBlockWhile_spec by lia. cbn [Cursor.bind]. cbv zeta.
    destruct (cursor_after_taken (fun l => negb (isFence l))
                (pre ++ [line]) rest) as [E1 E2].
    rewrite E1, E2.
    pose proof (dropWhile_length (fun l => negb (isFence l)) rest) as Hd.
    pose proof (forallb_dropWhile (fun l => negb (isFence l)) _ rest Hrest)
      as Hw'.
    destruct (dropWhile (fun l => negb (isFence l)) rest) as [|d after].
    + rewrite cursor_at_end. rewrite IH by (simpl; lia || reflexivity).
      now rewrite <- app_assoc.
    + rewrite cursor_inside.
      destruct (snoc_app ((pre ++ [line])
                            ++ takeWhile (fun l => negb (isFence l)) rest)
                  d after) as [-> ->].
      simpl in Hd. cbn [forallb] in Hw'. apply andb_prop in Hw' as [_ Hw'].
      rewrite IH by (simpl; lia || exact Hw'). now rewrite <- app_assoc.
  - destruct (isBlank line) eqn:B.
    + rewrite (convertLines_blank line rest B).
      destruct (snoc_app pre line rest) as [-> ->].
      apply IH; lia || exact Hrest.
    + assert (Hp : isParagraphLine line = true)
        by (unfold isParagraphLine; now rewrite B, F).
      rewrite (convertLines_paragraph line rest Hp),
        paragraphLoop_spec by reflexivity.
      rewrite paragraphWhile_spec by (simpl; lia).
      cbn [Cursor.bind]. cbv zeta. cbn [takeWhile app]. rewrite Hp.
      rewrite pushParagraph_spec.
      2:{ unfold tokensWithin. cbn [forallb]. rewrite Hline.
          now apply forallb_takeWhile. }
      cbn [Cursor.bind].
      destruct (cursor_after_taken isParagraphLine (pre ++ [line]) rest)
        as [E1 E2].
      destruct (snoc_app pre line rest) as [-> _].
      rewrite E1.
      replace (length pre + length (line :: takeWhile isParagraphLine rest))
        with (length ((pre ++ [line]) ++ takeWhile isParagraphLine rest))
        by (rewrite !length_app; simpl; lia).
      pose proof (dropWhile_length isParagraphLine rest) as Hd.
      rewrite IH by (lia || now apply forallb_dropWhile).
      now rewrite <- app_assoc.
Qed.

(** A text of one paragraph line that is tokenized into more nodes than
    one call takes arguments: the scan throws. *)
Lemma convert_throws_on_long_line (argLimit fuel : nat) (line : str) :
  noNewline line = true -> isParagraphLine line = true ->
  argLimit < length (parseLineContent line) -> 3 <= fuel ->
  Cursor.convertContentToNodes argLimit fuel line = Cursor.Thrown.
Proof.
  intros Hn Hp Hlong Hfuel. unfold Cursor.convertContentToNodes.
  pose proof Hp as Hp'. unfold isParagraphLine in Hp'.
  apply andb_prop in Hp' as [B F]. apply negb_true_iff in B, F.
  assert (E : isEmpty line = false)
    by (destruct line; [discriminate B | reflexivity]).
  rewrite E, B. cbn [orb]. rewrite (noNewline_split line Hn).
  destruct fuel as [|fuel]; [lia|].
  change [line] with ([] ++ [line]).
  change 0 with (length (@nil (list N))).
  cbn [Cursor.convertWhile]. rewrite cursor_inside, readLine_at.
  cbn [Cursor.bind]. rewrite F, B.
  rewrite paragraphWhile_spec by (simpl; lia).
  cbn [Cursor.bind]. cbv zeta. cbn [takeWhile app]. rewrite Hp.
  unfold Cursor.pushParagraph. cbn [Cursor.paragraphFor].
  now rewrite (pushSpread_beyond _ _ _ Hlong).
Qed.

(** The tokenizer gives at least one node for every tag match. *)
Lemma tagOf_insert (x : lmatch) (l : list lmatch) :
  length (flat_map tagOf (insertByStart x l))
  = length (tagOf x) + length (flat_map tagOf l).
Proof.
  induction l as [|y l IH]; cbn [insertByStart flat_map].
  - now rewrite app_nil_r.
  - destruct (start x <? start y); cbn [flat_map]; rewrite !length_app;
      [reflexivity | rewrite IH; lia].
Qed.

Lemma tagOf_sorted (l : list lmatch) :
  length (flat_map tagOf (sortByStart l)) = length (flat_map tagOf l).
Proof.
  unfold sortByStart.
  assert (G : forall acc,
             length (flat_map tagOf
                       (fold_left (fun acc x => insertByStart x acc) l acc))
             = length (flat_map tagOf l) + length (flat_map tagOf acc)).
  { induction l as [|x l IH]; intros acc; [reflexivity|].
    cbn [fold_left flat_map]. rewrite IH, tagOf_insert, length_app. lia. }
  rewrite G. cbn. lia.
Qed.

Lemma tokens_at_least_tags (line : str) :
  line <> [] -> length (matchedTagNames line) <= length (parseLineContent line).
Proof.
  intros Hne.
  assert (E : length (matchedTagNames line)
              = length (flat_map tagNames (parseLineContent line))).
  { rewrite parseLineContent_tags. unfold sortedMatches.
    rewrite tagOf_sorted, flat_map_app, tagOf_linkMatches, app_nil_r.
    now rewrite tagOf_tagMatches. }
  rewrite E.
  assert (G : forall l : list node,
             (forall n, In n l -> length (tagNames n) <= 1) ->
             length (flat_map tagNames l) <= length l).
  { induction l as [|n l IH]; intros H; [reflexivity|].
    cbn [flat_map length]. rewrite length_app.
    pose proof (H n (or_introl eq_refl)).
    assert (length (flat_map tagNames l) <= length l)
      by (apply IH; intros; apply H; now right).
    lia. }
  apply G. intros n Hn.
  destruct (parseLineContent_nodes line n Hne Hn)
    as [(c & -> & _) | (m & _ & ->)]; [cbn; lia|].
  unfold matchNode. destruct (type m); cbn; lia.
Qed.

(** A line of as many hashtags as wanted. *)
Lemma tags_of_repeat (n : nat) :
  length (matchedTagNames (repeatStr (lit "#a ") n)) = n.
Proof.
  induction n as [|n IH]; [reflexivity|].
  change (repeatStr (lit "#a ") (S n))
    with (lit "#a" ++ chr " " :: repeatStr (lit "#a ") n).
  rewrite matchedTagNames_texts in *.
  rewrite (tag_scan_split (chr " ") _ eq_refl eq_refl (lit "#a") 0 0 0)
    by (cbn; lia).
  rewrite map_app, length_app, IH. reflexivity.
Qed.

Lemma repeat_is_paragraph_line (n : nat) :
  noNewline (repeatStr (lit "#a ") (S n)) = true
  /\ isParagraphLine (repeatStr (lit "#a ") (S n)) = true.
Proof.
  split.
  - induction n as [|n IH]; [reflexivity | exact IH].
  - change (repeatStr (lit "#a ") (S n))
      with ([] ++ chr "#" :: lit "a " ++ repeatStr (lit "#a ") n).
    unfold isParagraphLine, isBlank.
    rewrite (line_not_fence [] (chr "#") _ eq_refl eq_refl eq_refl).
    destruct (trim_head [] (chr "#") (lit "a " ++ repeatStr (lit "#a ") n)
                eq_refl eq_refl) as [r ->].
    reflexivity.
Qed.

(** C6 fails in [convertContentToNodes] where a paragraph line is
    tokenized into more nodes than the engine takes as arguments of one
    call: [children.push(...parsedChildren)] throws.  Whatever that number
    is, a line of one hashtag more than it makes the scan throw, while
    [parseMarkdownToNodes], which pushes its children one by one, returns
    a document for the same text. *)
Theorem C6_spread_push_throws (argLimit fuel : nat) :
  3 <= fuel ->
  Cursor.convertContentToNodes argLimit fuel
    (repeatStr (lit "#a ") (S argLimit))
  = Cursor.Thrown
  /\ Cursor.parseMarkdownToNodes fuel (repeatStr (lit "#a ") (S argLimit))
     = Cursor.Returned
         (parseMarkdownToNodes (repeatStr (lit "#a ") (S argLimit))).
Proof.
  intros Hfuel. destruct (repeat_is_paragraph_line argLimit) as [Hn Hp].
  split.
  - apply convert_throws_on_long_line; auto.
    pose proof (tokens_at_least_tags _ (isParagraphLine_not_nil _ Hp)) as T.
    rewrite tags_of_repeat in T. lia.
  - unfold Cursor.parseMarkdownToNodes, parseMarkdownToNodes.
    rewrite (noNewline_split _ Hn).
    apply (parseFor_spec 1 [repeatStr (lit "#a ") (S argLimit)] [] [] fuel);
      simpl; lia.
Qed.

(** Were three arguments the most a call takes. *)
Lemma C6_spread_push_throws_witness :
  Cursor.convertContentToNodes 3 3 (lit "#a #a #a #a ") = Cursor.Thrown
  /\ Cursor.parseMarkdownToNodes 3 (lit "#a #a #a #a ")
     = Cursor.Returned [PARAGRAPH [TEXT (lit "#a #a #a #a ")]].
Proof.
  exact (C6_spread_push_throws 3 3 (le_n 3)).
Defined.

(** X16.  Run as loops over the cursor, with reads of [lines[i]] that throw
    past the end of the array and fuel for two tests more than there are
    lines, [parseMarkdownToNodes] returns its document on every text, and
    [convertContentToNodes] returns its document on every text none of
    whose lines is tokenized into more nodes than a call takes arguments:
    neither throws nor runs out of fuel.  On an opening fence that no
    later line closes, both return one CODE_BLOCK that takes all the lines
    left: joined by newlines in [parseMarkdownToNodes], and without the
    empty lines at their head in [convertContentToNodes]. *)
Theorem scanners_total_within_limit (argLimit : nat) :
  (forall (text : str) (fuel : nat),
      length (split_nl text) + 2 <= fuel ->
      Cursor.parseMarkdownToNodes fuel text
      = Cursor.Returned (parseMarkdownToNodes text)
      /\ (tokensWithin argLimit (split_nl text) = true ->
          Cursor.convertContentToNodes argLimit fuel text
          = Cursor.Returned (convertContentToNodes text)))
  /\ (forall (line : str) (rest : list str),
        isFence line = true ->
        forallb (fun l => negb (isFence l)) rest = true ->
        convertLines (line :: rest)
        = [CODE_BLOCK (fenceLanguage line) (join_nl (dropWhile isEmpty rest))]
        /\ parseLines (line :: rest)
           = [CODE_BLOCK (substringFrom 3 (trim line)) (join_nl rest)]).
Proof.
  split.
  - intros text fuel Hfuel. split.
    + exact (parseFor_spec (length (split_nl text)) (split_nl text) [] []
               fuel (le_n _) Hfuel).
    + intros Hw. unfold Cursor.convertContentToNodes, convertContentToNodes.
      destruct (isEmpty text || isBlank text); [reflexivity|].
      exact (convertWhile_spec argLimit (length (split_nl text))
               (split_nl text) [] [] fuel (le_n _) Hfuel Hw).
  - intros line rest F Hrest.
    destruct (unclosed_fence rest Hrest) as [T D]. split.
    + rewrite (convertLines_fence line rest F), codeBlockLoop_spec
        by reflexivity.
      now rewrite T, D, addCodeLine_fold.
    + rewrite (parseLines_fence line rest F), codeLinesLoop_spec
        by reflexivity.
      now rewrite T, D.
Qed.

(** A text that opens a fence and never closes it, with two empty lines
    at the head of the block. *)
Lemma scanners_total_within_limit_witness :
  (Cursor.parseMarkdownToNodes 6
     (lit ("```js" ++ newline ++ newline ++ "x = 1" ++ newline ++ "y = 2"))
   = Cursor.Returned
       [CODE_BLOCK (lit "js") (lit (newline ++ "x = 1" ++ newline ++ "y = 2"))]
   /\ Cursor.convertContentToNodes 4 6
        (lit ("```js" ++ newline ++ newline ++ "x = 1" ++ newline ++ "y = 2"))
      = Cursor.Returned
          [CODE_BLOCK (lit "js") (lit ("x = 1" ++ newline ++ "y = 2"))])
  /\ (convertLines (lit "```js" :: [[]; lit "x = 1"; lit "y = 2"])
      = [CODE_BLOCK (lit "js") (lit ("x = 1" ++ newline ++ "y = 2"))]
      /\ parseLines (lit "```js" :: [[]; lit "x = 1"; lit "y = 2"])
         = [CODE_BLOCK (lit "js")
              (lit (newline ++ "x = 1" ++ newline ++ "y = 2"))]).
Proof.
  split.
  - destruct (proj1 (scanners_total_within_limit 4)
                (lit ("```js" ++ newline ++ newline ++ "x = 1" ++ newline
                        ++ "y = 2")) 6 (le_n 6)) as [P C].
    split; [exact P | exact (C eq_refl)].
  - exact (proj2 (scanners_total_within_limit 4) (lit "```js")
             [[]; lit "x = 1"; lit "y = 2"] eq_refl eq_refl).
Defined.

(** ** Where the two scanners agree *)

Lemma takeWhile_id_iff {A : Type} (p : A -> bool) (l : list A) :
  takeWhile p l = l <-> forallb p l = true.
Proof.
  split; [|apply takeWhile_all].
  intros H. rewrite <- H. apply takeWhile_forallb.
Qed.

Lemma join_nl_tail_length (x : str) (xs : list str) :
  length (join_nl xs) <= length (join_nl (x :: xs)).
Proof.
  destruct xs as [|y ys]; [cbn; lia|].
  rewrite (join_nl_cons x (y :: ys)) by discriminate.
  rewrite length_app. cbn [length]. lia.
Qed.

Lemma join_nl_dropWhile_length (p : str -> bool) (xs : list str) :
  length (join_nl (dropWhile p xs)) <= length (join_nl xs).
Proof.
  induction xs as [|x xs IH]; [reflexivity|]. cbn [dropWhile].
  destruct (p x); [|reflexivity].
  pose proof (join_nl_tail_length x xs). lia.
Qed.

(** The two contents of a code block are the same text exactly when the
    block does not start with an empty line that another line follows. *)
Lemma sameCodeContent_iff (codeLines : list str) :
  join_nl (dropWhile isEmpty codeLines) = join_nl codeLines
  <-> sameCodeContent codeLines = true.
Proof.
  destruct codeLines as [|l [|l' ls]].
  - split; reflexivity.
  - split; [reflexivity|]. intros _. now destruct l.
  - cbn [sameCodeContent]. destruct l as [|c l]; cbn [isEmpty negb].
    + change (dropWhile isEmpty ([] :: l' :: ls))
        with (dropWhile isEmpty (l' :: ls)).
      split; [|discriminate]. intros H. exfalso.
      apply (f_equal (@length N)) in H.
      rewrite (join_nl_cons [] (l' :: ls)) in H by discriminate.
      cbn [app length] in H.
      pose proof (join_nl_dropWhile_length isEmpty (l' :: ls)). lia.
    + split; reflexivity.
Qed.

Lemma agreeCodeLoop_spec (outer : list str -> bool) (codeLines ls : list str) :
  outer [] = true ->
  agreeCodeLoop outer codeLines ls
  = sameCodeContent (codeLines ++ takeWhile (fun l => negb (isFence l)) ls)
    && outer (tl (dropWhile (fun l => negb (isFence l)) ls)).
Proof.
  intros Hnil. revert codeLines.
  induction ls as [|l ls IH]; intros codeLines; cbn [agreeCodeLoop].
  - cbn. now rewrite Hnil, app_nil_r, andb_true_r.
  - cbn [takeWhile dropWhile]. destruct (negb (isFence l)).
    + rewrite IH, <- app_assoc. reflexivity.
    + cbn [tl]. now rewrite app_nil_r.
Qed.

Lemma convertLines_kind (lines : list str) :
  forallb isCodeBlockOrParagraph (convertLines lines) = true.
Proof.
  apply (convertLines_ind
           (fun _ nodes => forallb isCodeBlockOrParagraph nodes = true)).
  - reflexivity.
  - intros line rest _ after IH. exact IH.
  - intros line rest _ IH. exact IH.
  - intros line rest _ after IH. rewrite forallb_app, IH.
    now rewrite paragraphNodes_kind.
Qed.

Lemma parseLineContent_not_nil (line : str) : parseLineContent line <> [].
Proof.
  unfold parseLineContent.
  destruct (fold_left _ _ _) as [children lastIndex].
  destruct (if lastIndex <? length line then _ else _); discriminate.
Qed.

(** The loop over the matches keeps what [children] holds and adds the
    node of every match. *)
Lemma addMatch_keeps (line : str) (ms : list lmatch) :
  forall (children : list node) (lastIndex : nat) (n : node),
    In n children \/ (exists m, In m ms /\ n = matchNode m) ->
    In n (fst (fold_left (addMatch line) ms (children, lastIndex))).
Proof.
  induction ms as [|m ms IH]; intros children lastIndex n H.
  - destruct H as [H | (m & [] & _)]. exact H.
  - cbn [fold_left]. unfold addMatch at 2.
    set (children1 := if lastIndex <? start m then _ else _).
    assert (K : In n children -> In n children1).
    { subst children1. intros Hc. destruct (lastIndex <? start m); [|exact Hc].
      destruct (isEmpty _); [exact Hc | apply in_or_app; now left]. }
    assert (G : In n (children1 ++ [matchNode m])
                \/ (exists m', In m' ms /\ n = matchNode m')).
    { destruct H as [H | (m' & [<- | Hm'] & ->)].
      - left. apply in_or_app. left. now apply K.
      - left. apply in_or_app. right. now left.
      - right. now exists m'. }
    unfold matchNode in G at 1.
    destruct (type m); apply IH; exact G.
Qed.

Lemma parseLineContent_has_matches (line : str) (m : lmatch) :
  In m (sortedMatches line) -> In (matchNode m) (parseLineContent line).
Proof.
  intros Hm. unfold parseLineContent.
  pose proof (addMatch_keeps line (sortedMatches line) [] 0 (matchNode m)
                (or_intror (ex_intro _ m (conj Hm eq_refl)))) as H.
  destruct (fold_left (addMatch line) (sortedMatches line) ([], 0))
    as [children lastIndex].
  cbn [fst] in H.
  set (children' := if lastIndex <? length line then _ else _).
  assert (K : In (matchNode m) children').
  { subst children'. destruct (lastIndex <? length line); [|exact H].
    destruct (isEmpty _); [exact H | apply in_or_app; now left]. }
  destruct children'; [contradiction | exact K].
Qed.

(** A line tokenized into one TEXT node holds no match. *)
Lemma one_text_no_match (line c : str) :
  parseLineContent line = [TEXT c] -> noInlineMatch line = true.
Proof.
  intros H.
  assert (E : forall m, ~ In m (tagMatches line ++ linkMatches line)).
  { intros m Hm.
    assert (Hs : In m (sortedMatches line))
      by (unfold sortedMatches; now apply sortByStart_In).
    apply parseLineContent_has_matches in Hs. rewrite H in Hs.
    destruct Hs as [Hs | []]. unfold matchNode in Hs.
    destruct (type m); discriminate. }
  unfold noInlineMatch. unfold tagMatches, linkMatches in E.
  destruct (execAll tagRegex line) as [|r rs];
    [|exfalso; apply (E _ (or_introl eq_refl))].
  destruct (execAll linkRegex line) as [|r rs];
    [reflexivity | exfalso; apply (E _ (or_introl eq_refl))].
Qed.

Lemma split_contains_code (s : str) :
  test codeAt s = true ->
  forall piece,
    exists run, In (CODE run) (flat_map codePart (splitFrom codeAt piece 0 s)).
Proof.
  induction s as [|c s IH]; [discriminate|].
  cbn [test splitFrom]. destruct (codeAt (c :: s)) as [n|] eqn:E.
  - intros _ piece. apply codeAt_text in E as (run & E).
    rewrite E. cbn [flat_map]. rewrite codePart_of_match.
    exists run. apply in_or_app. right. now left.
  - intros H piece. now apply IH.
Qed.

(** The one line of which [parseMarkdownToNodes] makes a paragraph that
    holds its text and nothing else is the plain line. *)
Lemma lineNodes_paragraph_text (line : str) (children : list node) :
  isFence line = false ->
  (forall run, ~ In (CODE run) children) ->
  lineNodes line = [PARAGRAPH children] ->
  isPlainLine line = true /\ children = [TEXT line].
Proof.
  intros F Hcode. unfold lineNodes, isPlainLine, isBlank. rewrite F.
  destruct (taskMatch line) as [[[? ?] ?]|]; [discriminate|].
  destruct (bulletMatch line) as [[? ?]|]; [discriminate|].
  destruct (orderedMatch line) as [[[? ?] ?]|]; [discriminate|].
  destruct (headingMatch line) as [[? ?]|]; [discriminate|].
  destruct (test codeAt line) eqn:T.
  - destruct (split_contains_code line T []) as (run & Hrun).
    unfold splitCapture.
    destruct (flat_map codePart (splitFrom codeAt [] 0 line)) as [|n ns];
      [discriminate|].
    intros [= <-]. exfalso. exact (Hcode run Hrun).
  - destruct (isEmpty (trim line)); cbn [negb]; [discriminate|].
    intros [= <-]. now split.
Qed.

Lemma paragraphChildren_no_code (paragraphLines : list str) (run : str) :
  forallb isParagraphLine paragraphLines = true ->
  ~ In (CODE run) (paragraphChildren paragraphLines).
Proof.
  intros H Hin. apply paragraphChildren_wellFormed in H.
  rewrite forallb_forall in H. specialize (H _ Hin). discriminate H.
Qed.

(** The two loops, on the lines from the cursor on, give the same nodes
    exactly on the lines of [scannersAgree]. *)
Lemma scanners_agree_lines (n : nat) :
  forall lines : list str,
    length lines <= n ->
    (convertLines lines = parseLines lines <-> scannersAgree lines = true).
Proof.
  induction n as [|n IH]; intros [|line rest] Hn; cbn [length] in Hn;
    try lia; try (split; reflexivity).
  destruct (isFence line) eqn:F.
  - (* a code block *)
    rewrite (convertLines_fence line rest F), codeBlockLoop_spec,
      addCodeLine_fold by reflexivity.
    rewrite (parseLines_fence line rest F), codeLinesLoop_spec by reflexivity.
    cbn [scannersAgree app]. rewrite F, agreeCodeLoop_spec by reflexivity.
    cbn [app].
    set (code := takeWhile (fun l => negb (isFence l)) rest).
    set (after := tl (dropWhile (fun l => negb (isFence l)) rest)).
    assert (Hafter : length after <= n).
    { subst after.
      pose proof (tl_length (dropWhile (fun l => negb (isFence l)) rest)).
      pose proof (dropWhile_length (fun l => negb (isFence l)) rest). lia. }
    specialize (IH after Hafter).
    pose proof (sameCodeContent_iff code) as C.
    pose proof (takeWhile_id_iff isWord (skipn 3 (trim line))) as L.
    unfold sameLanguage, fenceLanguage, substringFrom. split.
    + intros [= E1 E2 E3].
      apply L in E1. apply C in E2. apply IH in E3. now rewrite E1, E2, E3.
    + intros H. apply andb_prop in H as [H1 H]. apply andb_prop in H as [H2 H3].
      apply L in H1. apply C in H2. apply IH in H3. now rewrite H1, H2, H3.
  - destruct (isBlank line) eqn:B.
    + (* a blank line *)
      rewrite (convertLines_blank line rest B).
      rewrite (parseLines_line line rest F), (lineNodes_blank line B).
      cbn [scannersAgree app]. rewrite F.
      assert (P : isPlainLine line = false).
      { unfold isPlainLine. rewrite B. cbn [negb]. apply andb_false_r. }
      rewrite P. cbn [andb]. split; [|discriminate].
      intros H. pose proof (convertLines_kind rest) as K.
      rewrite H in K. discriminate K.
    + (* a paragraph line *)
      assert (Hp : isParagraphLine line = true)
        by (unfold isParagraphLine; now rewrite B, F).
      rewrite (convertLines_paragraph line rest Hp),
        paragraphLoop_spec by reflexivity.
      rewrite (parseLines_line line rest F).
      cbn [scannersAgree app]. rewrite F. split.
      * intros H.
        pose proof (lineNodes_single line) as L1.
        destruct (lineNodes line) as [|n0 [|? ?]] eqn:L; try discriminate L1.
        assert (Hall : forallb isParagraphLine
                         (line :: takeWhile isParagraphLine rest) = true)
          by (cbn [forallb]; now rewrite Hp, takeWhile_forallb).
        unfold paragraphNodes in H.
        destruct (paragraphChildren (line :: takeWhile isParagraphLine rest))
          as [|c cs] eqn:Ch.
        { exfalso. destruct (takeWhile isParagraphLine rest);
            cbn in Ch; [apply (parseLineContent_not_nil line Ch)|].
          apply app_eq_nil in Ch as [_ Ch]. discriminate Ch. }
        cbn [app] in H. injection H as Hhead Htail. subst n0.
        destruct (lineNodes_paragraph_text line (c :: cs) F) as [Hplain Hc].
        { intros run. rewrite <- Ch. now apply paragraphChildren_no_code. }
        { exact L. }
        rewrite Hc in Ch.
        destruct (takeWhile isParagraphLine rest) as [|l' tk] eqn:Tk.
        -- cbn in Ch.
           assert (Dr : dropWhile isParagraphLine rest = rest).
           { destruct rest as [|x xs]; [reflexivity|].
             cbn in Tk |- *. destruct (isParagraphLine x);
               [discriminate | reflexivity]. }
           rewrite Dr in Htail.
           assert (Hrest : length rest <= n) by lia.
           apply (IH rest Hrest) in Htail.
           rewrite Hplain, (one_text_no_match line line Ch), Htail.
           cbn [andb]. rewrite andb_true_r.
           destruct rest as [|next xs]; [reflexivity|].
           cbn in Tk. destruct (isParagraphLine next) eqn:Pn; [discriminate|].
           destruct (isFence next) eqn:Fn; [reflexivity|].
           exfalso. cbn [scannersAgree] in Htail. rewrite Fn in Htail.
           assert (Pl : isPlainLine next = false).
           { destruct (isPlainLine next) eqn:Q; [|reflexivity].
             apply isPlainLine_paragraph in Q. congruence. }
           rewrite Pl in Htail. discriminate Htail.
        -- exfalso.
           change (paragraphChildren (line :: l' :: tk))
             with (parseLineContent line
                     ++ LINE_BREAK :: paragraphChildren (l' :: tk)) in Ch.
           pose proof (parseLineContent_not_nil line) as Hne.
           destruct (parseLineContent line) as [|x [|y ys]];
             [contradiction | discriminate Ch | discriminate Ch].
      * intros H. apply andb_prop in H as [H Hrest].
        apply andb_prop in H as [H Hnext]. apply andb_prop in H as [Hplain Hm].
        assert (Tk : takeWhile isParagraphLine rest = []
                     /\ dropWhile isParagraphLine rest = rest).
        { destruct rest as [|next xs]; [now split|].
          cbn. unfold isParagraphLine. rewrite Hnext.
          rewrite andb_false_r. now split. }
        destruct Tk as [-> ->].
        assert (Hlen : length rest <= n) by lia.
        apply (IH rest Hlen) in Hrest. rewrite Hrest.
        destruct (isPlainLine_lineNodes line Hplain) as [_ ->].
        unfold paragraphNodes. cbn [paragraphChildren].
        now rewrite (parseLineContent_plain line
                       (isParagraphLine_not_nil line Hp) Hm).
Qed.

(** C10, as the code has it: the two scanners give the same document
    exactly on the texts made of code blocks and of single plain lines.
    Outside a code block every line is a fence line or a plain paragraph
    line (not blank, no list item, heading or inline code) without hashtag
    or autolink match, which a fence line or the end of the text follows;
    on an opening fence line the three backticks are followed by word
    characters only; and a code block of two lines or more does not start
    with an empty line.  On every other text the documents differ. *)
Theorem C10_scanners_agree_exactly (text : str) :
  convertContentToNodes text = parseMarkdownToNodes text
  <-> scannersAgree (split_nl text) = true.
Proof.
  unfold convertContentToNodes, parseMarkdownToNodes.
  destruct (isEmpty text || isBlank text) eqn:E.
  - assert (B : isBlank text = true)
      by (destruct text; [reflexivity | exact E]).
    apply isBlank_iff in B. apply (split_nl_chars isSpace) in B.
    pose proof (split_nl_not_nil text) as Hne.
    destruct (split_nl text) as [|l ls]; [contradiction|].
    cbn [forallb] in B. apply andb_prop in B as [Bl _].
    apply isBlank_iff in Bl.
    rewrite (parseLines_line l ls (isFence_blank l Bl)),
      (lineNodes_blank l Bl).
    cbn [scannersAgree]. rewrite (isFence_blank l Bl).
    assert (P : isPlainLine l = false).
    { unfold isPlainLine. rewrite Bl. cbn [negb]. apply andb_false_r. }
    rewrite P. split; discriminate.
  - apply (scanners_agree_lines (length (split_nl text))). lia.
Qed.

(** A text of two plain lines around a code block, and a fence that is
    never closed. *)
Lemma C10_scanners_agree_exactly_witness :
  convertContentToNodes
    (lit ("a" ++ newline ++ "```js" ++ newline ++ "x" ++ newline ++ "y"
              ++ newline ++ "```" ++ newline ++ "b"))
  = parseMarkdownToNodes
      (lit ("a" ++ newline ++ "```js" ++ newline ++ "x" ++ newline ++ "y"
                ++ newline ++ "```" ++ newline ++ "b"))
  /\ convertContentToNodes (lit "```js") = parseMarkdownToNodes (lit "```js").
Proof.
  split.
  - exact (proj2 (C10_scanners_agree_exactly
                    (lit ("a" ++ newline ++ "```js" ++ newline ++ "x"
                              ++ newline ++ "y" ++ newline ++ "```"
                              ++ newline ++ "b"))) eq_refl).
  - exact (proj2 (C10_scanners_agree_exactly (lit "```js")) eq_refl).
Defined.
